(** * ffmpeg-repeater: the job-claim protocol and the render pipeline

    A shallow embedding of the worker's core: the loop planner of
    [VideoProcessor], [AudioProcessor] and the legacy [MediaProcessor], the
    scale filter, the preset registry, file cleanup, the render pipeline and
    the Supabase job manager.

    Conventions of the embedding.
    - A JavaScript number is a [jsnum]: an exact rational or one of the three
      non-finite values.  Binary rounding and the sign of zero are not
      modelled.
    - A function that can throw (or a promise that can reject) returns a
      [completion]; code that also reads or changes the files, the job
      table or the clock runs in the monad [M] over a [world], where
      [try_catch] is the [try { } catch { }] statement.
    - An ffmpeg option keeps the pieces of the template string it is built
      from ([arg]), so that the number inside it can be read back. *)

From Stdlib Require Import ZArith QArith Qround Lqa Ascii String List Sorted Lia.
From stdpp Require Import gmap strings list pretty.

Local Open Scope string_scope.
Local Open Scope list_scope.
Local Open Scope Z_scope.

(** ** JavaScript numbers *)

Inductive jsnum : Type :=
  | Fin (q : Q)
  | PosInf
  | NegInf
  | NaN.

Definition of_Z (z : Z) : jsnum := Fin (inject_Z z).

Definition js_mul (a b : jsnum) : jsnum :=
  match a, b with
  | NaN, _ | _, NaN => NaN
  | Fin x, Fin y => Fin (x * y)
  | Fin x, PosInf | PosInf, Fin x =>
      match Qcompare x 0 with Eq => NaN | Gt => PosInf | Lt => NegInf end
  | Fin x, NegInf | NegInf, Fin x =>
      match Qcompare x 0 with Eq => NaN | Gt => NegInf | Lt => PosInf end
  | PosInf, PosInf | NegInf, NegInf => PosInf
  | PosInf, NegInf | NegInf, PosInf => NegInf
  end.

(** [x / 0] is an infinity with the sign of [x], and [0 / 0] is [NaN]. *)
Definition js_div (a b : jsnum) : jsnum :=
  match a, b with
  | NaN, _ | _, NaN => NaN
  | Fin x, Fin y =>
      match Qcompare y 0 with
      | Eq => match Qcompare x 0 with Eq => NaN | Gt => PosInf | Lt => NegInf end
      | _ => Fin (x / y)
      end
  | Fin _, (PosInf | NegInf) => Fin 0
  | PosInf, Fin y => match Qcompare y 0 with Lt => NegInf | _ => PosInf end
  | NegInf, Fin y => match Qcompare y 0 with Lt => PosInf | _ => NegInf end
  | (PosInf | NegInf), (PosInf | NegInf) => NaN
  end.

Definition js_sub (a b : jsnum) : jsnum :=
  match a, b with
  | NaN, _ | _, NaN => NaN
  | Fin x, Fin y => Fin (x - y)
  | Fin _, PosInf => NegInf
  | Fin _, NegInf => PosInf
  | PosInf, (Fin _ | NegInf) => PosInf
  | NegInf, (Fin _ | PosInf) => NegInf
  | PosInf, PosInf | NegInf, NegInf => NaN
  end.

(** [Math.ceil] *)
Definition js_ceil (a : jsnum) : jsnum :=
  match a with
  | Fin x => of_Z (Qceiling x)
  | other => other
  end.

(** [Math.round]: the nearest integer, a half going up. *)
Definition js_round (a : jsnum) : jsnum :=
  match a with
  | Fin x => of_Z (Qfloor (x + (1 # 2)))
  | other => other
  end.

(** [a > b]; any comparison with [NaN] is false. *)
Definition js_gtb (a b : jsnum) : bool :=
  match a, b with
  | NaN, _ | _, NaN => false
  | Fin x, Fin y => match Qcompare x y with Gt => true | _ => false end
  | PosInf, (Fin _ | NegInf) => true
  | Fin _, NegInf => true
  | _, _ => false
  end.

(** [a === b] on numbers *)
Definition js_eqb (a b : jsnum) : bool :=
  match a, b with
  | Fin x, Fin y => Qeq_bool x y
  | PosInf, PosInf | NegInf, NegInf => true
  | _, _ => false
  end.

(** Rounding towards zero, and the remainder [a % b], which takes the sign
    of [a]. *)
Definition Qtrunc (x : Q) : Z :=
  match Qcompare x 0 with Lt => Qceiling x | _ => Qfloor x end.

Definition js_rem (a b : jsnum) : jsnum :=
  match a, b with
  | Fin x, Fin y =>
      match Qcompare y 0 with
      | Eq => NaN
      | _ => Fin (x - y * inject_Z (Qtrunc (x / y)))
      end
  | Fin x, (PosInf | NegInf) => Fin x
  | _, _ => NaN
  end.

(** ** Completions *)

Inductive completion (A : Type) : Type :=
  | Normal (a : A)
  | Throw (e : string).
Arguments Normal {A} a.
Arguments Throw {A} e.

#[global] Instance completion_ret : MRet completion := fun A a => Normal a.
#[global] Instance completion_bind : MBind completion := fun A B k c =>
  match c with
  | Normal a => k a
  | Throw e => Throw e
  end.

(** [Array(n)]: a [RangeError] unless [n] is an integer in [0, 2^32). *)
Definition js_Array (n : jsnum) : completion nat :=
  match n with
  | Fin q =>
      if Qeq_bool (inject_Z (Qfloor q)) q
         && (0 <=? Qfloor q) && (Qfloor q <? 2 ^ 32)
      then Normal (Z.to_nat (Qfloor q))
      else Throw "RangeError: Invalid array length"
  | _ => Throw "RangeError: Invalid array length"
  end.

(** ** ffmpeg commands *)

(** A piece of an option: a literal, a number printed by [toString] or by a
    template literal, two pieces side by side, or [undefined]. *)
Inductive arg : Type :=
  | Str (s : string)
  | Num (n : jsnum)
  | Cat (a b : arg)
  | Undef.

Record command : Type := mkCommand {
  inputs : list string;
  inputOptions : list arg;
  complexFilter : list arg;
  outputOptions : list arg;
  output : string
}.

(** [ffmpeg(path)] and [ffmpeg()] *)
Definition ffmpeg (input : option string) : command :=
  {| inputs := match input with Some p => [p] | None => [] end;
     inputOptions := []; complexFilter := []; outputOptions := [];
     output := "" |}.

Definition add_input (p : string) (c : command) : command :=
  {| inputs := inputs c ++ [p]; inputOptions := inputOptions c;
     complexFilter := complexFilter c; outputOptions := outputOptions c;
     output := output c |}.

Definition add_inputOptions (o : list arg) (c : command) : command :=
  {| inputs := inputs c; inputOptions := inputOptions c ++ o;
     complexFilter := complexFilter c; outputOptions := outputOptions c;
     output := output c |}.

Definition set_complexFilter (f : list arg) (c : command) : command :=
  {| inputs := inputs c; inputOptions := inputOptions c;
     complexFilter := f; outputOptions := outputOptions c;
     output := output c |}.

Definition add_outputOptions (o : list arg) (c : command) : command :=
  {| inputs := inputs c; inputOptions := inputOptions c;
     complexFilter := complexFilter c; outputOptions := outputOptions c ++ o;
     output := output c |}.

Definition set_output (p : string) (c : command) : command :=
  {| inputs := inputs c; inputOptions := inputOptions c;
     complexFilter := complexFilter c; outputOptions := outputOptions c;
     output := p |}.

(** The two looping strategies of a render plan. *)
Inductive strategy : Type := Repeat | Concatenate.

(** The option [-stream_loop k] and the filter [concat=n=k:v=1:a=0[outv]]. *)
Definition stream_loop (k : jsnum) : arg := Cat (Str "-stream_loop ") (Num k).
Definition concat_filter (k : jsnum) : arg :=
  Cat (Str "concat=n=") (Cat (Num k) (Str ":v=1:a=0[outv]")).

(** ** Compression settings *)

(** A settings object.  [None] is a property the object does not have;
    [maxHeight] can also be present and [null] ([Some None]). *)
Record settings : Type := mkSettings {
  crf : option Z;
  preset : option string;
  maxHeight : option (option Z);
  audioBitrate : option string;
  twoPass : option bool;
  profile : option string;
  level : option string;
  bframes : option Z;
  gopSize : option Z;
  sampleRate : option Z;
  channels : option Z
}.

Definition no_settings : settings :=
  mkSettings None None None None None None None None None None None.

(** [{...a, ...b}]: a property of [b] wins over the same property of [a]. *)
Definition spread (a b : settings) : settings :=
  {| crf := crf b ∪ crf a;
     preset := preset b ∪ preset a;
     maxHeight := maxHeight b ∪ maxHeight a;
     audioBitrate := audioBitrate b ∪ audioBitrate a;
     twoPass := twoPass b ∪ twoPass a;
     profile := profile b ∪ profile a;
     level := level b ∪ level a;
     bframes := bframes b ∪ bframes a;
     gopSize := gopSize b ∪ gopSize a;
     sampleRate := sampleRate b ∪ sampleRate a;
     channels := channels b ∪ channels a |}.

(** Truthiness of the values a settings property can hold. *)
Definition truthy_Z (v : option Z) : bool :=
  match v with Some n => negb (n =? 0) | None => false end.
Definition truthy_maxHeight (v : option (option Z)) : bool :=
  match v with Some (Some n) => negb (n =? 0) | _ => false end.
Definition truthy_string (v : option string) : bool :=
  match v with Some s => negb (String.eqb s "") | None => false end.

(** [v || d] *)
Definition or_Z (v : option Z) (d : Z) : option Z :=
  if truthy_Z v then v else Some d.
Definition or_string (v : option string) (d : string) : option string :=
  if truthy_string v then v else Some d.
Definition or_maxHeight (v : option (option Z)) (d : Z) : option (option Z) :=
  if truthy_maxHeight v then v else Some (Some d).
Definition or_bool (v : option bool) (d : bool) : option bool :=
  match v with Some true => v | _ => Some d end.

(** The [compressionSettings] each constructor stores. *)
Definition MediaProcessor_settings (cs : settings) : settings :=
  spread
    {| crf := or_Z (crf cs) 23;
       preset := or_string (preset cs) "medium";
       maxHeight := or_maxHeight (maxHeight cs) 1080;
       audioBitrate := or_string (audioBitrate cs) "96k";
       twoPass := or_bool (twoPass cs) false;
       profile := or_string (profile cs) "high";
       level := or_string (level cs) "4.0";
       bframes := None; gopSize := None; sampleRate := None; channels := None |}
    cs.

Definition VideoProcessor_settings (cs : settings) : settings :=
  spread
    {| crf := Some 23; preset := Some "medium"; profile := Some "high";
       level := Some "4.0"; maxHeight := Some (Some 1080);
       bframes := Some 2; gopSize := Some 12;
       audioBitrate := None; twoPass := None; sampleRate := None;
       channels := None |}
    cs.

Definition AudioProcessor_settings (cs : settings) : settings :=
  spread
    {| audioBitrate := Some "96k"; sampleRate := Some 48000; channels := Some 2;
       crf := None; preset := None; maxHeight := None; twoPass := None;
       profile := None; level := None; bframes := None; gopSize := None |}
    cs.

Definition MediaMerger_settings (cs : settings) : settings :=
  spread
    {| audioBitrate := Some "96k";
       crf := None; preset := None; maxHeight := None; twoPass := None;
       profile := None; level := None; bframes := None; gopSize := None;
       sampleRate := None; channels := None |}
    cs.

(** ** The preset registry *)

(** The object literal that [MediaProcessor.getCompressionPresets] and
    [MediaProcessorFactory.getCompressionPresets] both return, in the order
    of its properties. *)
Definition youtube (c : Z) (p : string) (h : Z) (a l : string) : settings :=
  {| crf := Some c; preset := Some p; maxHeight := Some (Some h);
     audioBitrate := Some a; profile := Some "high"; level := Some l;
     bframes := Some 2; gopSize := Some 12;
     twoPass := None; sampleRate := None; channels := None |}.

Definition legacy (c : Z) (p : string) (h : option Z) (a pr l : string)
  : settings :=
  {| crf := Some c; preset := Some p; maxHeight := Some h;
     audioBitrate := Some a; profile := Some pr; level := Some l;
     bframes := None; gopSize := None;
     twoPass := None; sampleRate := None; channels := None |}.

Definition presetEntries : list (string * settings) :=
  [ ("youtube-4k", youtube 18 "slow" 2160 "384k" "5.1");
    ("youtube-2k", youtube 20 "medium" 1440 "192k" "5.0");
    ("youtube-1080p", youtube 23 "medium" 1080 "128k" "4.2");
    ("youtube-720p", youtube 26 "medium" 720 "96k" "3.1");
    ("ultra", legacy 18 "slow" None "192k" "high" "5.1");
    ("high", legacy 21 "medium" (Some 1440) "128k" "high" "4.2");
    ("medium", legacy 23 "medium" (Some 1080) "96k" "high" "4.0");
    ("small", legacy 28 "fast" (Some 720) "64k" "main" "3.1");
    ("tiny", legacy 32 "fast" (Some 480) "48k" "main" "3.0") ].

Definition getCompressionPresets : gmap string settings :=
  list_to_map presetEntries.

(** What a property read [obj[name]] on a plain object can give. *)
Inductive property : Type :=
  | Undefined
  | Own (s : settings)
  | Inherited (name : string).

(** The properties every plain object inherits from [Object.prototype]. *)
Definition objectPrototype : list string :=
  [ "constructor"; "__defineGetter__"; "__defineSetter__"; "hasOwnProperty";
    "__lookupGetter__"; "__lookupSetter__"; "isPrototypeOf";
    "propertyIsEnumerable"; "toString"; "valueOf"; "__proto__";
    "toLocaleString" ].

(** [obj[name]]: an own property first, then the prototype chain. *)
Definition js_get (obj : gmap string settings) (name : string) : property :=
  match obj !! name with
  | Some s => Own s
  | None =>
      if bool_decide (name ∈ objectPrototype) then Inherited name
      else Undefined
  end.

Definition truthy_property (v : property) : bool :=
  match v with Undefined => false | _ => true end.

(** The own enumerable properties of a value, as a spread copies them: a
    function or the prototype object has none. *)
Definition own_properties (v : property) : settings :=
  match v with Own s => s | _ => no_settings end.

(** [Object.keys(presets).join(', ')] *)
Definition js_join (sep : string) (l : list string) : string :=
  match l with
  | [] => ""
  | x :: r => fold_left (fun acc y => acc +:+ sep +:+ y) r x
  end.

Definition unknownPreset (presetName : string) : string :=
  "Unknown compression preset: " +:+ presetName +:+ ". Available: "
  +:+ js_join ", " (map fst presetEntries).

(** ** The scale filter *)

(** What [getVideoInfo] resolves with, as far as the planner reads it. *)
Record videoInfo : Type := mkVideoInfo {
  width : Z;
  height : Z;
  duration : jsnum
}.

(** [`scale=${w}:${h}`] *)
Definition scale_filter (w h : jsnum) : arg :=
  Cat (Str "scale=") (Cat (Num w) (Cat (Str ":") (Num h))).

(** [getVideoScaleFilter], the same body in [MediaProcessor] and in
    [VideoProcessor]; [None] is [null]. *)
Definition getVideoScaleFilter (cs : settings) (info : videoInfo) : option arg :=
  if negb (truthy_maxHeight (maxHeight cs)) || (height info =? 0) then None
  else
    match maxHeight cs with
    | Some (Some mh) =>
        if js_gtb (of_Z (height info)) (of_Z mh) then
          let aspectRatio := js_div (of_Z (width info)) (of_Z (height info)) in
          let newWidth := js_round (js_mul (of_Z mh) aspectRatio) in
          let evenWidth :=
            if js_eqb (js_rem newWidth (of_Z 2)) (of_Z 0) then newWidth
            else js_sub newWidth (of_Z 1) in
          let evenHeight :=
            if js_eqb (js_rem (of_Z mh) (of_Z 2)) (of_Z 0) then of_Z mh
            else js_sub (of_Z mh) (of_Z 1) in
          Some (scale_filter evenWidth evenHeight)
        else None
    | _ => None
    end.

(** ** The loop planner *)

Definition targetDuration (durationMinutes : jsnum) : jsnum :=
  js_mul durationMinutes (of_Z 60).

(** [Math.ceil(targetDuration / inputDuration)] *)
Definition loops (durationMinutes inputDuration : jsnum) : jsnum :=
  js_ceil (js_div (targetDuration durationMinutes) inputDuration).

(** [v.toString()], a [TypeError] when [v] is [undefined]. *)
Definition toString_Z (v : option Z) : completion arg :=
  match v with
  | Some n => Normal (Num (of_Z n))
  | None => Throw "TypeError: Cannot read properties of undefined"
  end.

Definition of_string (v : option string) : arg :=
  match v with Some s => Str s | None => Undef end.

(** The command [loopVideo] has built when it calls [run]; the same body in
    [MediaProcessor] and in [VideoProcessor].  A throw inside the promise
    executor rejects the promise. *)
Definition loopVideo_command (cs : settings) (inputPath : string)
    (durationMinutes inputDuration : jsnum) (info : videoInfo)
    (outputPath : string) : completion command :=
  let target := targetDuration durationMinutes in
  let n := loops durationMinutes inputDuration in
  cmd ← (if js_gtb n (of_Z 10)
         then Normal (add_inputOptions [stream_loop (js_sub n (of_Z 1))]
                        (ffmpeg (Some inputPath)))
         else
           len ← js_Array n;
           let copies := replicate len inputPath in
           let c := fold_left (fun c i => add_input i c) copies (ffmpeg None) in
           Normal (add_outputOptions [Str "-map [outv]"]
                     (set_complexFilter [concat_filter n] c)));
  crf_s ← toString_Z (crf cs);
  let opts :=
    [ Str "-c:v libx264";
      Str "-preset"; of_string (preset cs);
      Str "-crf"; crf_s;
      Str "-profile:v"; of_string (profile cs);
      Str "-level"; of_string (level cs);
      Str "-pix_fmt yuv420p";
      Str "-movflags +faststart";
      Str "-threads 0";
      Str "-t"; Num target ] in
  opts ← (if truthy_Z (bframes cs)
          then b ← toString_Z (bframes cs); Normal (opts ++ [Str "-bf"; b])
          else Normal opts);
  opts ← (if truthy_Z (gopSize cs)
          then g ← toString_Z (gopSize cs); Normal (opts ++ [Str "-g"; g])
          else Normal opts);
  let opts :=
    match getVideoScaleFilter cs info with
    | Some scaleFilter => opts ++ [Str "-vf"; scaleFilter]
    | None => opts
    end in
  Normal (set_output outputPath (add_outputOptions opts cmd)).

(** The command of [MediaProcessor.loopAudio]. *)
Definition MediaProcessor_loopAudio_command (inputPath : string)
    (durationMinutes inputDuration : jsnum) (outputPath : string)
  : completion command :=
  let target := targetDuration durationMinutes in
  let n := loops durationMinutes inputDuration in
  Normal
    (set_output outputPath
       (add_outputOptions
          [ Str "-c:a pcm_s16le"; Str "-ar 48000"; Str "-ac 2";
            Str "-t"; Num target ]
          (add_inputOptions [stream_loop (js_sub n (of_Z 1))]
             (ffmpeg (Some inputPath))))).

(** The command of [AudioProcessor.loopAudio]. *)
Definition AudioProcessor_loopAudio_command (cs : settings) (inputPath : string)
    (durationMinutes inputDuration : jsnum) (outputPath : string)
  : completion command :=
  let target := targetDuration durationMinutes in
  let n := loops durationMinutes inputDuration in
  let c := add_inputOptions [stream_loop (js_sub n (of_Z 1))]
             (ffmpeg (Some inputPath)) in
  ar ← toString_Z (sampleRate cs);
  ac ← toString_Z (channels cs);
  Normal
    (set_output outputPath
       (add_outputOptions
          [ Str "-c:a pcm_s16le"; Str "-ar"; ar; Str "-ac"; ac;
            Str "-t"; Num target ]
          c)).

(** The strategy a finished command uses, read off its options. *)
Definition is_stream_loop (a : arg) : bool :=
  match a with
  | Cat (Str s) (Num _) => String.eqb s "-stream_loop "
  | _ => false
  end.

Definition is_concat_filter (a : arg) : bool :=
  match a with
  | Cat (Str s) (Cat (Num _) (Str t)) =>
      String.eqb s "concat=n=" && String.eqb t ":v=1:a=0[outv]"
  | _ => false
  end.

Definition strategy_of (c : command) : option strategy :=
  match inputOptions c, complexFilter c with
  | [o], [] => if is_stream_loop o then Some Repeat else None
  | [], [f] => if is_concat_filter f then Some Concatenate else None
  | _, _ => None
  end.

(** The output-duration cap of a command: the number after [-t]. *)
Fixpoint trim_of (opts : list arg) : option jsnum :=
  match opts with
  | Str s :: ((Num t :: _) as rest) =>
      if String.eqb s "-t" then Some t else trim_of rest
  | _ :: rest => trim_of rest
  | [] => None
  end.

(** ** The world of a worker *)

(** A row of the table [dark_channel_soundtrack_videos]. *)
Record job : Type := mkJob {
  id : Z;
  status : string;
  final_video_url : option string;
  updated_at : string;
  channel_id : Z;
  input_video_url : string;
  soundtrack_url : string;
  length_minutes : jsnum;
  waiting_node_url : option string
}.

Inductive stage : Type := VideoLoop | AudioLoop | MergeStage.

(** What the worker asked of its collaborators, in order. *)
Inductive event : Type :=
  | Ran (s : stage) (c : command)
  | Uploaded (filePath key : string)
  | Notified (jobId : Z) (url : string) (completed : bool).

(** [files] are the paths that exist; a path in [locked] cannot be removed
    ([fs.remove] rejects on it).  [db_calls] counts the requests sent to the
    job store and [uuids] the identifiers drawn so far. *)
Record world : Type := mkWorld {
  files : gset string;
  locked : gset string;
  db : list job;
  db_calls : nat;
  uuids : nat;
  trace : list event
}.

Definition set_files (f : gset string) (w : world) : world :=
  mkWorld f (locked w) (db w) (db_calls w) (uuids w) (trace w).
Definition set_db (d : list job) (w : world) : world :=
  mkWorld (files w) (locked w) d (db_calls w) (uuids w) (trace w).
Definition next_db_call (w : world) : world :=
  mkWorld (files w) (locked w) (db w) (S (db_calls w)) (uuids w) (trace w).
Definition next_uuid (w : world) : world :=
  mkWorld (files w) (locked w) (db w) (db_calls w) (S (uuids w)) (trace w).
Definition log (e : event) (w : world) : world :=
  mkWorld (files w) (locked w) (db w) (db_calls w) (uuids w) (trace w ++ [e]).

(** Stateful code that can throw. *)
Definition M (A : Type) : Type := world -> world * completion A.

#[global] Instance M_ret : MRet M := fun A a w => (w, Normal a).
#[global] Instance M_bind : MBind M := fun A B k m w =>
  match m w with
  | (w', Normal a) => k a w'
  | (w', Throw e) => (w', Throw e)
  end.

Definition throw {A} (e : string) : M A := fun w => (w, Throw e).
Definition lift {A} (c : completion A) : M A := fun w => (w, c).

Definition try_catch {A} (body : M A) (handler : string -> M A) : M A :=
  fun w =>
    match body w with
    | (w', Normal a) => (w', Normal a)
    | (w', Throw e) => handler e w'
    end.

(** [Promise.all([p, q])].  The two operations touch different files, so
    their effects are applied one after the other; the promise rejects with
    the first rejection and otherwise resolves with both results.  When one
    operation rejects, the other still runs to its end. *)
Definition Promise_all2 {A B} (p : M A) (q : M B) : M (A * B) :=
  fun w =>
    let (w1, r1) := p w in
    let (w2, r2) := q w1 in
    match r1, r2 with
    | Normal a, Normal b => (w2, Normal (a, b))
    | Throw e, _ => (w2, Throw e)
    | _, Throw e => (w2, Throw e)
    end.

(** ** Files *)

Definition pathExists (filePath : string) : M bool :=
  fun w => (w, Normal (bool_decide (filePath ∈ files w))).

Definition remove (filePath : string) : M unit :=
  fun w =>
    if bool_decide (filePath ∈ files w) && bool_decide (filePath ∈ locked w)
    then (w, Throw "EACCES: permission denied")
    else (set_files (files w ∖ {[filePath]}) w, Normal tt).

(** A finished write stream leaves a file at its path. *)
Definition create_file (filePath : string) : M unit :=
  fun w => (set_files ({[filePath]} ∪ files w) w, Normal tt).

Definition truthy_path (filePath : option string) : bool := truthy_string filePath.

(** The [for] loop of [cleanup]; a [null] entry is [None]. *)
Fixpoint cleanup_loop (filePaths : list (option string)) : M unit :=
  match filePaths with
  | [] => mret tt
  | filePath :: rest =>
      match filePath with
      | Some p =>
          if truthy_path filePath then
            exists_ ← pathExists p;
            (if exists_ : bool then remove p else mret tt);;
            cleanup_loop rest
          else cleanup_loop rest
      | None => cleanup_loop rest
      end
  end.

(** [cleanup], the same body in [MediaProcessor] and in the [FileManager] of
    the media package: the whole loop sits in one [try], and the handler
    logs the error. *)
Definition cleanup (filePaths : list (option string)) : M unit :=
  try_catch (cleanup_loop filePaths) (fun error => mret tt).

(** [[a, b].filter(Boolean)] *)
Definition filter_Boolean (l : list (option string)) : list (option string) :=
  List.filter truthy_path l.

(** ** The render pipeline *)

(** How a run of the external transcoder ends: the [end] event, or the
    [error] event with or without an unfinished output file left behind. *)
Inductive exit : Type := End | Error (partial : bool).

Definition path_join (directory name : string) : string :=
  directory +:+ "/" +:+ name.

(** A processor kit: what [MediaProcessorFactory.create] wires together. *)
Record orchestrator : Type := mkOrchestrator {
  videoSettings : settings;
  audioSettings : settings;
  mergerSettings : settings
}.

Section Pipeline.

(** The collaborators the pipeline delegates to. *)
Variable ffprobe_duration : string -> completion jsnum.
Variable ffprobe_video : string -> completion videoInfo.
Variable ffmpeg_exit : command -> exit.
Variable uuidv4 : nat -> string.
Variable dirname : string -> string.
Variable timestamp : string.

(** [command.run()] and the promise around it. *)
Definition run (s : stage) (c : command) : M string :=
  fun w =>
    let w' := log (Ran s c) w in
    match ffmpeg_exit c with
    | End => (set_files ({[output c]} ∪ files w') w', Normal (output c))
    | Error partial =>
        ((if partial then set_files ({[output c]} ∪ files w') w' else w'),
         Throw "ffmpeg exited with an error")
    end.

Definition getMediaDuration (filePath : string) : M jsnum :=
  lift (ffprobe_duration filePath).
Definition getVideoInfo (filePath : string) : M videoInfo :=
  lift (ffprobe_video filePath).

Definition fresh_uuid : M string :=
  fun w => (next_uuid w, Normal (uuidv4 (uuids w))).

(** [FileManager.generateUniqueFilePath] *)
Definition generateUniqueFilePath (directory prefix extension : string)
  : M string :=
  uuid ← fresh_uuid;
  mret (path_join directory (prefix +:+ "_" +:+ uuid +:+ "." +:+ extension)).

Definition default_path (outputPath : option string) (gen : M string)
  : M string :=
  match outputPath with
  | Some p => if String.eqb p "" then gen else mret p
  | None => gen
  end.

(** [VideoProcessor.loopVideo] *)
Definition VideoProcessor_loopVideo (cs : settings) (inputPath : string)
    (durationMinutes : jsnum) (outputPath : option string) : M string :=
  try_catch
    (inputDuration ← getMediaDuration inputPath;
     info ← getVideoInfo inputPath;
     out ← default_path outputPath
             (generateUniqueFilePath (dirname inputPath) "looped_video" "mp4");
     cmd ← lift (loopVideo_command cs inputPath durationMinutes
                   inputDuration info out);
     run VideoLoop cmd)
    (fun error => throw error).

(** [AudioProcessor.loopAudio] *)
Definition AudioProcessor_loopAudio (cs : settings) (inputPath : string)
    (durationMinutes : jsnum) (outputPath : option string) : M string :=
  try_catch
    (inputDuration ← getMediaDuration inputPath;
     out ← default_path outputPath
             (generateUniqueFilePath (dirname inputPath) "looped_audio" "wav");
     cmd ← lift (AudioProcessor_loopAudio_command cs inputPath
                   durationMinutes inputDuration out);
     run AudioLoop cmd)
    (fun error => throw error).

(** [MediaProcessor.loopVideo] and [MediaProcessor.loopAudio] *)
Definition MediaProcessor_loopVideo (tempDir : string) (cs : settings)
    (inputPath : string) (durationMinutes : jsnum)
    (outputPath : option string) : M string :=
  try_catch
    (inputDuration ← getMediaDuration inputPath;
     info ← getVideoInfo inputPath;
     out ← default_path outputPath
             (uuid ← fresh_uuid;
              mret (path_join tempDir ("looped_video_" +:+ uuid +:+ ".mp4")));
     cmd ← lift (loopVideo_command cs inputPath durationMinutes
                   inputDuration info out);
     run VideoLoop cmd)
    (fun error => throw error).

Definition MediaProcessor_loopAudio (tempDir : string) (inputPath : string)
    (durationMinutes : jsnum) (outputPath : option string) : M string :=
  try_catch
    (inputDuration ← getMediaDuration inputPath;
     out ← default_path outputPath
             (uuid ← fresh_uuid;
              mret (path_join tempDir ("looped_audio_" +:+ uuid +:+ ".wav")));
     cmd ← lift (MediaProcessor_loopAudio_command inputPath durationMinutes
                   inputDuration out);
     run AudioLoop cmd)
    (fun error => throw error).

(** The merge command of [MediaMerger.mergeVideoAudio] with its default
    options, and of [MediaProcessor.mergeVideoAudio]. *)
Definition MediaMerger_merge_command (cs : settings)
    (videoPath audioPath out : string) : command :=
  set_output out
    (add_outputOptions
       [ Str "-c:v copy"; Str "-c:a"; Str "aac";
         Str "-b:a"; of_string (audioBitrate cs);
         Str "-movflags +faststart"; Str "-shortest" ]
       (add_input audioPath (add_input videoPath (ffmpeg None)))).

Definition MediaProcessor_merge_command (cs : settings)
    (videoPath audioPath out : string) : command :=
  set_output out
    (add_outputOptions
       [ Str "-c:v copy"; Str "-c:a aac";
         Str "-b:a"; of_string (audioBitrate cs);
         Str "-movflags +faststart"; Str "-shortest" ]
       (add_input audioPath (add_input videoPath (ffmpeg None)))).

Definition MediaMerger_mergeVideoAudio (cs : settings)
    (videoPath audioPath : string) (outputPath : option string) : M string :=
  try_catch
    (out ← default_path outputPath
             (mret (path_join (dirname videoPath)
                      ("merged_" +:+ timestamp +:+ ".mp4")));
     run MergeStage (MediaMerger_merge_command cs videoPath audioPath out))
    (fun error => throw error).

Definition MediaProcessor_mergeVideoAudio (outputDir : string) (cs : settings)
    (videoPath audioPath : string) (outputPath : option string) : M string :=
  try_catch
    (out ← default_path outputPath
             (mret (path_join outputDir ("merged_" +:+ timestamp +:+ ".mp4")));
     run MergeStage (MediaProcessor_merge_command cs videoPath audioPath out))
    (fun error => throw error).

(** The [catch] block of [processMedia], run with the values the two
    locals hold when the error arrives. *)
Definition processMedia_catch {A} (cleanup_ : list (option string) -> M unit)
    (loopedVideoPath loopedAudioPath : option string) (error : string)
  : M A :=
  (if truthy_path loopedVideoPath || truthy_path loopedAudioPath
   then cleanup_ (filter_Boolean [loopedVideoPath; loopedAudioPath])
   else mret tt);;
  throw error.

(** The body of [processMedia], the same in [MediaOrchestrator] and in
    [MediaProcessor] up to the objects the four operations belong to.
    The two locals are still [null] in the handler when [Promise.all]
    rejected: the destructuring assignment has not run. *)
Definition processMedia_body
    (loopVideo loopAudio : string -> jsnum -> M string)
    (mergeVideoAudio : string -> string -> option string -> M string)
    (cleanup_ : list (option string) -> M unit)
    (videoPath audioPath : string) (durationMinutes : jsnum)
    (outputPath : option string) : M string :=
  try_catch
    (Promise_all2 (loopVideo videoPath durationMinutes)
                  (loopAudio audioPath durationMinutes))
    (fun error => processMedia_catch cleanup_ None None error)
  ≫= fun '(loopedVideoPath, loopedAudioPath) =>
    try_catch
      (finalOutputPath ← mergeVideoAudio loopedVideoPath loopedAudioPath
                           outputPath;
       cleanup_ [Some loopedVideoPath; Some loopedAudioPath];;
       mret finalOutputPath)
      (fun error =>
         processMedia_catch cleanup_ (Some loopedVideoPath)
           (Some loopedAudioPath) error).

(** [MediaOrchestrator.processMedia] *)
Definition MediaOrchestrator_processMedia (o : orchestrator)
    (videoPath audioPath : string) (durationMinutes : jsnum)
    (outputPath : option string) : M string :=
  processMedia_body
    (fun p m => VideoProcessor_loopVideo (videoSettings o) p m None)
    (fun p m => AudioProcessor_loopAudio (audioSettings o) p m None)
    (MediaMerger_mergeVideoAudio (mergerSettings o))
    cleanup
    videoPath audioPath durationMinutes outputPath.

(** [MediaProcessor.processMedia] *)
Definition MediaProcessor_processMedia (outputDir tempDir : string)
    (cs : settings) (videoPath audioPath : string) (durationMinutes : jsnum)
    (outputPath : option string) : M string :=
  processMedia_body
    (fun p m => MediaProcessor_loopVideo tempDir cs p m None)
    (fun p m => MediaProcessor_loopAudio tempDir p m None)
    (MediaProcessor_mergeVideoAudio outputDir cs)
    cleanup
    videoPath audioPath durationMinutes outputPath.

End Pipeline.

(** ** Resolving a preset *)

(** [MediaProcessorFactory.create] *)
Definition MediaProcessorFactory_create (compressionSettings : settings)
  : orchestrator :=
  {| videoSettings := VideoProcessor_settings compressionSettings;
     audioSettings := AudioProcessor_settings compressionSettings;
     mergerSettings := MediaMerger_settings compressionSettings |}.

(** [MediaProcessorFactory.createWithPreset]; [withPreset] only adds a method
    to its result. *)
Definition MediaProcessorFactory_createWithPreset (presetName : string)
  : completion orchestrator :=
  let presets := getCompressionPresets in
  let settings_ := js_get presets presetName in
  if negb (truthy_property settings_) then Throw (unknownPreset presetName)
  else Normal (MediaProcessorFactory_create (own_properties settings_)).

(** [MediaProcessor.withPreset]: the settings of the processor it builds. *)
Definition MediaProcessor_withPreset (presetName : string)
  : completion settings :=
  let presets := getCompressionPresets in
  let settings_ := js_get presets presetName in
  if negb (truthy_property settings_) then Throw (unknownPreset presetName)
  else Normal (MediaProcessor_settings (own_properties settings_)).

(** ** The job store *)

(** What the Supabase client resolves with. *)
Record response (A : Type) : Type := mkResponse {
  data : option A;
  error : option string
}.
Arguments mkResponse {A} data error.
Arguments data {A} r.
Arguments error {A} r.

(** How a request to the store can go wrong: the client resolves with an
    [error], or the call throws. *)
Inductive fault : Type := NoFault | ErrorResponse | Throws.

Definition set_status (st now : string) (extra : job -> job) (j : job) : job :=
  let j' := extra j in
  mkJob (id j') st (final_video_url j') now (channel_id j')
    (input_video_url j') (soundtrack_url j') (length_minutes j')
    (waiting_node_url j').

Definition set_final_video_url (u : string) (j : job) : job :=
  mkJob (id j) (status j) (Some u) (updated_at j) (channel_id j)
    (input_video_url j) (soundtrack_url j) (length_minutes j)
    (waiting_node_url j).

(** [.order('id', { ascending: true })] *)
Fixpoint insert_by_id (j : job) (rows : list job) : list job :=
  match rows with
  | [] => [j]
  | k :: rest => if id j <=? id k then j :: rows else k :: insert_by_id j rest
  end.

Definition order_by_id (rows : list job) : list job :=
  fold_right insert_by_id [] rows.

(** [.in('status', ['waiting_render']).is('final_video_url', null)] *)
Definition is_candidate (j : job) : bool :=
  String.eqb (status j) "waiting_render"
  && match final_video_url j with None => true | Some _ => false end.

(** The query of [getAndClaimJob]: the candidates, lowest id first, at most
    one of them. *)
Definition select_candidate (rows : list job) : list job * response (list job) :=
  (rows,
   mkResponse (Some (firstn 1 (order_by_id (List.filter is_candidate rows))))
              None).

(** [.single()]: exactly one row, or an error. *)
Definition single (returned : list job) : response job :=
  match returned with
  | [r] => mkResponse (Some r) None
  | _ => mkResponse None (Some "PGRST116: the result contains 0 or several rows")
  end.

(** [.update(fields).eq('id', jobId)], with [.eq('status', from)] when
    [from] is given, then [.select().single()]: the rows the filters keep are
    rewritten, and they are what the request returns. *)
Definition update_rows (jobId : Z) (from : option string) (change : job -> job)
    (rows : list job) : list job * response job :=
  let keeps (j : job) : bool :=
    (id j =? jobId)
    && match from with Some st => String.eqb (status j) st | None => true end in
  (map (fun j => if keeps j then change j else j) rows,
   single (map change (List.filter keeps rows))).

(** [.select('*').eq('id', jobId).single()] *)
Definition select_by_id (jobId : Z) (rows : list job) : list job * response job :=
  (rows, single (List.filter (fun j => id j =? jobId) rows)).

Section JobStore.

(** The fault of each request, by its number; what the other workers do to
    the table before each request is served; and the clock. *)
Variable db_fault : nat -> fault.
Variable interfere : nat -> list job -> list job.
Variable now : string.

(** One awaited request: the other workers act, then the store answers. *)
Definition request {A} (query : list job -> list job * response A)
  : M (response A) :=
  fun w =>
    let n := db_calls w in
    let w1 := next_db_call (set_db (interfere n (db w)) w) in
    match db_fault n with
    | Throws => (w1, Throw "TypeError: fetch failed")
    | ErrorResponse => (w1, Normal (mkResponse None (Some "store error")))
    | NoFault =>
        let (rows, r) := query (db w1) in
        (set_db rows w1, Normal r)
    end.

(** [SupabaseJobManager.getAndClaimJob]; [None] is [null]. *)
Definition getAndClaimJob : M (option job) :=
  try_catch
    (fetched ← request select_candidate;
     if bool_decide (is_Some (error fetched)) then mret None
     else
       match data fetched with
       | None | Some [] => mret None
       | Some (job_ :: _) =>
           updated ← request
             (update_rows (id job_) (Some "waiting_render")
                (set_status "rendering" now (fun j => j)));
           if bool_decide (is_Some (error updated)) then mret None
           else
             match data updated with
             | None => mret None
             | Some updatedJob => mret (Some updatedJob)
             end
       end)
    (fun error => mret None).

(** [updateJobStatus] *)
Definition updateJobStatus (jobId : Z) (st : string) (additionalData : job -> job)
  : M bool :=
  try_catch
    (r ← request (update_rows jobId None (set_status st now additionalData));
     if bool_decide (is_Some (error r)) then mret false else mret true)
    (fun error => mret false).

(** [getJobById] *)
Definition getJobById (jobId : Z) : M (option job) :=
  try_catch
    (r ← request (select_by_id jobId);
     if bool_decide (is_Some (error r)) then mret None else mret (data r))
    (fun error => mret None).

(** The workflow notifier catches its own errors: a notification is sent
    and whatever comes back is only logged. *)
Definition notify (jobId : Z) (url : string) (completed : bool) : M unit :=
  fun w => (log (Notified jobId url completed) w, Normal tt).

(** [completeJob], with the notifier the service factory injects. *)
Definition completeJob (jobId : Z) (outputUrl : string) : M bool :=
  try_catch
    (found ← getJobById jobId;
     match found with
     | None => mret false
     | Some job_ =>
         updateSuccess ← updateJobStatus jobId "rendered"
                           (set_final_video_url outputUrl);
         if negb updateSuccess then mret false
         else
           (if truthy_string (waiting_node_url job_)
            then notify jobId (default "" (waiting_node_url job_)) true
            else mret tt);;
           mret true
     end)
    (fun error => mret false).

(** [failJob] *)
Definition failJob (jobId : Z) : M bool :=
  try_catch
    (found ← getJobById jobId;
     updateSuccess ← updateJobStatus jobId "failed" (fun j => j);
     match found with
     | Some job_ =>
         if truthy_string (waiting_node_url job_)
         then notify jobId (default "" (waiting_node_url job_)) false
         else mret tt
     | None => mret tt
     end;;
     mret updateSuccess)
    (fun failureError => updateJobStatus jobId "failed" (fun j => j)).

End JobStore.

(** ** The uploader *)

Record uploadResult : Type := mkUploadResult {
  success : bool;
  url : string;
  key : string
}.

Section Uploader.

Variable generateKey : Z -> Z -> string.
Variable publicBaseUrl : string.
(** Whether the multipart upload of a file to a key completes. *)
Variable upload_done : string -> string -> bool.

(** [BackblazeUploader.uploadFile] *)
Definition uploadFile (filePath : string) (channelId videoId : Z)
  : M uploadResult :=
  try_catch
    (let key_ := generateKey channelId videoId in
     fun w =>
       let w' := log (Uploaded filePath key_) w in
       if upload_done filePath key_
       then (w', Normal (mkUploadResult true (publicBaseUrl +:+ "/" +:+ key_) key_))
       else (w', Throw "upload failed"))
    (fun error => throw error).

(** [validateUpload] *)
Definition validateUpload (r : uploadResult) : bool :=
  success r && negb (String.eqb (url r) "") && negb (String.eqb (key r) "").

(** [cleanupLocalFile] *)
Definition cleanupLocalFile (filePath : string) : M unit :=
  try_catch
    (exists_ ← pathExists filePath;
     if exists_ : bool then remove filePath else mret tt)
    (fun error => mret tt).

(** [uploadAndCleanup] *)
Definition uploadAndCleanup (filePath : string) (channelId videoId : Z)
    (keepLocal : bool) : M uploadResult :=
  try_catch
    (uploadResult_ ← uploadFile filePath channelId videoId;
     if validateUpload uploadResult_ then
       (if negb keepLocal then cleanupLocalFile filePath else mret tt);;
       mret uploadResult_
     else throw "Upload validation failed")
    (fun error => throw error).

End Uploader.

(** ** The worker *)

Definition truthy_num (n : jsnum) : bool :=
  match n with
  | Fin q => negb (Qeq_bool q 0)
  | NaN => false
  | _ => true
  end.

(** [a <= b] *)
Definition js_leb (a b : jsnum) : bool :=
  match a, b with
  | NaN, _ | _, NaN => false
  | _, _ => negb (js_gtb a b)
  end.

Section Worker.

Variable ffprobe_duration : string -> completion jsnum.
Variable ffprobe_video : string -> completion videoInfo.
Variable ffmpeg_exit : command -> exit.
Variable uuidv4 : nat -> string.
Variable dirname : string -> string.
Variable timestamp : string.
Variable db_fault : nat -> fault.
Variable interfere : nat -> list job -> list job.
Variable generateKey : Z -> Z -> string.
Variable publicBaseUrl : string.
Variable upload_done : string -> string -> bool.
(** The downloader's side: the scratch directory, which downloads arrive,
    which URLs parse, and which files are large enough. *)
Variable baseDir : string.
Variable isValidUrl : string -> bool.
Variable download_ok : string -> bool.
Variable large_enough : string -> bool.

(** [JobValidator.validateJobData], its [isValid] field. *)
Definition validateJobData (j : job) : bool :=
  let missing :=
    String.eqb (input_video_url j) "" || String.eqb (soundtrack_url j) ""
    || negb (truthy_num (length_minutes j)) || (channel_id j =? 0) in
  let invalid :=
    (truthy_num (length_minutes j) && js_leb (length_minutes j) (of_Z 0))
    || (negb (channel_id j =? 0) && (channel_id j <=? 0))
    || (negb (String.eqb (input_video_url j) "")
        && negb (isValidUrl (input_video_url j)))
    || (negb (String.eqb (soundtrack_url j) "")
        && negb (isValidUrl (soundtrack_url j))) in
  negb missing && negb invalid.

(** [MediaDownloader.downloadFile] *)
Definition downloadFile (url_ expectedExtension : string) : M string :=
  try_catch
    (uuid ← fresh_uuid uuidv4;
     let filePath := path_join baseDir (uuid +:+ "." +:+ expectedExtension) in
     if download_ok url_
     then create_file filePath;; mret filePath
     else throw "download failed")
    (fun error => throw error).

(** [downloadMediaFiles] *)
Definition downloadMediaFiles (videoUrl audioUrl : string)
  : M (string * string) :=
  try_catch
    (Promise_all2 (downloadFile videoUrl "mp4") (downloadFile audioUrl "wav"))
    (fun error => throw error).

(** [validateFile] *)
Definition validateFile (filePath : string) : M unit :=
  try_catch
    (exists_ ← pathExists filePath;
     if negb exists_ then throw "File does not exist"
     else if negb (large_enough filePath) then throw "File too small"
     else mret tt)
    (fun error => throw error).

(** The [cleanup] the downloader inherits from the base [FileManager]:
    each file has its own [try]. *)
Fixpoint base_cleanup (filePaths : list (option string)) : M unit :=
  match filePaths with
  | [] => mret tt
  | filePath :: rest =>
      try_catch
        (match filePath with
         | Some p =>
             if truthy_path filePath then
               exists_ ← pathExists p;
               if exists_ : bool then remove p else mret tt
             else mret tt
         | None => mret tt
         end)
        (fun error => mret tt);;
      base_cleanup rest
  end.

(** [VideoRenderWorker.renderVideo], with the processor that
    [MediaProcessorFactory.withPreset] built.  Progress updates and the
    probe of the output metadata only log.  The [try] block is cut in two
    for reading: the steps up to the rendered file, and the steps that
    publish it. *)
Definition render_steps (processor : orchestrator) (job_ : job)
  : M (string * string * string) :=
  (if negb (validateJobData job_) then throw "Job validation failed"
   else mret tt);;
  '(videoPath, audioPath) ←
     downloadMediaFiles (input_video_url job_) (soundtrack_url job_);
  validateFile videoPath;;
  validateFile audioPath;;
  outputPath ← MediaOrchestrator_processMedia ffprobe_duration
                 ffprobe_video ffmpeg_exit uuidv4 dirname timestamp
                 processor videoPath audioPath (length_minutes job_) None;
  mret (videoPath, audioPath, outputPath).

Definition publish_steps (job_ : job) (rendered : string * string * string)
  : M string :=
  let '(videoPath, audioPath, outputPath) := rendered in
  uploadResult_ ← uploadAndCleanup generateKey publicBaseUrl upload_done
                    outputPath (channel_id job_) (id job_) false;
  completeJob db_fault interfere timestamp (id job_) (url uploadResult_);;
  base_cleanup [Some videoPath; Some audioPath];;
  mret (url uploadResult_).

(** The result is the URL of the upload. *)
Definition renderVideo (processor : orchestrator) (job_ : job) : M string :=
  try_catch
    (rendered ← render_steps processor job_;
     publish_steps job_ rendered)
    (fun error =>
       failJob db_fault interfere timestamp (id job_);;
       throw error).

End Worker.

(** ** Sample runs *)

(** The stages of the transcoder runs in a trace. *)
Definition ran_stages (tr : list event) : list stage :=
  omap (fun e => match e with Ran s _ => Some s | _ => None end) tr.

(** A small environment: every probe answers 30 s at 1920 by 1080 except the
    probe of [broken.wav], every transcoder run ends well, identifiers are
    letters, and every path lives in [temp]. *)
Definition sample_uuid (n : nat) : string :=
  match n with
  | O => "a" | 1%nat => "b" | 2%nat => "c" | 3%nat => "d" | _ => "z"
  end.
Definition sample_duration (filePath : string) : completion jsnum :=
  if String.eqb filePath "broken.wav" then Throw "ffprobe failed"
  else Normal (of_Z 30).
Definition sample_video (filePath : string) : completion videoInfo :=
  Normal (mkVideoInfo 1920 1080 (of_Z 30)).
Definition sample_exit (c : command) : exit := End.
Definition sample_dirname (filePath : string) : string := "temp".

Definition empty_world : world := mkWorld ∅ ∅ [] 0 0 [].

Definition sample_processor : orchestrator :=
  MediaProcessorFactory_create (youtube 23 "medium" 1080 "128k" "4.2").

(** A table of three jobs, two of them waiting. *)
Definition sample_job (i : Z) (st : string) (final : option string) : job :=
  mkJob i st final "2024-01-01" 3 "https://cdn/video.mp4" "https://cdn/audio.wav"
    (of_Z 1) None.

Definition sample_table : list job :=
  [ sample_job 7 "waiting_render" None;
    sample_job 5 "waiting_render" None;
    sample_job 2 "rendered" (Some "https://b2/final.mp4") ].

Definition sample_world : world := mkWorld ∅ ∅ sample_table 0 0 [].

Definition quiet (n : nat) (rows : list job) : list job := rows.
Definition no_fault (n : nat) : fault := NoFault.
Definition sample_key (channelId videoId : Z) : string := "finals/rendered.mp4".

(** Another worker, which claims job 5 just before the second request. *)
Definition rival (n : nat) (rows : list job) : list job :=
  match n with
  | 1%nat =>
      map (fun j => if id j =? 5
                    then set_status "rendering" "2024-01-02" (fun j => j) j
                    else j) rows
  | _ => rows
  end.

(** The worker renders job 5 of the sample table; whether the upload
    completes is left open. *)
Definition sample_renderVideo (upload_done : string -> string -> bool)
  : world * completion string :=
  renderVideo sample_duration sample_video sample_exit sample_uuid
    sample_dirname "T" no_fault quiet sample_key "https://b2" upload_done
    "temp" (fun _ => true) (fun _ => true) (fun _ => true)
    sample_processor (sample_job 5 "waiting_render" None) sample_world.

(** ** Predicates of the statements *)

(** A settings object has what [loopVideo] reads with [toString]. *)
Definition video_ready (cs : settings) : Prop := is_Some (crf cs).

(** An operation that leaves the files alone, and one that cannot throw. *)
Definition preserves_files {A} (m : M A) : Prop :=
  forall w, files (fst (m w)) = files w.

Definition never_throws {A} (m : M A) : Prop :=
  forall w, exists a, snd (m w) = Normal a.

(** ** More of the job manager *)

(** The query of [getJobsByStatus]: the rows of one status, lowest id
    first, at most [limit] of them. *)
Definition select_by_status (st : string) (limit : nat) (rows : list job)
  : list job * response (list job) :=
  (rows,
   mkResponse
     (Some (firstn limit
              (order_by_id (List.filter (fun j => String.eqb (status j) st) rows))))
     None).

Section JobQueries.

Variable db_fault : nat -> fault.
Variable interfere : nat -> list job -> list job.

(** [getJobsByStatus]; an error gives the empty list. *)
Definition getJobsByStatus (st : string) (limit : nat) : M (list job) :=
  try_catch
    (r ← request db_fault interfere (select_by_status st limit);
     if bool_decide (is_Some (error r)) then mret []
     else mret (default [] (data r)))
    (fun error => mret []).

End JobQueries.

(** The candidates of a table, counted. *)
Definition waiting (rows : list job) : nat :=
  length (List.filter is_candidate rows).

(** ** The batch loop *)

(** An entry of [jobResults]; the job id is [None] for ['unknown']. *)
Record jobResult : Type := mkJobResult {
  result_jobId : option Z;
  result_success : bool
}.

Record stats : Type := mkStats {
  totalProcessed : nat;
  totalFailed : nat;
  total : nat;
  results : list jobResult
}.

Section Batch.

Variable ffprobe_duration : string -> completion jsnum.
Variable ffprobe_video : string -> completion videoInfo.
Variable ffmpeg_exit : command -> exit.
Variable uuidv4 : nat -> string.
Variable dirname : string -> string.
Variable timestamp : string.
Variable db_fault : nat -> fault.
Variable interfere : nat -> list job -> list job.
Variable generateKey : Z -> Z -> string.
Variable publicBaseUrl : string.
Variable upload_done : string -> string -> bool.
Variable baseDir : string.
Variable isValidUrl : string -> bool.
Variable download_ok : string -> bool.
Variable large_enough : string -> bool.
Variable processor : orchestrator.

(** One turn of the [while (true)] loop of [processAllJobs]: [None] is the
    [break], otherwise the counters and the results the next turn starts
    with. *)
Definition processAllJobs_turn (processed failed : nat)
    (jobResults : list jobResult)
  : M (option (nat * nat * list jobResult)) :=
  try_catch
    (claimed ← getAndClaimJob db_fault interfere timestamp;
     match claimed with
     | None => mret None
     | Some job_ =>
         try_catch
           (renderVideo ffprobe_duration ffprobe_video ffmpeg_exit uuidv4
              dirname timestamp db_fault interfere generateKey publicBaseUrl
              upload_done baseDir isValidUrl download_ok large_enough
              processor job_;;
            mret (Some (S processed, failed,
                        jobResults ++ [mkJobResult (Some (id job_)) true])))
           (fun error =>
              mret (Some (processed, S failed,
                          jobResults ++ [mkJobResult (Some (id job_)) false])))
     end)
    (fun error =>
       mret (Some (processed, S failed,
                   jobResults ++ [mkJobResult None false]))).

(** [processAllJobs], with a bound on the number of turns; [None] when the
    bound is reached before the loop breaks. *)
Fixpoint processAllJobs_loop (fuel : nat) (processed failed : nat)
    (jobResults : list jobResult) : M (option stats) :=
  match fuel with
  | O => mret None
  | S fuel' =>
      turn ← processAllJobs_turn processed failed jobResults;
      match turn with
      | None =>
          mret (Some (mkStats processed failed (processed + failed) jobResults))
      | Some (processed', failed', jobResults') =>
          processAllJobs_loop fuel' processed' failed' jobResults'
      end
  end.

Definition processAllJobs (fuel : nat) : M (option stats) :=
  processAllJobs_loop fuel 0 0 [].

End Batch.

(** ** Download with retry *)

Section Retry.

Variable uuidv4 : nat -> string.
Variable baseDir : string.
(** Whether the download that draws the [n]-th identifier arrives. *)
Variable arrives : nat -> string -> bool.

(** One call of [downloadFile] inside the retry loop. *)
Definition attempt (url_ expectedExtension : string) : M string :=
  fun w => downloadFile uuidv4 baseDir (arrives (uuids w)) url_ expectedExtension w.

(** The [for] loop of [downloadWithRetry] from attempt [retries - left + 1]
    on; waiting between two attempts changes nothing in the world.  [None]
    is the [undefined] the function returns when the loop ends without a
    [return]. *)
Fixpoint retry_loop (left : nat) (url_ expectedExtension : string)
  : M (option string) :=
  match left with
  | O => mret None
  | S left' =>
      try_catch
        (filePath ← attempt url_ expectedExtension; mret (Some filePath))
        (fun error =>
           if Nat.eqb left' 0 then throw error
           else retry_loop left' url_ expectedExtension)
  end.

(** [downloadWithRetry], with [retries] already resolved from
    [maxRetries || this.config.retries]. *)
Definition downloadWithRetry (url_ expectedExtension : string) (retries : Z)
  : M (option string) :=
  retry_loop (Z.to_nat retries) url_ expectedExtension.

End Retry.

(** The delay before the next attempt, in milliseconds:
    [Math.min(1000 * Math.pow(2, attempt - 1), 10000)]. *)
Definition backoff (attempt_ : Z) : Z :=
  Z.min (1000 * 2 ^ (attempt_ - 1)) 10000.

(** ** The dependency container *)

Section Container.

(** The kinds of object a factory can build.  The factories [configureDI]
    registers are closures that do not use the container. *)
Variable K : Type.

(** A registered dependency: what calling its factory gives, and the flag. *)
Record dependency : Type := mkDependency {
  factory : completion K;
  isSingleton : bool
}.

(** An object is a kind and the serial number of its construction. *)
Record container : Type := mkContainer {
  dependencies : gmap string dependency;
  singletons : gmap string (K * nat);
  constructed : nat
}.

Definition new_container : container := mkContainer ∅ ∅ 0.

(** [register] *)
Definition register (name : string) (f : completion K) (single : bool)
    (c : container) : container :=
  mkContainer (<[name := mkDependency f single]> (dependencies c))
    (singletons c) (constructed c).

(** A call of a factory: a new object, or the error the factory throws. *)
Definition call (f : completion K) (c : container)
  : container * completion (K * nat) :=
  match f with
  | Normal k =>
      (mkContainer (dependencies c) (singletons c) (S (constructed c)),
       Normal (k, constructed c))
  | Throw e => (c, Throw e)
  end.

(** [resolve] *)
Definition resolve (name : string) (c : container)
  : container * completion (K * nat) :=
  match dependencies c !! name with
  | None => (c, Throw ("Dependency " +:+ name +:+ " not found"))
  | Some d =>
      if isSingleton d then
        match singletons c !! name with
        | Some o => (c, Normal o)
        | None =>
            match call (factory d) c with
            | (c', Normal o) =>
                (mkContainer (dependencies c') (<[name := o]> (singletons c'))
                   (constructed c'),
                 Normal o)
            | (c', Throw e) => (c', Throw e)
            end
        end
      else call (factory d) c
  end.

End Container.

Arguments mkDependency {K} factory isSingleton.
Arguments factory {K} d.
Arguments isSingleton {K} d.
Arguments mkContainer {K} dependencies singletons constructed.
Arguments dependencies {K} c.
Arguments singletons {K} c.
Arguments constructed {K} c.
Arguments new_container {K}.
Arguments register {K} name f single c.
Arguments call {K} f c.
Arguments resolve {K} name c.

(** ** Object keys *)

(** [String.prototype.replace] with a string pattern: the first occurrence
    is replaced.  The replacements used here are decimal numbers, which
    have no [$] in them. *)
Fixpoint string_drop (n : nat) (s : string) : string :=
  match n, s with
  | O, _ => s
  | S n', String _ s' => string_drop n' s'
  | S _, EmptyString => EmptyString
  end.

Fixpoint js_replace (s pattern replacement : string) : string :=
  if String.prefix pattern s
  then replacement +:+ string_drop (String.length pattern) s
  else
    match s with
    | EmptyString => EmptyString
    | String c s' => String c (js_replace s' pattern replacement)
    end.

(** The [keyPattern] of the configuration. *)
Definition keyPattern : string :=
  "dark_channel_sounds/channel_{channelId}/finals/rendered_version_{videoId}.mp4".

(** [BackblazeUploader.generateKey], and [Config.getBackblazeKey] with the
    same body; an id is an integer that [toString] prints in decimal. *)
Definition BackblazeUploader_generateKey (pattern : string)
    (channelId videoId : Z) : string :=
  js_replace (js_replace pattern "{channelId}" (pretty channelId))
    "{videoId}" (pretty videoId).

(** The characters of a printed integer. *)
Definition is_decimal (c : ascii) : bool :=
  match c with
  | "0" | "1" | "2" | "3" | "4" | "5" | "6" | "7" | "8" | "9" | "-" => true
  | _ => false
  end%char.

Fixpoint decimal (s : string) : bool :=
  match s with
  | EmptyString => true
  | String c s' => is_decimal c && decimal s'
  end.

(** ** The logger *)

Definition LOG_LEVELS : gmap string Z :=
  list_to_map [("error", 0); ("warn", 1); ("info", 2); ("debug", 3)].

(** [this.level = LOG_LEVELS[level] || LOG_LEVELS.info]: a number, or
    [None] for the function or object an inherited name gives. *)
Definition Logger_level (level_ : string) : option Z :=
  match LOG_LEVELS !! level_ with
  | Some n => if n =? 0 then LOG_LEVELS !! "info" else Some n
  | None =>
      if bool_decide (level_ ∈ objectPrototype) then None
      else LOG_LEVELS !! "info"
  end.

(** The test of [log]: [LOG_LEVELS[level] <= this.level], false as soon as
    one side is not a number. *)
Definition Logger_prints (configured level_ : string) : bool :=
  match LOG_LEVELS !! level_, Logger_level configured with
  | Some n, Some threshold => n <=? threshold
  | _, _ => false
  end.

(** ** Relations between the worlds before and after an operation *)

(** An operation whose every run relates the world it starts in to the
    world it ends in. *)
Definition respects (R : world -> world -> Prop) {A} (m : M A) : Prop :=
  forall w, R w (fst (m w)).

(** The job table is what it was. *)
Definition same_db (w w' : world) : Prop := db w' = db w.

(** The table has the same ids in the same order, and no more candidates. *)
Definition settles (w w' : world) : Prop :=
  map id (db w') = map id (db w) /\ (waiting (db w') <= waiting (db w))%nat.

(** No file was written or removed, no identifier drawn, and nothing was
    asked of the transcoder or of the object store: the trace gained at most
    notifications. *)
Definition is_work (e : event) : bool :=
  match e with Notified _ _ _ => false | _ => true end.

Definition untouched (w w' : world) : Prop :=
  files w' = files w
  /\ List.filter is_work (trace w') = List.filter is_work (trace w)
  /\ uuids w' = uuids w
  /\ locked w' = locked w.

(** Row by row the ids are kept, and a row that is no candidate stays
    none. *)
Definition no_revival (w w' : world) : Prop :=
  Forall2 (fun j j' => id j' = id j
                       /\ (is_candidate j = false -> is_candidate j' = false))
    (db w) (db w').

(** No row with this id is a candidate. *)
Definition closed (i : Z) (rows : list job) : Prop :=
  forall j, In j rows -> id j = i -> is_candidate j = false.

(** Row by row the ids are kept, and only rows with this id changed. *)
Definition only_id (i : Z) (w w' : world) : Prop :=
  Forall2 (fun j j' => id j' = id j /\ (id j <> i -> j' = j)) (db w) (db w').

(** No request to the store goes wrong. *)
Definition healthy_store (db_fault : nat -> fault) : Prop :=
  forall n, db_fault n = NoFault.

(** No other writer changes the table between two requests. *)
Definition quiet_store (interfere : nat -> list job -> list job) : Prop :=
  forall n rows, interfere n rows = rows.

(** * Properties *)

Section Numbers.
Local Open Scope Q_scope.

Lemma Qcompare_pos (d : Q) : 0 < d -> Qcompare d 0 = Gt.
Proof. intros H. apply Qgt_alt. exact H. Qed.

Lemma loops_finite (m d : Q) :
  0 < d -> loops (Fin m) (Fin d) = of_Z (Qceiling (60 * m / d)).
Proof.
  intros H. unfold loops, targetDuration, js_mul, js_div, of_Z.
  rewrite (Qcompare_pos d H). cbn [js_ceil]. unfold of_Z.
  assert (E : m * inject_Z 60 / d == 60 * m / d).
  { change (inject_Z 60) with 60. field. lra. }
  now rewrite E.
Qed.

Lemma ceiling_bounds (x d : Q) :
  0 < d ->
  inject_Z (Qceiling (x / d) - 1) * d < x /\ x <= inject_Z (Qceiling (x / d)) * d.
Proof.
  intros H.
  pose proof (Qceiling_lt (x / d)) as Hlo.
  pose proof (Qle_ceiling (x / d)) as Hhi.
  assert (E : x == x / d * d) by (field; lra).
  split.
  - rewrite E at 2. apply Qmult_lt_compat_r; assumption.
  - rewrite E at 1. apply Qmult_le_compat_r; [assumption | lra].
Qed.
End Numbers.

(** ** Facts about the commands the planner builds *)

Lemma fold_add_input (l : list string) (c : command) :
  fold_left (fun c i => add_input i c) l c
  = mkCommand (inputs c ++ l) (inputOptions c) (complexFilter c)
      (outputOptions c) (output c).
Proof.
  revert c. induction l as [|x l IH]; intros c; simpl.
  - rewrite app_nil_r. now destruct c.
  - rewrite IH. simpl. now rewrite <- app_assoc.
Qed.


Lemma VideoProcessor_settings_ready cs : video_ready (VideoProcessor_settings cs).
Proof. unfold video_ready. simpl. destruct (crf cs); eauto. Qed.

Lemma MediaProcessor_settings_ready cs : video_ready (MediaProcessor_settings cs).
Proof.
  unfold video_ready. simpl. unfold or_Z.
  destruct (crf cs) as [c|]; simpl; [destruct (c =? 0)|]; simpl; eauto.
Qed.

(** The command of [loopVideo], by cases on the loop count. *)
Lemma loopVideo_command_shape cs p m d info out :
  video_ready cs ->
  let n := loops m d in
  if js_gtb n (of_Z 10) then
    exists opts,
      loopVideo_command cs p m d info out
      = Normal (mkCommand [p] [stream_loop (js_sub n (of_Z 1))] [] opts out)
      /\ trim_of opts = Some (targetDuration m)
  else
    match js_Array n with
    | Normal len =>
        exists opts,
          loopVideo_command cs p m d info out
          = Normal (mkCommand (replicate len p) [] [concat_filter n] opts out)
          /\ trim_of opts = Some (targetDuration m)
    | Throw e => loopVideo_command cs p m d info out = Throw e
    end.
Proof.
  intros [c Hc] n. unfold loopVideo_command. fold n. rewrite Hc.
  destruct (js_gtb n (of_Z 10)); [|destruct (js_Array n) as [len|e]];
    cbn [mbind completion_bind toString_Z]; [| rewrite fold_add_input | reflexivity];
    destruct (bframes cs) as [b|], (gopSize cs) as [g|],
      (getVideoScaleFilter cs info) as [f|]; simpl;
    repeat match goal with
           | |- context [negb (?x =? 0)] => destruct (x =? 0); simpl
           end;
    (eexists; split; [reflexivity|]);
    unfold of_string; destruct (preset cs), (profile cs), (level cs);
    reflexivity.
Qed.

Lemma AudioProcessor_command_shape cs p m d out :
  exists ar ac,
    AudioProcessor_loopAudio_command (AudioProcessor_settings cs) p m d out
    = Normal (mkCommand [p] [stream_loop (js_sub (loops m d) (of_Z 1))] []
                [ Str "-c:a pcm_s16le"; Str "-ar"; Num ar; Str "-ac"; Num ac;
                  Str "-t"; Num (targetDuration m) ] out).
Proof.
  unfold AudioProcessor_loopAudio_command. simpl.
  destruct (sampleRate cs), (channels cs); simpl; eauto.
Qed.

Lemma js_gtb_of_Z (a b : Z) : js_gtb (of_Z a) (of_Z b) = (b <? a).
Proof.
  unfold js_gtb, of_Z, Qcompare, inject_Z. simpl. rewrite !Z.mul_1_r.
  destruct (Z.compare_spec a b), (Z.ltb_spec b a); try reflexivity; lia.
Qed.

Lemma js_Array_of_Z (n : Z) :
  js_Array (of_Z n)
  = if (0 <=? n) && (n <? 2 ^ 32) then Normal (Z.to_nat n)
    else Throw "RangeError: Invalid array length".
Proof.
  unfold js_Array, of_Z. rewrite Qfloor_Z.
  assert (E : Qeq_bool (inject_Z n) (inject_Z n) = true)
    by (apply Qeq_bool_iff; reflexivity).
  now rewrite E.
Qed.

(** ** The loop count *)



(** ** The looping strategy *)

(** C2, counterexample for audio. A 6 s track looped to one minute needs 10
    loops, which is not above the threshold, and the audio command still uses
    the stream repetition, not a concatenation. *)
Lemma audio_never_concatenates :
  loops (of_Z 1) (of_Z 6) = of_Z 10
  /\ js_gtb (of_Z 10) (of_Z 10) = false
  /\ (exists c,
        AudioProcessor_loopAudio_command (AudioProcessor_settings no_settings)
          "track.wav" (of_Z 1) (of_Z 6) "looped.wav" = Normal c
        /\ strategy_of c = Some Repeat
        /\ strategy_of c <> Some Concatenate)
  /\ (exists c,
        MediaProcessor_loopAudio_command "track.wav" (of_Z 1) (of_Z 6)
          "looped.wav" = Normal c
        /\ strategy_of c = Some Repeat
        /\ strategy_of c <> Some Concatenate).
Proof.
  split; [reflexivity|]. split; [reflexivity|].
  split; eexists; (split; [reflexivity|]); (split; [reflexivity | discriminate]).
Qed.

(** C2, for the code as written. The video plan picks its strategy by the
    threshold on the loop count [n]: the stream repetition when [n > 10], the
    concatenation of [n] inputs otherwise (no command at all when [n] is not
    an array length); 10 loops concatenate and 11 repeat. The audio plan uses
    the stream repetition for every loop count. *)
Theorem video_strategy_threshold (cs : settings) (p : string) (m d : jsnum)
    (info : videoInfo) (out : string) :
  let n := loops m d in
  let chosen := if js_gtb n (of_Z 10) then Repeat else Concatenate in
  let video (r : completion command) : Prop :=
    match r with
    | Normal c => strategy_of c = Some chosen
    | Throw e => js_gtb n (of_Z 10) = false /\ js_Array n = Throw e
    end in
  video (loopVideo_command (VideoProcessor_settings cs) p m d info out)
  /\ video (loopVideo_command (MediaProcessor_settings cs) p m d info out)
  /\ (exists c,
        AudioProcessor_loopAudio_command (AudioProcessor_settings cs) p m d out
        = Normal c /\ strategy_of c = Some Repeat)
  /\ (exists c,
        MediaProcessor_loopAudio_command p m d out = Normal c
        /\ strategy_of c = Some Repeat)
  /\ (loops (of_Z 1) (of_Z 6) = of_Z 10
      /\ exists c,
           loopVideo_command (VideoProcessor_settings cs) p (of_Z 1) (of_Z 6)
             info out = Normal c
           /\ strategy_of c = Some Concatenate)
  /\ (loops (of_Z 11) (of_Z 60) = of_Z 11
      /\ exists c,
           loopVideo_command (VideoProcessor_settings cs) p (of_Z 11) (of_Z 60)
             info out = Normal c
           /\ strategy_of c = Some Repeat).
Proof.
  intros n chosen video.
  assert (Hvideo : forall cs' m' d', video_ready cs' ->
            match loopVideo_command cs' p m' d' info out with
            | Normal c =>
                strategy_of c
                = Some (if js_gtb (loops m' d') (of_Z 10) then Repeat
                        else Concatenate)
            | Throw e =>
                js_gtb (loops m' d') (of_Z 10) = false
                /\ js_Array (loops m' d') = Throw e
            end).
  { intros cs' m' d' Hcs.
    pose proof (loopVideo_command_shape cs' p m' d' info out Hcs) as S.
    cbv zeta in S.
    destruct (js_gtb (loops m' d') (of_Z 10)).
    - destruct S as (opts & -> & _). reflexivity.
    - destruct (js_Array (loops m' d')) as [len|e].
      + destruct S as (opts & -> & _). reflexivity.
      + rewrite S. auto. }
  split; [apply Hvideo, VideoProcessor_settings_ready|].
  split; [apply Hvideo, MediaProcessor_settings_ready|].
  split.
  { destruct (AudioProcessor_command_shape cs p m d out) as (ar & ac & ->).
    eexists; split; reflexivity. }
  split; [eexists; split; reflexivity|].
  split; (split; [reflexivity|]).
  - pose proof (Hvideo (VideoProcessor_settings cs) (of_Z 1) (of_Z 6)
                  (VideoProcessor_settings_ready cs)) as H.
    destruct (loopVideo_command _ _ (of_Z 1) _ _ _) as [c|e].
    + exists c. split; [reflexivity | exact H].
    + destruct H as [_ H]. discriminate H.
  - pose proof (Hvideo (VideoProcessor_settings cs) (of_Z 11) (of_Z 60)
                  (VideoProcessor_settings_ready cs)) as H.
    destruct (loopVideo_command _ _ (of_Z 11) _ _ _) as [c|e].
    + exists c. split; [reflexivity | exact H].
    + destruct H as [H _]. discriminate H.
Qed.

(** ** The trim *)

(** C5. Every command the planner builds caps the output at the target
    duration: the video command in both strategies and the audio command
    carry [-t] followed by [targetDuration], which is [60 m] seconds.  The
    video planner builds no command only when the loop count is not an array
    length. *)
Theorem trim_is_unconditional (cs : settings) (p : string) (m d : jsnum)
    (info : videoInfo) (out : string) :
  let target := targetDuration m in
  let video (r : completion command) : Prop :=
    match r with
    | Normal c =>
        trim_of (outputOptions c) = Some target
        /\ (strategy_of c = Some Repeat \/ strategy_of c = Some Concatenate)
    | Throw e =>
        js_gtb (loops m d) (of_Z 10) = false /\ js_Array (loops m d) = Throw e
    end in
  video (loopVideo_command (VideoProcessor_settings cs) p m d info out)
  /\ video (loopVideo_command (MediaProcessor_settings cs) p m d info out)
  /\ (exists c,
        AudioProcessor_loopAudio_command (AudioProcessor_settings cs) p m d out
        = Normal c /\ trim_of (outputOptions c) = Some target)
  /\ (exists c,
        MediaProcessor_loopAudio_command p m d out = Normal c
        /\ trim_of (outputOptions c) = Some target)
  /\ (forall q : Q, exists t : Q,
        targetDuration (Fin q) = Fin t /\ (t == 60 * q)%Q).
Proof.
  intros target video.
  assert (Hvideo : forall cs', video_ready cs' ->
            video (loopVideo_command cs' p m d info out)).
  { intros cs' Hcs.
    pose proof (loopVideo_command_shape cs' p m d info out Hcs) as S.
    cbv zeta in S. unfold video.
    destruct (js_gtb (loops m d) (of_Z 10)).
    - destruct S as (opts & -> & Ht). split; [exact Ht | now left].
    - destruct (js_Array (loops m d)) as [len|e].
      + destruct S as (opts & -> & Ht). split; [exact Ht | now right].
      + rewrite S. auto. }
  split; [apply Hvideo, VideoProcessor_settings_ready|].
  split; [apply Hvideo, MediaProcessor_settings_ready|].
  split.
  { destruct (AudioProcessor_command_shape cs p m d out) as (ar & ac & ->).
    eexists; split; reflexivity. }
  split; [eexists; split; reflexivity|].
  intros q. exists (q * inject_Z 60)%Q. split; [reflexivity|].
  change (inject_Z 60) with 60%Q. ring.
Qed.

(** ** Integers as JavaScript numbers *)

Lemma js_sub_of_Z (a b : Z) : js_sub (of_Z a) (of_Z b) = of_Z (a - b).
Proof.
  unfold js_sub, of_Z, inject_Z, Qminus, Qplus, Qopp. simpl.
  f_equal. f_equal. lia.
Qed.

Lemma Qtrunc_half (k : Z) : Qtrunc (inject_Z k / inject_Z 2) = Z.quot k 2.
Proof.
  unfold Qtrunc, Qceiling, Qfloor, Qcompare, Qdiv, Qmult, Qinv, Qopp, inject_Z.
  simpl. rewrite !Z.mul_1_r.
  change (0 * Z.pos (1 * 2)) with 0. change (Z.pos (1 * 2)) with 2.
  destruct (Z.compare_spec k 0); Z.to_euclidean_division_equations; lia.
Qed.

Lemma js_even (k : Z) :
  js_eqb (js_rem (of_Z k) (of_Z 2)) (of_Z 0) = Z.even k.
Proof.
  unfold js_rem, of_Z. change (Qcompare (inject_Z 2) 0) with Gt.
  cbn [js_eqb]. rewrite Qtrunc_half.
  apply eq_true_iff_eq. rewrite Qeq_bool_iff, Z.even_spec.
  unfold Qeq, Qminus, Qplus, Qopp, Qmult, inject_Z. simpl.
  split.
  - intros H. exists (Z.quot k 2). lia.
  - intros [j ->]. Z.to_euclidean_division_equations. lia.
Qed.

Lemma js_div_of_Z (a b : Z) :
  b <> 0 -> js_div (of_Z a) (of_Z b) = Fin (inject_Z a / inject_Z b).
Proof.
  intros Hb. unfold js_div, of_Z.
  destruct (Qcompare (inject_Z b) 0) eqn:E; try reflexivity.
  apply Qeq_alt in E. unfold Qeq, inject_Z in E. simpl in E. lia.
Qed.

(** ** The scale filter *)

Lemma round_bounds (x : Q) :
  (x - (1 # 2) < inject_Z (Qfloor (x + (1 # 2)))
   /\ inject_Z (Qfloor (x + (1 # 2))) <= x + (1 # 2))%Q.
Proof.
  pose proof (Qfloor_le (x + (1 # 2))) as Hle.
  pose proof (Qlt_floor (x + (1 # 2))) as Hlt.
  rewrite inject_Z_plus in Hlt. change (inject_Z 1) with 1%Q in Hlt.
  revert Hle Hlt. generalize (inject_Z (Qfloor (x + (1 # 2)))). intros q Hle Hlt.
  split; lra.
Qed.

(** Every registered preset, and the default of each processor, has a
    [maxHeight] that is [null] or positive. *)
Lemma registered_maxHeight_positive (presetName : string) (s : settings) (mh : Z) :
  getCompressionPresets !! presetName = Some s ->
  maxHeight (VideoProcessor_settings s) = Some (Some mh)
  \/ maxHeight (MediaProcessor_settings s) = Some (Some mh) ->
  0 < mh.
Proof.
  intros Hs Hmh. apply elem_of_list_to_map_2, list_elem_of_In in Hs.
  simpl in Hs.
  repeat (destruct Hs as [Hs | Hs];
          [injection Hs as <- <-; destruct Hmh as [E | E];
           vm_compute in E; try discriminate E; injection E as <-; lia|]).
  destruct Hs.
Qed.



(** ** Cleanup *)

Lemma cleanup_loop_cons (filePath : option string) (rest : list (option string))
    (w : world) :
  cleanup_loop (filePath :: rest) w
  = match filePath with
    | Some p =>
        if truthy_path filePath && bool_decide (p ∈ files w) then
          if bool_decide (p ∈ locked w)
          then (w, Throw "EACCES: permission denied")
          else cleanup_loop rest (set_files (files w ∖ {[p]}) w)
        else cleanup_loop rest w
    | None => cleanup_loop rest w
    end.
Proof.
  destruct filePath as [p|]; [|reflexivity].
  cbn [cleanup_loop]. destruct (truthy_path (Some p)); [|reflexivity].
  unfold mbind, M_bind, pathExists, remove.
  destruct (bool_decide (p ∈ files w)) eqn:Hin; cbn [andb]; [|reflexivity].
  rewrite Hin. cbn [andb].
  destruct (bool_decide (p ∈ locked w)); reflexivity.
Qed.

Lemma removed_subset (F : gset string) (p : string) : F ∖ {[p]} ⊆ F.
Proof. intros x Hx. apply elem_of_difference in Hx. tauto. Qed.

Lemma removed_gone (F : gset string) (p : string) : p ∉ F ∖ {[p]}.
Proof.
  intros Hx. apply elem_of_difference in Hx as [_ Hx].
  apply Hx, elem_of_singleton. reflexivity.
Qed.

(** The loop only removes files, and touches nothing else of the world. *)
Lemma cleanup_loop_world (l : list (option string)) (w : world) :
  exists F, fst (cleanup_loop l w) = set_files F w /\ F ⊆ files w.
Proof.
  revert w. induction l as [|filePath rest IH]; intros w.
  - exists (files w). split; [now destruct w | done].
  - rewrite cleanup_loop_cons.
    destruct filePath as [p|]; [|apply IH].
    destruct (truthy_path (Some p) && bool_decide (p ∈ files w)); [|apply IH].
    destruct (bool_decide (p ∈ locked w)).
    + exists (files w). split; [now destruct w | done].
    + destruct (IH (set_files (files w ∖ {[p]}) w)) as (F & E & HF).
      exists F. split; [exact E|]. simpl in HF.
      intros x Hx. exact (removed_subset _ p x (HF x Hx)).
Qed.

Lemma cleanup_loop_subset (l : list (option string)) (w : world) :
  files (fst (cleanup_loop l w)) ⊆ files w.
Proof. destruct (cleanup_loop_world l w) as (F & -> & HF). exact HF. Qed.

Lemma cleanup_loop_again (l : list (option string)) (w : world) :
  cleanup_loop l (fst (cleanup_loop l w)) = cleanup_loop l w.
Proof.
  revert w. induction l as [|filePath rest IH]; intros w; [reflexivity|].
  rewrite (cleanup_loop_cons filePath rest w).
  destruct filePath as [p|]; [|rewrite cleanup_loop_cons; apply IH].
  destruct (truthy_path (Some p)) eqn:Ht; cbn [andb];
    [|rewrite cleanup_loop_cons, Ht; apply IH].
  destruct (bool_decide (p ∈ files w)) eqn:Hin.
  - destruct (bool_decide (p ∈ locked w)) eqn:Hlock.
    + cbn [fst]. rewrite cleanup_loop_cons, Ht, Hin, Hlock. reflexivity.
    + rewrite cleanup_loop_cons, Ht. cbn [andb].
      rewrite bool_decide_eq_false_2; [apply IH|].
      intros Hp. apply cleanup_loop_subset in Hp. simpl in Hp.
      exact (removed_gone _ _ Hp).
  - rewrite cleanup_loop_cons, Ht. cbn [andb].
    rewrite bool_decide_eq_false_2; [apply IH|].
    intros Hp. apply cleanup_loop_subset in Hp.
    apply bool_decide_eq_false_1 in Hin. contradiction.
Qed.

Lemma cleanup_loop_keeps (l : list (option string)) (w : world) (q : string) :
  q ∈ files w -> Some q ∉ l -> q ∈ files (fst (cleanup_loop l w)).
Proof.
  revert w. induction l as [|filePath rest IH]; intros w Hq Hl; [exact Hq|].
  rewrite cleanup_loop_cons.
  assert (Hrest : Some q ∉ rest) by (intros H; apply Hl; now right).
  destruct filePath as [p|]; [|now apply IH].
  destruct (truthy_path (Some p) && bool_decide (p ∈ files w)); [|now apply IH].
  destruct (bool_decide (p ∈ locked w)); [exact Hq|].
  apply IH; [|exact Hrest]. simpl.
  assert (p <> q) by (intros ->; apply Hl; now left).
  apply elem_of_difference. split; [exact Hq|].
  rewrite elem_of_singleton. congruence.
Qed.

Lemma cleanup_loop_removes (l : list (option string)) (w : world) :
  (forall p, Some p ∈ l -> p ∈ files w -> p ∉ locked w) ->
  snd (cleanup_loop l w) = Normal tt
  /\ forall p, Some p ∈ l -> p <> "" -> p ∉ files (fst (cleanup_loop l w)).
Proof.
  revert w. induction l as [|filePath rest IH]; intros w Hfree.
  - split; [reflexivity|]. intros p Hp. now apply elem_of_nil in Hp.
  - rewrite cleanup_loop_cons.
    assert (Hstep : forall w', files w' ⊆ files w -> locked w' = locked w ->
              snd (cleanup_loop rest w') = Normal tt
              /\ forall p, Some p ∈ rest -> p <> "" ->
                   p ∉ files (fst (cleanup_loop rest w'))).
    { intros w' Hsub Hlock. apply IH. intros p Hp Hin. rewrite Hlock.
      apply Hfree; [now right | exact (Hsub p Hin)]. }
    assert (Hhead : forall w' p, files w' ⊆ files w -> locked w' = locked w ->
              p ∉ files w' ->
              snd (cleanup_loop rest w') = Normal tt
              /\ forall p', Some p' ∈ Some p :: rest -> p' <> "" ->
                   p' ∉ files (fst (cleanup_loop rest w'))).
    { intros w' p Hsub Hlock Hgone.
      destruct (Hstep w' Hsub Hlock) as [Hn Hr]. split; [exact Hn|].
      intros p' Hp' Hne. apply elem_of_cons in Hp' as [Heq | Hp'].
      - injection Heq as ->. intros Hin.
        apply cleanup_loop_subset in Hin. contradiction.
      - now apply Hr. }
    destruct filePath as [p|].
    + destruct (truthy_path (Some p)) eqn:Ht; cbn [andb].
      * destruct (bool_decide (p ∈ files w)) eqn:Hin.
        -- apply bool_decide_eq_true_1 in Hin.
           rewrite bool_decide_eq_false_2 by (apply Hfree; [now left | exact Hin]).
           apply Hhead; simpl;
             [apply removed_subset | reflexivity | apply removed_gone].
        -- apply bool_decide_eq_false_1 in Hin.
           now apply Hhead.
      * destruct (Hstep w) as [Hn Hr]; [done | done |]. split; [exact Hn|].
        intros p' Hp' Hne. apply elem_of_cons in Hp' as [Heq | Hp'].
        -- injection Heq as ->. exfalso.
           unfold truthy_path, truthy_string in Ht.
           destruct (String.eqb_spec p ""); [contradiction | discriminate].
        -- now apply Hr.
    + destruct (Hstep w) as [Hn Hr]; [done | done |]. split; [exact Hn|].
      intros p' Hp' Hne. apply elem_of_cons in Hp' as [Heq | Hp'];
        [discriminate | now apply Hr].
Qed.

Lemma cleanup_result (l : list (option string)) (w : world) :
  cleanup l w = (fst (cleanup_loop l w), Normal tt).
Proof.
  unfold cleanup, try_catch. destruct (cleanup_loop l w) as [w' [[]|e]]; reflexivity.
Qed.

(** C8, counterexample when a removal fails. The first file cannot be
    removed, the error is swallowed, and the second file, which is
    listed and exists, is still there when [cleanup] returns. *)
Lemma cleanup_stops_at_the_first_failure :
  let w := mkWorld {[ "a.mp4"; "b.wav" ]} {[ "a.mp4" ]} [] 0 0 [] in
  let r := cleanup [Some "a.mp4"; Some "b.wav"] w in
  snd r = Normal tt /\ "b.wav" ∈ files w /\ "b.wav" ∈ files (fst r).
Proof.
  cbv zeta. split; [reflexivity|].
  split; apply (bool_decide_unpack _); vm_compute; exact I.
Qed.

(** C8, for the code as written. [cleanup] never raises, for every list of
    paths and every state of the disk: a path that was never created, or is
    already gone, is skipped, and a second call on the same paths completes
    too and changes nothing more. It only removes listed files. When no
    removal fails, none of the listed paths exists after it returns. *)
Theorem cleanup_never_raises (filePaths : list (option string)) (w : world) :
  let w' := fst (cleanup filePaths w) in
  snd (cleanup filePaths w) = Normal tt
  /\ cleanup filePaths w' = (w', Normal tt)
  /\ files w' ⊆ files w
  /\ (forall q, q ∈ files w -> Some q ∉ filePaths -> q ∈ files w')
  /\ ((forall p, Some p ∈ filePaths -> p ∈ files w -> p ∉ locked w) ->
      forall p, Some p ∈ filePaths -> p <> "" -> p ∉ files w').
Proof.
  cbv zeta. rewrite !cleanup_result. cbn [fst snd].
  rewrite cleanup_loop_again.
  split; [reflexivity|]. split; [reflexivity|].
  split; [apply cleanup_loop_subset|].
  split; [intros q; apply cleanup_loop_keeps|].
  intros Hfree. apply cleanup_loop_removes, Hfree.
Qed.

(** Two listed files on a disk where nothing is locked, and a path that was
    never created: both files are gone afterwards. *)
Lemma cleanup_never_raises_witness :
  let w := mkWorld {[ "a.mp4"; "b.wav" ]} ∅ [] 0 0 [] in
  "a.mp4" ∉ files (fst (cleanup [Some "a.mp4"; None; Some "ghost"; Some "b.wav"] w)).
Proof.
  cbv zeta.
  refine (proj2 (proj2 (proj2 (proj2 (cleanup_never_raises _ _)))) _ "a.mp4" _ _).
  - intros p _ _. simpl. apply not_elem_of_empty.
  - apply (bool_decide_unpack _). vm_compute. exact I.
  - discriminate.
Defined.

(** ** Preset resolution *)

Lemma createWithPreset_registered (presetName : string) (s : settings) :
  getCompressionPresets !! presetName = Some s ->
  MediaProcessorFactory_createWithPreset presetName
  = Normal (MediaProcessorFactory_create s)
  /\ MediaProcessor_withPreset presetName = Normal (MediaProcessor_settings s).
Proof.
  intros H. unfold MediaProcessorFactory_createWithPreset,
    MediaProcessor_withPreset, js_get. rewrite H. auto.
Qed.

Lemma createWithPreset_unknown (presetName : string) :
  getCompressionPresets !! presetName = None ->
  presetName ∉ objectPrototype ->
  MediaProcessorFactory_createWithPreset presetName
  = Throw (unknownPreset presetName)
  /\ MediaProcessor_withPreset presetName = Throw (unknownPreset presetName).
Proof.
  intros H Hp. unfold MediaProcessorFactory_createWithPreset,
    MediaProcessor_withPreset, js_get. rewrite H.
  rewrite bool_decide_eq_false_2 by exact Hp. auto.
Qed.

(** Every entry of the registry resolves to its own bundle. *)
Lemma registry_entries (presetName : string) (s : settings) :
  (presetName, s) ∈ presetEntries ->
  MediaProcessorFactory_createWithPreset presetName
  = Normal (MediaProcessorFactory_create s)
  /\ MediaProcessor_withPreset presetName = Normal (MediaProcessor_settings s).
Proof.
  intros H. apply createWithPreset_registered.
  apply elem_of_list_to_map_1; [|exact H].
  apply (bool_decide_unpack _). vm_compute. exact I.
Qed.

(** C9, at the failing input. The name [constructor] is not in the
    registry, and resolving it does not throw: the lookup finds the property
    every object inherits, and the worker starts with the default settings of
    each processor. *)
Theorem inherited_name_resolves_to_defaults :
  getCompressionPresets !! "constructor" = None
  /\ MediaProcessorFactory_createWithPreset "constructor"
     = Normal (MediaProcessorFactory_create no_settings)
  /\ MediaProcessor_withPreset "constructor"
     = Normal (MediaProcessor_settings no_settings)
  /\ crf (videoSettings (MediaProcessorFactory_create no_settings)) = Some 23
  /\ maxHeight (videoSettings (MediaProcessorFactory_create no_settings))
     = Some (Some 1080)
  /\ MediaProcessorFactory_createWithPreset "no-such-preset"
     = Throw (unknownPreset "no-such-preset").
Proof. repeat split; vm_compute; reflexivity. Qed.

(** ** The render pipeline *)

(** When [Promise.all] rejects, [processMedia] rethrows from the state the
    two loops left: the handler sees both locals [null] and cleans nothing. *)
Lemma processMedia_body_rejected
    (loopVideo loopAudio : string -> jsnum -> M string)
    (mergeVideoAudio : string -> string -> option string -> M string)
    (cleanup_ : list (option string) -> M unit)
    (videoPath audioPath : string) (m : jsnum) (out : option string)
    (w w2 : world) (e : string) :
  Promise_all2 (loopVideo videoPath m) (loopAudio audioPath m) w = (w2, Throw e) ->
  processMedia_body loopVideo loopAudio mergeVideoAudio cleanup_
    videoPath audioPath m out w = (w2, Throw e).
Proof.
  intros H. unfold processMedia_body, mbind, M_bind, try_catch. rewrite H.
  reflexivity.
Qed.

(** C3, at the failing input. The video loop succeeds and writes its file,
    the probe of the audio source fails: [processMedia] rejects and the merge
    is never run, but the looped video file is still on disk afterwards. *)
Theorem failed_loop_leaves_the_other_file :
  let orchestrated :=
    MediaOrchestrator_processMedia sample_duration sample_video sample_exit
      sample_uuid sample_dirname "T" sample_processor
      "video.mp4" "broken.wav" (of_Z 1) None empty_world in
  let legacy_ :=
    MediaProcessor_processMedia sample_duration sample_video sample_exit
      sample_uuid "T" "output" "temp"
      (MediaProcessor_settings (youtube 23 "medium" 1080 "128k" "4.2"))
      "video.mp4" "broken.wav" (of_Z 1) None empty_world in
  (snd orchestrated = Throw "ffprobe failed"
   /\ ran_stages (trace (fst orchestrated)) = [VideoLoop]
   /\ "temp/looped_video_a.mp4" ∈ files (fst orchestrated))
  /\ (snd legacy_ = Throw "ffprobe failed"
      /\ ran_stages (trace (fst legacy_)) = [VideoLoop]
      /\ "temp/looped_video_a.mp4" ∈ files (fst legacy_)).
Proof.
  cbv zeta.
  repeat split; try (vm_compute; reflexivity);
    apply (bool_decide_unpack _); vm_compute; exact I.
Qed.

(** ** Operations that leave the disk alone, and operations that cannot throw *)

Lemma preserves_files_bind {A B} (m : M A) (k : A -> M B) :
  preserves_files m -> (forall a, preserves_files (k a)) ->
  preserves_files (m ≫= k).
Proof.
  intros Hm Hk w. unfold mbind, M_bind. specialize (Hm w).
  destruct (m w) as [w' [a|e]]; simpl in *; [|exact Hm].
  now rewrite Hk.
Qed.

Lemma preserves_files_try_catch {A} (m : M A) (h : string -> M A) :
  preserves_files m -> (forall e, preserves_files (h e)) ->
  preserves_files (try_catch m h).
Proof.
  intros Hm Hh w. unfold try_catch. specialize (Hm w).
  destruct (m w) as [w' [a|e]]; simpl in *; [exact Hm|].
  now rewrite Hh.
Qed.

Lemma never_throws_bind {A B} (m : M A) (k : A -> M B) :
  never_throws m -> (forall a, never_throws (k a)) -> never_throws (m ≫= k).
Proof.
  intros Hm Hk w. unfold mbind, M_bind. destruct (Hm w) as [a Ha].
  destruct (m w) as [w' r]. simpl in Ha. subst r. apply Hk.
Qed.

Lemma never_throws_try_catch {A} (m : M A) (h : string -> M A) :
  (forall e, never_throws (h e)) -> never_throws (try_catch m h).
Proof.
  intros Hh w. unfold try_catch. destruct (m w) as [w' [a|e]]; [simpl; eauto|].
  apply Hh.
Qed.

Lemma preserves_files_mret {A} (a : A) : preserves_files (mret a).
Proof. intros w. reflexivity. Qed.

Lemma never_throws_mret {A} (a : A) : never_throws (mret a).
Proof. intros w. simpl. eauto. Qed.

Lemma preserves_files_request {A} db_fault interfere
    (query : list job -> list job * response A) :
  preserves_files (request db_fault interfere query).
Proof.
  intros w. unfold request. destruct (db_fault _); try reflexivity.
  destruct (query _); reflexivity.
Qed.

Create HintDb worker.

#[local] Hint Resolve preserves_files_bind preserves_files_try_catch
  preserves_files_mret preserves_files_request never_throws_bind
  never_throws_try_catch never_throws_mret : worker.

Lemma preserves_files_updateJobStatus db_fault interfere now jobId st extra :
  preserves_files (updateJobStatus db_fault interfere now jobId st extra).
Proof.
  unfold updateJobStatus. apply preserves_files_try_catch; [|auto with worker].
  apply preserves_files_bind; [auto with worker|].
  intros r. destruct (bool_decide _); auto with worker.
Qed.

Lemma never_throws_updateJobStatus db_fault interfere now jobId st extra :
  never_throws (updateJobStatus db_fault interfere now jobId st extra).
Proof. unfold updateJobStatus. auto with worker. Qed.

Lemma preserves_files_getJobById db_fault interfere jobId :
  preserves_files (getJobById db_fault interfere jobId).
Proof.
  unfold getJobById. apply preserves_files_try_catch; [|auto with worker].
  apply preserves_files_bind; [auto with worker|].
  intros r. destruct (bool_decide _); auto with worker.
Qed.

Lemma preserves_files_notify jobId url_ completed :
  preserves_files (notify jobId url_ completed).
Proof. intros w. reflexivity. Qed.

Lemma preserves_files_failJob db_fault interfere now jobId :
  preserves_files (failJob db_fault interfere now jobId).
Proof.
  unfold failJob.
  apply preserves_files_try_catch;
    [|intros e; apply preserves_files_updateJobStatus].
  apply preserves_files_bind; [apply preserves_files_getJobById|]. intros found.
  apply preserves_files_bind; [apply preserves_files_updateJobStatus|]. intros b.
  apply preserves_files_bind; [|auto with worker].
  destruct found as [j|]; [|auto with worker].
  destruct (truthy_string _); [apply preserves_files_notify | auto with worker].
Qed.

Lemma never_throws_failJob db_fault interfere now jobId :
  never_throws (failJob db_fault interfere now jobId).
Proof.
  unfold failJob. apply never_throws_try_catch.
  intros e. apply never_throws_updateJobStatus.
Qed.

(** ** A failed publish *)

(** C6, counterexample. The render succeeds, the upload fails,
    the job is marked failed, and the merged file is still on disk (with the
    two downloads). *)
Lemma failed_publish_leaves_the_artifact :
  let r := sample_renderVideo (fun _ _ => false) in
  snd r = Throw "upload failed"
  /\ map (fun j => (id j, status j)) (db (fst r))
     = [(7, "waiting_render"); (5, "failed"); (2, "rendered")]
  /\ ran_stages (trace (fst r)) = [VideoLoop; AudioLoop; MergeStage]
  /\ "temp/merged_T.mp4" ∈ files (fst r).
Proof.
  cbv zeta.
  repeat split; try (vm_compute; reflexivity);
    apply (bool_decide_unpack _); vm_compute; exact I.
Qed.

Lemma uploadAndCleanup_failed generateKey publicBaseUrl upload_done
    filePath channelId videoId keepLocal w :
  upload_done filePath (generateKey channelId videoId) = false ->
  uploadAndCleanup generateKey publicBaseUrl upload_done filePath channelId
    videoId keepLocal w
  = (log (Uploaded filePath (generateKey channelId videoId)) w,
     Throw "upload failed").
Proof.
  intros H. unfold uploadAndCleanup, uploadFile, try_catch, mbind, M_bind, throw.
  rewrite H. reflexivity.
Qed.

Section FailedPublish.

Variable ffprobe_duration : string -> completion jsnum.
Variable ffprobe_video : string -> completion videoInfo.
Variable ffmpeg_exit : command -> exit.
Variable uuidv4 : nat -> string.
Variable dirname : string -> string.
Variable timestamp : string.
Variable db_fault : nat -> fault.
Variable interfere : nat -> list job -> list job.
Variable generateKey : Z -> Z -> string.
Variable publicBaseUrl : string.
Variable upload_done : string -> string -> bool.
Variable baseDir : string.
Variable isValidUrl : string -> bool.
Variable download_ok : string -> bool.
Variable large_enough : string -> bool.

(** C6, for the code as written. When the render of a job has succeeded and
    the upload of its output fails, [renderVideo] rejects with the upload
    error after [failJob] has run, and no file is removed: the disk still
    holds what the render left, the rendered artifact included. The artifact
    is removed only by a validated upload. *)
Theorem failed_publish_keeps_the_files (processor : orchestrator) (job_ : job)
  (w w1 : world) (videoPath audioPath outputPath : string) :
render_steps ffprobe_duration ffprobe_video ffmpeg_exit uuidv4 dirname
  timestamp baseDir isValidUrl download_ok large_enough processor job_ w
= (w1, Normal (videoPath, audioPath, outputPath)) ->
upload_done outputPath (generateKey (channel_id job_) (id job_)) = false ->
let r :=
  renderVideo ffprobe_duration ffprobe_video ffmpeg_exit uuidv4 dirname
    timestamp db_fault interfere generateKey publicBaseUrl upload_done baseDir
    isValidUrl download_ok large_enough processor job_ w in
snd r = Throw "upload failed"
/\ fst r
   = fst (failJob db_fault interfere timestamp (id job_)
            (log (Uploaded outputPath
                    (generateKey (channel_id job_) (id job_))) w1))
/\ files (fst r) = files w1
/\ (outputPath ∈ files w1 -> outputPath ∈ files (fst r)).
Proof.
intros Hrender Hupload r.
assert (E : r = (fst (failJob db_fault interfere timestamp (id job_)
                        (log (Uploaded outputPath
                                (generateKey (channel_id job_) (id job_))) w1)),
                 Throw "upload failed")).
{ unfold r, renderVideo, try_catch. unfold mbind at 1, M_bind at 1.
  rewrite Hrender. unfold publish_steps. unfold mbind at 1, M_bind at 1.
  rewrite (uploadAndCleanup_failed _ _ _ _ _ _ _ _ Hupload).
  unfold mbind, M_bind.
  destruct (never_throws_failJob db_fault interfere timestamp (id job_)
              (log (Uploaded outputPath
                      (generateKey (channel_id job_) (id job_))) w1))
    as [b Hb].
  destruct (failJob _ _ _ _ _) as [w2 res]. simpl in Hb. subst res.
  reflexivity. }
rewrite E. cbn [fst snd].
assert (F : files (fst (failJob db_fault interfere timestamp (id job_)
                          (log (Uploaded outputPath
                                  (generateKey (channel_id job_) (id job_))) w1)))
            = files w1).
{ rewrite preserves_files_failJob. reflexivity. }
split; [reflexivity|]. split; [reflexivity|]. split; [exact F|].
now rewrite F.
Qed.

End FailedPublish.

(** The sample job: the render succeeds and the upload fails. *)
Lemma failed_publish_keeps_the_files_witness :
  snd (sample_renderVideo (fun _ _ => false)) = Throw "upload failed".
Proof.
  refine (proj1 (failed_publish_keeps_the_files sample_duration sample_video
            sample_exit sample_uuid sample_dirname "T" no_fault quiet
            sample_key "https://b2" (fun _ _ => false) "temp" (fun _ => true)
            (fun _ => true) (fun _ => true) sample_processor
            (sample_job 5 "waiting_render" None) sample_world
            (fst (render_steps sample_duration sample_video sample_exit
                    sample_uuid sample_dirname "T" "temp" (fun _ => true)
                    (fun _ => true) (fun _ => true) sample_processor
                    (sample_job 5 "waiting_render" None) sample_world))
            "temp/a.mp4" "temp/b.wav" "temp/merged_T.mp4" _ _)).
  - vm_compute. reflexivity.
  - reflexivity.
Defined.

(** ** The claim protocol *)

Lemma insert_by_id_first (j : job) (rows : list job) :
  exists first rest,
    insert_by_id j rows = first :: rest
    /\ (first = j \/ exists tl, rows = first :: tl)
    /\ id first <= id j
    /\ (forall k tl, rows = k :: tl -> id first <= id k).
Proof.
  destruct rows as [|k tl]; simpl.
  - exists j, []. repeat split; auto; try lia. intros k tl E. discriminate E.
  - destruct (Z.leb_spec (id j) (id k)).
    + exists j, (k :: tl). repeat split; auto; try lia.
      intros k' tl' E. injection E as <- <-. lia.
    + exists k, (insert_by_id j tl). repeat split; eauto; try lia.
      intros k' tl' E. injection E as <- <-. lia.
Qed.

(** The first row of the ordered list is a row of the list with the lowest
    id. *)
Lemma order_by_id_first (rows : list job) :
  match order_by_id rows with
  | [] => rows = []
  | first :: _ => In first rows /\ forall k, In k rows -> id first <= id k
  end.
Proof.
  induction rows as [|j rows IH]; [reflexivity|].
  cbn [order_by_id fold_right]. fold (order_by_id rows).
  destruct (insert_by_id_first j (order_by_id rows))
    as (first & rest & -> & Hfrom & Hle & Hhd).
  destruct (order_by_id rows) as [|k tl] eqn:E.
  - subst rows. destruct Hfrom as [-> | (tl & Habs)]; [|discriminate Habs].
    split; [now left|]. intros k [<- | []]. lia.
  - destruct IH as [Hin Hmin]. specialize (Hhd k tl eq_refl).
    split.
    + destruct Hfrom as [-> | (tl' & Etl)]; [now left|].
      injection Etl as <- <-. now right.
    + intros k' [<- | Hk']; [exact Hle|].
      specialize (Hmin k' Hk'). lia.
Qed.

Lemma filter_none (f : job -> bool) (rows : list job) :
  (forall k, In k rows -> f k = false) -> List.filter f rows = [].
Proof.
  induction rows as [|k rows IH]; intros H; [reflexivity|]. simpl.
  rewrite (H k (or_introl eq_refl)). apply IH. intros k' Hk'. apply H. now right.
Qed.

(** With ids unique, a filter that only lets one id through returns at most
    the row of that id. *)
Lemma filter_single (f : job -> bool) (rows : list job) (row : job) :
  NoDup (map id rows) -> In row rows -> f row = true ->
  (forall k, In k rows -> f k = true -> id k = id row) ->
  List.filter f rows = [row].
Proof.
  induction rows as [|k rows IH]; intros Hnd Hin Hrow Hid; [destruct Hin|].
  simpl in Hnd. apply NoDup_cons in Hnd as [Hk Hnd].
  assert (Hfresh : forall k', In k' rows -> id k' <> id k).
  { intros k' Hk' E. apply Hk. rewrite <- E.
    apply list_elem_of_In, in_map, Hk'. }
  destruct Hin as [-> | Hin]; simpl.
  - rewrite Hrow. f_equal. apply filter_none. intros k' Hk'.
    destruct (f k') eqn:E; [|reflexivity].
    exfalso. apply (Hfresh k' Hk'). apply Hid; [now right | exact E].
  - destruct (f k) eqn:E.
    + exfalso. apply (Hfresh row Hin). symmetry. apply Hid; [now left | exact E].
    + apply IH; auto. intros k' Hk'. apply Hid. now right.
Qed.

Lemma map_unchanged (f : job -> bool) (change : job -> job) (rows : list job) :
  (forall k, In k rows -> f k = false) ->
  map (fun j => if f j then change j else j) rows = rows.
Proof.
  intros H. rewrite <- (map_id rows) at 2. apply map_ext_in.
  intros k Hk. now rewrite (H k Hk).
Qed.

Lemma bind_run {A B} (m : M A) (k : A -> M B) (w : world) :
  (m ≫= k) w
  = match m w with
    | (w', Normal a) => k a w'
    | (w', Throw e) => (w', Throw e)
    end.
Proof. reflexivity. Qed.

Lemma request_served {A} db_fault interfere
    (query : list job -> list job * response A) (w : world) :
  db_fault (db_calls w) = NoFault ->
  request db_fault interfere query w
  = (set_db (fst (query (interfere (db_calls w) (db w))))
       (next_db_call (set_db (interfere (db_calls w) (db w)) w)),
     Normal (snd (query (interfere (db_calls w) (db w))))).
Proof.
  intros H. unfold request. rewrite H. cbn [db set_db next_db_call].
  now destruct (query _).
Qed.

Lemma request_failed {A} db_fault interfere
    (query : list job -> list job * response A) (w : world) :
  db_fault (db_calls w) <> NoFault ->
  (exists e, snd (request db_fault interfere query w) = Throw e)
  \/ (exists e, snd (request db_fault interfere query w)
                = Normal (mkResponse None (Some e))).
Proof.
  intros H. unfold request. destruct (db_fault (db_calls w)); simpl; eauto.
  contradiction.
Qed.

(** One run of [getAndClaimJob] when the first request is served. *)
Lemma getAndClaimJob_run db_fault interfere now (w : world) :
  let n := db_calls w in
  let at_select := interfere n (db w) in
  let at_write := interfere (S n) at_select in
  let r := getAndClaimJob db_fault interfere now w in
  db_fault n = NoFault ->
  match firstn 1 (order_by_id (List.filter is_candidate at_select)) with
  | [] => snd r = Normal None /\ db (fst r) = at_select
  | selected :: _ =>
      match db_fault (S n) with
      | NoFault =>
          let u := update_rows (id selected) (Some "waiting_render")
                     (set_status "rendering" now (fun j => j)) at_write in
          snd r = Normal (data (snd u)) /\ db (fst r) = fst u
      | _ => snd r = Normal None
      end
  end.
Proof.
  intros n at_select at_write r Hfetch.
  unfold r, getAndClaimJob, try_catch. rewrite bind_run.
  rewrite (request_served _ _ _ _ Hfetch). fold n. fold at_select.
  cbn [select_candidate fst snd error data].
  rewrite bool_decide_eq_false_2 by (intros [x Hx]; discriminate Hx).
  destruct (firstn 1 (order_by_id (List.filter is_candidate at_select)))
    as [|selected rest]; [split; reflexivity|].
  rewrite bind_run.
  destruct (db_fault (S n)) eqn:Hwrite.
  - rewrite request_served by exact Hwrite.
    cbn [db db_calls set_db next_db_call fst snd]. fold n. fold at_write.
    unfold update_rows, single. cbn [fst snd].
    destruct (map _ (List.filter _ at_write)) as [|u [|u' t]];
      split; reflexivity.
  - unfold request. cbn [db db_calls set_db next_db_call]. fold n.
    rewrite Hwrite. reflexivity.
  - unfold request. cbn [db db_calls set_db next_db_call]. fold n.
    rewrite Hwrite. reflexivity.
Qed.

Lemma selected_is_lowest_candidate (rows : list job) :
  match firstn 1 (order_by_id (List.filter is_candidate rows)) with
  | [] => forall j, In j rows -> is_candidate j = false
  | selected :: _ =>
      In selected rows /\ is_candidate selected = true
      /\ forall k, In k rows -> is_candidate k = true -> id selected <= id k
  end.
Proof.
  pose proof (order_by_id_first (List.filter is_candidate rows)) as H.
  destruct (order_by_id (List.filter is_candidate rows)) as [|first rest].
  - intros j Hj. destruct (is_candidate j) eqn:E; [|reflexivity].
    assert (Hin : In j (List.filter is_candidate rows))
      by (apply filter_In; auto).
    rewrite H in Hin. destruct Hin.
  - cbn [firstn]. destruct H as [Hin Hmin]. apply filter_In in Hin as [Hin Hc].
    split; [exact Hin|]. split; [exact Hc|].
    intros k Hk Hkc. apply Hmin, filter_In. auto.
Qed.





(** * Further properties *)

(** ** Combinators for relations between worlds *)

Section Respects.

Variable R : world -> world -> Prop.
Hypothesis R_refl : forall w, R w w.
Hypothesis R_trans : forall a b c, R a b -> R b c -> R a c.

Lemma respects_mret {A} (a : A) : respects R (mret a).
Proof. intros w. apply R_refl. Qed.

Lemma respects_throw {A} (e : string) : respects R (throw (A := A) e).
Proof. intros w. apply R_refl. Qed.

Lemma respects_lift {A} (c : completion A) : respects R (lift c).
Proof. intros w. apply R_refl. Qed.

Lemma respects_bind {A B} (m : M A) (k : A -> M B) :
  respects R m -> (forall a, respects R (k a)) -> respects R (m ≫= k).
Proof.
  intros Hm Hk w. rewrite bind_run. specialize (Hm w).
  destruct (m w) as [w' [a|e]]; simpl in *; [|exact Hm].
  exact (R_trans _ _ _ Hm (Hk a w')).
Qed.

Lemma respects_try_catch {A} (m : M A) (h : string -> M A) :
  respects R m -> (forall e, respects R (h e)) -> respects R (try_catch m h).
Proof.
  intros Hm Hh w. unfold try_catch. specialize (Hm w).
  destruct (m w) as [w' [a|e]]; simpl in *; [exact Hm|].
  exact (R_trans _ _ _ Hm (Hh e w')).
Qed.

Lemma respects_all2 {A B} (p : M A) (q : M B) :
  respects R p -> respects R q -> respects R (Promise_all2 p q).
Proof.
  intros Hp Hq w. unfold Promise_all2. specialize (Hp w).
  destruct (p w) as [w1 r1]. specialize (Hq w1).
  destruct (q w1) as [w2 r2]. simpl in *.
  assert (H : R w w2) by exact (R_trans _ _ _ Hp Hq).
  destruct r1, r2; exact H.
Qed.

End Respects.

Lemma same_db_refl w : same_db w w.
Proof. reflexivity. Qed.

Lemma same_db_trans a b c : same_db a b -> same_db b c -> same_db a c.
Proof. unfold same_db. congruence. Qed.

Lemma settles_refl w : settles w w.
Proof. split; [reflexivity | lia]. Qed.

Lemma untouched_refl w : untouched w w.
Proof. repeat split. Qed.

Lemma untouched_trans a b c : untouched a b -> untouched b c -> untouched a c.
Proof.
  intros (F1 & T1 & U1 & L1) (F2 & T2 & U2 & L2). repeat split; congruence.
Qed.

(** ** The job table under updates *)

Lemma set_status_id st now extra j :
  id (extra j) = id j -> id (set_status st now extra j) = id j.
Proof. intros H. exact H. Qed.

Lemma set_status_not_candidate st now extra j :
  st <> "waiting_render" -> is_candidate (set_status st now extra j) = false.
Proof.
  intros H. unfold is_candidate. cbn [status set_status].
  destruct (String.eqb_spec st "waiting_render"); [contradiction | reflexivity].
Qed.

(** Rewriting rows into rows that are no candidates: the candidates that are
    left are those the rewrite skipped. *)
Lemma waiting_after_update (keeps : job -> bool) (change : job -> job)
    (rows : list job) :
  (forall j, is_candidate (change j) = false) ->
  (waiting (map (fun j => if keeps j then change j else j) rows)
   + length (List.filter (fun j => keeps j && is_candidate j) rows)
   = waiting rows)%nat.
Proof.
  intros Hc. unfold waiting. induction rows as [|j rows IH]; [reflexivity|].
  cbn [map List.filter].
  destruct (keeps j) eqn:Ek; cbn [andb].
  - rewrite Hc. destruct (is_candidate j); cbn [length]; lia.
  - destruct (is_candidate j); cbn [length]; lia.
Qed.

(** With unique ids, the rows of one id are that one row. *)
Lemma filter_by_id (rows : list job) (row : job) :
  NoDup (map id rows) -> In row rows ->
  List.filter (fun j => id j =? id row) rows = [row].
Proof.
  intros Hnd Hin. apply filter_single; auto.
  - apply Z.eqb_refl.
  - intros k _ Hk. now apply Z.eqb_eq in Hk.
Qed.

Lemma filter_by_missing_id (rows : list job) (jobId : Z) :
  (forall k, In k rows -> id k <> jobId) ->
  List.filter (fun j => id j =? jobId) rows = [].
Proof.
  intros H. apply filter_none. intros k Hk. apply Z.eqb_neq, H, Hk.
Qed.

(** ** Requests when no other writer is at the table *)

Lemma set_db_same (w : world) : set_db (db w) w = w.
Proof. now destruct w. Qed.

Lemma request_quiet_run {A} db_fault interfere
    (query : list job -> list job * response A) (w : world) :
  quiet_store interfere ->
  request db_fault interfere query w
  = match db_fault (db_calls w) with
    | NoFault =>
        (set_db (fst (query (db w))) (next_db_call w), Normal (snd (query (db w))))
    | ErrorResponse =>
        (next_db_call w, Normal (mkResponse None (Some "store error")))
    | Throws => (next_db_call w, Throw "TypeError: fetch failed")
    end.
Proof.
  intros Hq. unfold request. rewrite Hq, set_db_same.
  destruct (db_fault (db_calls w)); try reflexivity.
  cbn [db next_db_call]. now destruct (query (db w)).
Qed.

Lemma getJobById_run db_fault interfere (jobId : Z) (w : world) :
  quiet_store interfere ->
  getJobById db_fault interfere jobId w
  = (next_db_call w,
     Normal match db_fault (db_calls w) with
            | NoFault =>
                match List.filter (fun j => id j =? jobId) (db w) with
                | [row] => Some row
                | _ => None
                end
            | _ => None
            end).
Proof.
  intros Hq. unfold getJobById, try_catch. rewrite bind_run.
  rewrite (request_quiet_run _ _ _ _ Hq).
  destruct (db_fault (db_calls w)); try reflexivity.
  unfold select_by_id, single. cbn [fst snd].
  change (set_db (db w) (next_db_call w))
    with (set_db (db (next_db_call w)) (next_db_call w)).
  rewrite set_db_same.
  destruct (List.filter _ (db w)) as [|row [|row' rest]]; reflexivity.
Qed.

Lemma updateJobStatus_run db_fault interfere now (jobId : Z) (st : string)
    (extra : job -> job) (w : world) :
  quiet_store interfere ->
  updateJobStatus db_fault interfere now jobId st extra w
  = match db_fault (db_calls w) with
    | NoFault =>
        (set_db (map (fun j => if id j =? jobId then set_status st now extra j
                               else j) (db w))
           (next_db_call w),
         Normal match List.filter (fun j => id j =? jobId) (db w) with
                | [_] => true
                | _ => false
                end)
    | _ => (next_db_call w, Normal false)
    end.
Proof.
  intros Hq. unfold updateJobStatus, try_catch. rewrite bind_run.
  rewrite (request_quiet_run _ _ _ _ Hq).
  destruct (db_fault (db_calls w)); try reflexivity.
  unfold update_rows, single. cbn [fst snd].
  assert (E : forall rows,
            List.filter (fun j => (id j =? jobId) && true) rows
            = List.filter (fun j => id j =? jobId) rows).
  { intros rows. apply filter_ext. intros j. apply andb_true_r. }
  rewrite E.
  assert (E' : map (fun j => if (id j =? jobId) && true
                             then set_status st now extra j else j) (db w)
               = map (fun j => if id j =? jobId then set_status st now extra j
                               else j) (db w)).
  { apply map_ext. intros j. now rewrite andb_true_r. }
  rewrite E'.
  destruct (List.filter _ (db w)) as [|row [|row' rest]]; reflexivity.
Qed.

(** ** Status updates and lookups *)



(** ** Completing and failing a job *)

(** X2. [completeJob] on a job that is in the table, with the store serving
    both requests: the answer is [true], that row alone becomes [rendered]
    and carries the output URL, and the workflow is notified exactly when the
    row has a callback URL.  For an id that is not in the table the answer
    is [false] after one request, with nothing written and nothing notified;
    when the status write fails the answer is [false] and nothing is
    notified either. *)
Theorem completeJob_marks_rendered db_fault interfere now (jobId : Z)
    (outputUrl : string) (w : world) :
  quiet_store interfere ->
  NoDup (map id (db w)) ->
  let n := db_calls w in
  let r := completeJob db_fault interfere now jobId outputUrl w in
  let done := set_status "rendered" now (set_final_video_url outputUrl) in
  ((forall k, In k (db w) -> id k <> jobId) ->
   snd r = Normal false /\ db (fst r) = db w /\ trace (fst r) = trace w
   /\ db_calls (fst r) = S n)
  /\ (forall row, In row (db w) -> id row = jobId -> db_fault n = NoFault ->
      (db_fault (S n) = NoFault ->
       snd r = Normal true
       /\ db (fst r) = map (fun k => if id k =? jobId then done k else k) (db w)
       /\ status (done row) = "rendered"
       /\ final_video_url (done row) = Some outputUrl
       /\ trace (fst r)
          = trace w
            ++ (if truthy_string (waiting_node_url row)
                then [Notified jobId (default "" (waiting_node_url row)) true]
                else []))
      /\ (db_fault (S n) <> NoFault ->
          snd r = Normal false /\ db (fst r) = db w
          /\ trace (fst r) = trace w)).
Proof.
  intros Hq Hnd n r done. unfold r, completeJob, try_catch.
  rewrite bind_run, (getJobById_run _ _ _ _ Hq). fold n.
  split.
  - intros Hmiss.
    assert (E : match db_fault n with
                | NoFault =>
                    match List.filter (fun j => id j =? jobId) (db w) with
                    | [row] => Some row
                    | _ => None
                    end
                | _ => None
                end = None).
    { rewrite (filter_by_missing_id _ _ Hmiss). now destruct (db_fault n). }
    rewrite E. repeat split.
  - intros row Hrow <- Hf. rewrite Hf, (filter_by_id _ _ Hnd Hrow).
    rewrite bind_run, (updateJobStatus_run _ _ _ _ _ _ _ Hq).
    cbn [db_calls next_db_call db]. fold n.
    split.
    + intros Hf'. rewrite Hf', (filter_by_id _ _ Hnd Hrow). cbn [negb].
      destruct (truthy_string (waiting_node_url row));
        cbn; rewrite ?app_nil_r; repeat split.
    + intros Hf'. destruct (db_fault (S n)); [contradiction | |]; cbn;
        repeat split.
Qed.

(** Job 5 of the sample table is completed. *)
Lemma completeJob_marks_rendered_witness :
  snd (completeJob no_fault quiet "2024-03-01" 5 "https://b2/out.mp4" sample_world)
  = Normal true.
Proof.
  refine (proj1 (proj1 (proj2 (completeJob_marks_rendered no_fault quiet
            "2024-03-01" 5 "https://b2/out.mp4" sample_world _ _)
            (sample_job 5 "waiting_render" None) _ eq_refl eq_refl) eq_refl)).
  - intros n rows. reflexivity.
  - apply (bool_decide_unpack _). vm_compute. exact I.
  - simpl. auto.
Defined.



(** ** Polls when no other writer is at the table *)

Lemma getAndClaimJob_quiet_run db_fault interfere now (w : world) :
  quiet_store interfere ->
  let n := db_calls w in
  let claimed := set_status "rendering" now (fun j => j) in
  getAndClaimJob db_fault interfere now w
  = match db_fault n with
    | NoFault =>
        match firstn 1 (order_by_id (List.filter is_candidate (db w))) with
        | [] => (next_db_call w, Normal None)
        | selected :: _ =>
            let keeps (j : job) :=
              (id j =? id selected) && String.eqb (status j) "waiting_render" in
            match db_fault (S n) with
            | NoFault =>
                (set_db (map (fun j => if keeps j then claimed j else j) (db w))
                   (next_db_call (next_db_call w)),
                 Normal match map claimed (List.filter keeps (db w)) with
                        | [u] => Some u
                        | _ => None
                        end)
            | _ => (next_db_call (next_db_call w), Normal None)
            end
        end
    | _ => (next_db_call w, Normal None)
    end.
Proof.
  intros Hq n claimed. unfold getAndClaimJob, try_catch.
  rewrite bind_run, (request_quiet_run _ _ _ _ Hq). fold n.
  destruct (db_fault n); try reflexivity.
  unfold select_candidate. cbn [fst snd error data].
  change (set_db (db w) (next_db_call w))
    with (set_db (db (next_db_call w)) (next_db_call w)).
  rewrite set_db_same.
  destruct (firstn 1 (order_by_id (List.filter is_candidate (db w))))
    as [|selected rest]; [reflexivity|].
  cbn beta iota.
  rewrite bool_decide_eq_false_2 by (intros [x Hx]; discriminate Hx).
  rewrite bind_run, (request_quiet_run _ _ _ _ Hq).
  cbn [db_calls next_db_call db]. fold n.
  destruct (db_fault (S n)); try reflexivity.
  unfold update_rows, single. cbn [fst snd]. fold claimed.
  destruct (map claimed (List.filter _ (db w))) as [|u [|u' t]]; reflexivity.
Qed.

(** What a poll does to the table when no other writer is there: a poll
    that returns a job has turned one candidate into a row in progress. *)
Lemma getAndClaimJob_settles db_fault interfere now (w : world) :
  quiet_store interfere ->
  settles w (fst (getAndClaimJob db_fault interfere now w))
  /\ (forall j, snd (getAndClaimJob db_fault interfere now w) = Normal (Some j) ->
      (waiting (db (fst (getAndClaimJob db_fault interfere now w)))
       < waiting (db w))%nat)
  /\ exists outcome, snd (getAndClaimJob db_fault interfere now w) = Normal outcome.
Proof.
  intros Hq. rewrite (getAndClaimJob_quiet_run _ _ _ _ Hq). cbv zeta.
  pose proof (selected_is_lowest_candidate (db w)) as Hsel.
  destruct (db_fault (db_calls w));
    [| cbn; split; [exact (settles_refl w) | split; [discriminate | eauto]] ..].
  destruct (firstn 1 (order_by_id (List.filter is_candidate (db w))))
    as [|selected rest];
    [cbn; split; [exact (settles_refl w) | split; [discriminate | eauto]]|].
  destruct Hsel as (Hin & Hcand & _).
  destruct (db_fault (S (db_calls w)));
    [| cbn; split; [exact (settles_refl w) | split; [discriminate | eauto]] ..].
  cbn [fst snd db set_db].
  pose proof (waiting_after_update
                (fun j => (id j =? id selected)
                          && String.eqb (status j) "waiting_render")
                (set_status "rendering" now (fun j => j)) (db w)
                (fun j => set_status_not_candidate "rendering" now (fun j => j) j
                            ltac:(discriminate))) as Hcount.
  cbv beta in Hcount.
  assert (Hone : (1 <= length (List.filter
                     (fun j => (id j =? id selected)%Z
                               && String.eqb (status j) "waiting_render"
                               && is_candidate j) (db w)))%nat).
  { assert (Hmem : In selected (List.filter
                     (fun j => (id j =? id selected)
                               && String.eqb (status j) "waiting_render"
                               && is_candidate j) (db w))).
    { apply filter_In. split; [exact Hin|].
      rewrite Z.eqb_refl, Hcand. cbn [andb].
      unfold is_candidate in Hcand. apply andb_true_iff in Hcand as [Hst _].
      now rewrite Hst. }
    destruct (List.filter _ (db w)); [destruct Hmem | cbn; lia]. }
  split; [|split; [intros j _; lia | eauto]].
  unfold settles. cbn [db set_db]. split; [|lia].
  rewrite map_map. apply map_ext. intros j. now destruct (_ && _).
Qed.

(** X4. With unique ids and no other writer, two polls in a row never hand
    out the same job: the second job has a higher id than the first, and the
    first is in the table as [rendering]. *)
Theorem polls_hand_out_ascending_ids db_fault interfere now (w w1 w2 : world)
    (first second : job) :
  quiet_store interfere ->
  NoDup (map id (db w)) ->
  getAndClaimJob db_fault interfere now w = (w1, Normal (Some first)) ->
  getAndClaimJob db_fault interfere now w1 = (w2, Normal (Some second)) ->
  id first < id second
  /\ status first = "rendering"
  /\ In first (db w1)
  /\ status second = "rendering".
Proof.
  intros Hq Hnd H1 H2.
  assert (Hpoll : forall (u u' : world) (j : job),
            NoDup (map id (db u)) ->
            getAndClaimJob db_fault interfere now u = (u', Normal (Some j)) ->
            exists row,
              In row (db u) /\ is_candidate row = true
              /\ (forall k, In k (db u) -> is_candidate k = true -> id row <= id k)
              /\ j = set_status "rendering" now (fun j => j) row
              /\ db u'
                 = map (fun k => if id k =? id row
                                 then set_status "rendering" now (fun j => j) k
                                 else k) (db u)).
  { intros u u' j Hu Hrun.
    rewrite (getAndClaimJob_quiet_run _ _ _ _ Hq) in Hrun. cbv zeta in Hrun.
    pose proof (selected_is_lowest_candidate (db u)) as Hsel.
    destruct (db_fault (db_calls u)); try discriminate Hrun.
    destruct (firstn 1 (order_by_id (List.filter is_candidate (db u))))
      as [|selected rest]; [discriminate Hrun|].
    destruct Hsel as (Hin & Hcand & Hmin).
    destruct (db_fault (S (db_calls u))); try discriminate Hrun.
    assert (Hst : String.eqb (status selected) "waiting_render" = true).
    { unfold is_candidate in Hcand. now apply andb_true_iff in Hcand as [Hst _]. }
    rewrite (filter_single _ (db u) selected Hu Hin) in Hrun.
    - cbn [map] in Hrun. injection Hrun as <- <-.
      exists selected. repeat split; auto.
      cbn [db set_db]. apply map_ext_in. intros k Hk.
      destruct (Z.eqb_spec (id k) (id selected)) as [E|]; [|reflexivity].
      cbn [andb].
      assert (k = selected) as ->; [|now rewrite Hst].
      assert (Hk1 : List.filter (fun j => id j =? id selected) (db u) = [selected])
        by (apply filter_by_id; assumption).
      assert (Hk2 : In k (List.filter (fun j => id j =? id selected) (db u)))
        by (apply filter_In; split; [exact Hk | now apply Z.eqb_eq]).
      rewrite Hk1 in Hk2. destruct Hk2 as [<- | []]. reflexivity.
    - now rewrite Z.eqb_refl, Hst.
    - intros k _ Hk. apply andb_true_iff in Hk as [Hk _]. now apply Z.eqb_eq in Hk. }
  destruct (Hpoll w w1 first Hnd H1) as (r1 & Hin1 & Hc1 & Hmin1 & -> & Hdb1).
  assert (Hnd1 : NoDup (map id (db w1))).
  { rewrite Hdb1, map_map.
    erewrite map_ext; [exact Hnd|]. intros k. now destruct (id k =? id r1). }
  destruct (Hpoll w1 w2 second Hnd1 H2) as (r2 & Hin2 & Hc2 & _ & -> & _).
  cbn [id status set_status].
  assert (Hfirst : In (set_status "rendering" now (fun j => j) r1) (db w1)).
  { rewrite Hdb1. apply in_map_iff. exists r1. now rewrite Z.eqb_refl. }
  split; [|auto].
  rewrite Hdb1 in Hin2. apply in_map_iff in Hin2 as (k & Hk & Hkin).
  destruct (Z.eqb_spec (id k) (id r1)) as [E | Hne].
  - subst r2. rewrite set_status_not_candidate in Hc2 by discriminate.
    discriminate Hc2.
  - subst r2. specialize (Hmin1 k Hkin Hc2). lia.
Qed.

(** On the sample table the first poll hands out job 5 and the second job
    7. *)
Lemma polls_hand_out_ascending_ids_witness :
  let first := set_status "rendering" "2024-03-01" (fun j => j)
                 (sample_job 5 "waiting_render" None) in
  let second := set_status "rendering" "2024-03-01" (fun j => j)
                  (sample_job 7 "waiting_render" None) in
  id first < id second /\ status first = "rendering".
Proof.
  cbv zeta.
  pose proof (polls_hand_out_ascending_ids no_fault quiet "2024-03-01"
                sample_world
                (fst (getAndClaimJob no_fault quiet "2024-03-01" sample_world))
                (fst (getAndClaimJob no_fault quiet "2024-03-01"
                        (fst (getAndClaimJob no_fault quiet "2024-03-01"
                                sample_world))))
                (set_status "rendering" "2024-03-01" (fun j => j)
                   (sample_job 5 "waiting_render" None))
                (set_status "rendering" "2024-03-01" (fun j => j)
                   (sample_job 7 "waiting_render" None))) as H.
  destruct H as (Hlt & Hst & _).
  - intros n rows. reflexivity.
  - apply (bool_decide_unpack _). vm_compute. exact I.
  - vm_compute. reflexivity.
  - vm_compute. reflexivity.
  - split; [exact Hlt | exact Hst].
Defined.

(** ** Ordered queries *)

Lemma insert_by_id_perm (j : job) (rows : list job) :
  Permutation (insert_by_id j rows) (j :: rows).
Proof.
  induction rows as [|k rows IH]; [reflexivity|]. simpl.
  destruct (id j <=? id k); [reflexivity|].
  rewrite IH. apply perm_swap.
Qed.

Lemma order_by_id_perm (rows : list job) : Permutation (order_by_id rows) rows.
Proof.
  induction rows as [|j rows IH]; [reflexivity|].
  cbn [order_by_id fold_right]. fold (order_by_id rows).
  rewrite insert_by_id_perm. now constructor.
Qed.

Lemma insert_by_id_sorted (j : job) (rows : list job) :
  StronglySorted (fun a b => id a <= id b) rows ->
  StronglySorted (fun a b => id a <= id b) (insert_by_id j rows).
Proof.
  induction rows as [|k rows IH]; intros Hs; simpl.
  - repeat constructor.
  - apply StronglySorted_inv in Hs as [Hs Hk].
    destruct (Z.leb_spec (id j) (id k)).
    + constructor; [now constructor|].
      constructor; [assumption|].
      eapply Forall_impl; [exact Hk|]. intros a Ha. simpl in Ha. lia.
    + constructor; [now apply IH|].
      apply Forall_forall. intros a Ha.
      apply list_elem_of_In in Ha.
      apply (Permutation_in _ (insert_by_id_perm j rows)) in Ha.
      destruct Ha as [<- | Ha]; [lia|].
      rewrite Forall_forall in Hk. apply Hk, list_elem_of_In, Ha.
Qed.

Lemma order_by_id_sorted (rows : list job) :
  StronglySorted (fun a b => id a <= id b) (order_by_id rows).
Proof.
  induction rows as [|j rows IH]; [constructor|].
  cbn [order_by_id fold_right]. now apply insert_by_id_sorted.
Qed.

Lemma sorted_take_drop (l : list job) (limit : nat) :
  StronglySorted (fun a b => id a <= id b) l ->
  StronglySorted (fun a b => id a <= id b) (firstn limit l)
  /\ forall a b, In a (firstn limit l) -> In b (skipn limit l) -> id a <= id b.
Proof.
  revert limit. induction l as [|x l IH]; intros limit Hs.
  - rewrite firstn_nil. split; [constructor | intros a b []].
  - destruct limit as [|limit]; [split; [constructor | intros a b []]|].
    apply StronglySorted_inv in Hs as [Hs Hx].
    destruct (IH limit Hs) as [Hsorted Hle].
    cbn [firstn skipn]. split.
    + constructor; [exact Hsorted|].
      rewrite Forall_forall in Hx |- *. intros a Ha. apply Hx.
      apply list_elem_of_In. apply list_elem_of_In in Ha.
      rewrite <- (firstn_skipn limit l). apply in_or_app. now left.
    + intros a b [<- | Ha] Hb; [|now apply Hle].
      rewrite Forall_forall in Hx. apply Hx, list_elem_of_In.
      rewrite <- (firstn_skipn limit l). apply in_or_app. now right.
Qed.

(** X5. [getJobsByStatus] never throws and never writes.  When the store
    fails it answers the empty list.  Otherwise it answers rows of the asked
    status, in ascending order of id, [limit] of them or all when there are
    fewer, and every row of that status it leaves out has an id at least as
    high as each row it returns. *)
Theorem getJobsByStatus_lowest_first db_fault interfere (st : string)
    (limit : nat) (w : world) :
  let n := db_calls w in
  let rows := interfere n (db w) in
  let matching := List.filter (fun j => String.eqb (status j) st) rows in
  let r := getJobsByStatus db_fault interfere st limit w in
  exists jobs,
    snd r = Normal jobs
    /\ db (fst r) = rows
    /\ (db_fault n <> NoFault -> jobs = [])
    /\ (db_fault n = NoFault ->
        StronglySorted (fun a b => id a <= id b) jobs
        /\ length jobs = Nat.min limit (length matching)
        /\ (forall j, In j jobs -> In j rows /\ status j = st)
        /\ exists rest,
             Permutation (jobs ++ rest) matching
             /\ forall a b, In a jobs -> In b rest -> id a <= id b).
Proof.
  intros n rows matching r. unfold r, getJobsByStatus, try_catch.
  rewrite bind_run. unfold request. fold n. fold rows.
  destruct (db_fault n) eqn:Hf.
  - unfold select_by_status. cbn [fst snd error data db set_db next_db_call].
    rewrite bool_decide_eq_false_2 by (intros [x Hx]; discriminate Hx).
    fold matching. cbn [default].
    exists (firstn limit (order_by_id matching)).
    split; [reflexivity|]. split; [reflexivity|]. split; [congruence|].
    intros _.
    destruct (sorted_take_drop (order_by_id matching) limit
                (order_by_id_sorted matching)) as [Hs Hle].
    split; [exact Hs|].
    split.
    { rewrite length_firstn, (Permutation_length (order_by_id_perm matching)).
      reflexivity. }
    split.
    { intros j Hj.
      assert (Hm : In j matching).
      { apply (Permutation_in _ (order_by_id_perm matching)).
        rewrite <- (firstn_skipn limit (order_by_id matching)).
        apply in_or_app. now left. }
      apply filter_In in Hm as [Hin Hst]. split; [exact Hin|].
      now apply String.eqb_eq. }
    exists (skipn limit (order_by_id matching)). split; [|exact Hle].
    rewrite firstn_skipn. apply order_by_id_perm.
  - exists []. cbn. split; [reflexivity|]. split; [reflexivity|].
    split; [reflexivity | discriminate].
  - exists []. cbn. split; [reflexivity|]. split; [reflexivity|].
    split; [reflexivity | discriminate].
Qed.

(** The sample table holds two waiting jobs; asked for one, the query
    answers one. *)
Lemma getJobsByStatus_lowest_first_witness :
  exists jobs,
    snd (getJobsByStatus no_fault quiet "waiting_render" 1 sample_world)
    = Normal jobs
    /\ length jobs = 1%nat.
Proof.
  destruct (getJobsByStatus_lowest_first no_fault quiet "waiting_render" 1
              sample_world) as (jobs & Hres & _ & _ & Hserved).
  destruct (Hserved eq_refl) as (_ & Hlen & _).
  exists jobs. split; [exact Hres | exact Hlen].
Defined.

(** ** The cleanup of the downloader *)

Lemma base_cleanup_cons (filePath : option string) (rest : list (option string))
    (w : world) :
  base_cleanup (filePath :: rest) w
  = base_cleanup rest
      match filePath with
      | Some p =>
          if truthy_path filePath && bool_decide (p ∈ files w)
             && negb (bool_decide (p ∈ locked w))
          then set_files (files w ∖ {[p]}) w
          else w
      | None => w
      end.
Proof.
  cbn [base_cleanup]. rewrite bind_run. unfold try_catch.
  destruct filePath as [p|]; [|reflexivity].
  destruct (truthy_path (Some p)); [|reflexivity].
  rewrite bind_run. unfold pathExists, remove.
  destruct (bool_decide (p ∈ files w)) eqn:Hin; cbn [andb]; [|reflexivity].
  rewrite Hin. cbn [andb].
  destruct (bool_decide (p ∈ locked w)); reflexivity.
Qed.

Lemma base_cleanup_step (filePath : option string) (w : world) :
  let w1 := match filePath with
            | Some p =>
                if truthy_path filePath && bool_decide (p ∈ files w)
                   && negb (bool_decide (p ∈ locked w))
                then set_files (files w ∖ {[p]}) w
                else w
            | None => w
            end in
  locked w1 = locked w /\ db w1 = db w /\ trace w1 = trace w
  /\ uuids w1 = uuids w
  /\ forall q, q ∈ files w1 <->
        q ∈ files w /\ ~ (Some q = filePath /\ q <> "" /\ q ∉ locked w).
Proof.
  cbv zeta. destruct filePath as [p|].
  - unfold truthy_path, truthy_string.
    destruct (String.eqb_spec p "") as [-> | Hne]; cbn [negb andb].
    { do 4 (split; [reflexivity|]). intros q. split; [|tauto].
      intros Hq. split; [exact Hq|]. intros (E & Hn & _).
      injection E as ->. now apply Hn. }
    destruct (bool_decide (p ∈ files w)) eqn:Hin; cbn [andb].
    + destruct (bool_decide (p ∈ locked w)) eqn:Hlock; cbn [negb].
      * apply bool_decide_eq_true_1 in Hlock.
        do 4 (split; [reflexivity|]). intros q. split; [|tauto].
        intros Hq. split; [exact Hq|]. intros (E & _ & Hfree).
        injection E as ->. contradiction.
      * apply bool_decide_eq_false_1 in Hlock.
        cbn [files locked db trace uuids set_files].
        do 4 (split; [reflexivity|]). intros q. split.
        -- intros Hq. split; [exact (removed_subset _ _ _ Hq)|].
           intros (E & _). injection E as ->.
           exact (removed_gone _ _ Hq).
        -- intros [Hq Hno]. apply elem_of_difference. split; [exact Hq|].
           rewrite elem_of_singleton. intros ->. apply Hno. auto.
    + apply bool_decide_eq_false_1 in Hin.
      do 4 (split; [reflexivity|]). intros q. split; [|tauto].
      intros Hq. split; [exact Hq|]. intros (E & _). injection E as ->.
      contradiction.
  - do 4 (split; [reflexivity|]). intros q. split; [|tauto].
    intros Hq. split; [exact Hq|]. intros (E & _). discriminate E.
Qed.

Lemma base_cleanup_world (l : list (option string)) (w : world) :
  snd (base_cleanup l w) = Normal tt
  /\ locked (fst (base_cleanup l w)) = locked w
  /\ db (fst (base_cleanup l w)) = db w
  /\ trace (fst (base_cleanup l w)) = trace w
  /\ uuids (fst (base_cleanup l w)) = uuids w
  /\ forall q, q ∈ files (fst (base_cleanup l w)) <->
       q ∈ files w
       /\ ~ (Some q ∈ l /\ q <> "" /\ q ∉ locked w).
Proof.
  revert w. induction l as [|filePath rest IH]; intros w.
  - do 5 (split; [reflexivity|]). intros q. split; [|tauto].
    intros Hq. split; [exact Hq|]. intros (Habs & _).
    now apply elem_of_nil in Habs.
  - rewrite base_cleanup_cons.
    pose proof (base_cleanup_step filePath w) as Hw1. cbv zeta in Hw1.
    set (w1 := match filePath with Some p => _ | None => w end) in *.
    destruct (IH w1) as (Hn & Hl & Hd & Ht & Hu & Hf).
    destruct Hw1 as (Hl1 & Hd1 & Ht1 & Hu1 & Hf1).
    split; [exact Hn|]. split; [congruence|]. split; [congruence|].
    split; [congruence|]. split; [congruence|].
    intros q. rewrite Hf, Hf1, Hl1. rewrite elem_of_cons.
    split.
    + intros [[Hq H1] H2]. split; [exact Hq|].
      intros ([E | Hin] & Hne & Hfree); [apply H1 | apply H2]; auto.
    + intros [Hq H]. split; [split; [exact Hq|]|].
      * intros (E & Hne & Hfree). apply H. auto.
      * intros (Hin & Hne & Hfree). apply H. auto.
Qed.

(** X6. The [cleanup] of the downloader's base class never throws and goes
    through the whole list: after it, a listed path with a name is on disk
    only if its removal failed, whatever happened to the paths before it,
    and every file that is not listed is still there. *)
Theorem base_cleanup_goes_on (filePaths : list (option string)) (w : world) :
  let w' := fst (base_cleanup filePaths w) in
  snd (base_cleanup filePaths w) = Normal tt
  /\ (forall p, Some p ∈ filePaths -> p <> "" -> p ∉ locked w -> p ∉ files w')
  /\ (forall p, Some p ∈ filePaths -> p ∈ files w -> p ∈ locked w -> p ∈ files w')
  /\ (forall q, q ∈ files w -> Some q ∉ filePaths -> q ∈ files w')
  /\ files w' ⊆ files w.
Proof.
  cbv zeta. destruct (base_cleanup_world filePaths w) as (Hn & _ & _ & _ & _ & Hf).
  split; [exact Hn|].
  split; [intros p Hp Hne Hfree Hin; apply Hf in Hin as [_ H]; apply H; auto|].
  split; [intros p Hp Hin Hlock; apply Hf; split; [exact Hin|]; tauto|].
  split; [intros q Hq Hno; apply Hf; split; [exact Hq|]; tauto|].
  intros q Hq. now apply Hf in Hq.
Qed.

(** The first file cannot be removed; the second one is removed all the
    same. *)
Lemma base_cleanup_goes_on_witness :
  let w := mkWorld {[ "a.mp4"; "b.wav" ]} {[ "a.mp4" ]} [] 0 0 [] in
  "b.wav" ∉ files (fst (base_cleanup [Some "a.mp4"; Some "b.wav"] w)).
Proof.
  cbv zeta.
  refine (proj1 (proj2 (base_cleanup_goes_on _ _)) "b.wav" _ _ _).
  - apply (bool_decide_unpack _). vm_compute. exact I.
  - discriminate.
  - apply (bool_decide_unpack _). vm_compute. exact I.
Defined.

(** ** The merge step of the pipeline *)

Lemma default_path_run (outputPath : option string) (generated : string)
    (w : world) :
  default_path outputPath (mret generated) w
  = (w, Normal match outputPath with
               | Some p => if String.eqb p "" then generated else p
               | None => generated
               end).
Proof.
  unfold default_path. destruct outputPath as [p|]; [|reflexivity].
  destruct (String.eqb p ""); reflexivity.
Qed.

Lemma cleanup_pair_removes (v a : string) (w : world) :
  v <> "" -> a <> "" -> v ∉ locked w -> a ∉ locked w ->
  let w' := fst (cleanup_loop [Some v; Some a] w) in
  (v ∉ files w') /\ (a ∉ files w') /\ files w' ⊆ files w
  /\ trace w' = trace w
  /\ forall q, q ∈ files w -> q <> v -> q <> a -> q ∈ files w'.
Proof.
  intros Hv Ha Hfv Hfa. cbv zeta.
  destruct (cleanup_loop_removes [Some v; Some a] w) as [_ Hgone].
  { intros p Hp _. apply elem_of_cons in Hp as [E | Hp]; [now injection E as ->|].
    apply elem_of_cons in Hp as [E | Hp]; [now injection E as ->|].
    now apply elem_of_nil in Hp. }
  split; [apply Hgone; [now left | exact Hv]|].
  split; [apply Hgone; [right; now left | exact Ha]|].
  split; [apply cleanup_loop_subset|].
  split.
  - destruct (cleanup_loop_world [Some v; Some a] w) as (F & -> & _).
    reflexivity.
  - intros q Hq Hqv Hqa. apply cleanup_loop_keeps; [exact Hq|].
    intros Hin. apply elem_of_cons in Hin as [E | Hin]; [congruence|].
    apply elem_of_cons in Hin as [E | Hin]; [congruence|].
    now apply elem_of_nil in Hin.
Qed.

(** What [processMedia] does once [Promise.all] has resolved. *)
Lemma processMedia_merge_run
    (ffprobe_duration : string -> completion jsnum)
    (ffprobe_video : string -> completion videoInfo)
    (ffmpeg_exit : command -> exit) (uuidv4 : nat -> string)
    (dirname : string -> string) (timestamp : string)
    (o : orchestrator) (videoPath audioPath : string)
    (durationMinutes : jsnum) (outputPath : option string)
    (w w1 : world) (v a : string) :
  Promise_all2
    (VideoProcessor_loopVideo ffprobe_duration ffprobe_video ffmpeg_exit
       uuidv4 dirname (videoSettings o) videoPath durationMinutes None)
    (AudioProcessor_loopAudio ffprobe_duration ffmpeg_exit uuidv4 dirname
       (audioSettings o) audioPath durationMinutes None) w
  = (w1, Normal (v, a)) ->
  v <> "" -> a <> "" ->
  let generated := path_join (dirname v) ("merged_" +:+ timestamp +:+ ".mp4") in
  let out := match outputPath with
             | Some p => if String.eqb p "" then generated else p
             | None => generated
             end in
  let cmd := MediaMerger_merge_command (mergerSettings o) v a out in
  let w2 := log (Ran MergeStage cmd) w1 in
  MediaOrchestrator_processMedia ffprobe_duration ffprobe_video
    ffmpeg_exit uuidv4 dirname timestamp o videoPath audioPath
    durationMinutes outputPath w
  = match ffmpeg_exit cmd with
    | End =>
        (fst (cleanup_loop [Some v; Some a]
                (set_files ({[out]} ∪ files w2) w2)),
         Normal out)
    | Error partial =>
        (fst (cleanup_loop [Some v; Some a]
                (if partial then set_files ({[out]} ∪ files w2) w2 else w2)),
         Throw "ffmpeg exited with an error")
    end.
Proof.
  intros Hall Hv Ha generated out cmd w2.
  unfold MediaOrchestrator_processMedia, processMedia_body.
  rewrite bind_run. unfold try_catch at 1. rewrite Hall.
  unfold try_catch at 1. rewrite bind_run.
  unfold MediaMerger_mergeVideoAudio, try_catch at 1. rewrite bind_run.
  rewrite default_path_run. fold generated out cmd.
  unfold run. fold w2. assert (Hout : output cmd = out) by reflexivity.
  rewrite Hout.
  destruct (ffmpeg_exit cmd) as [|partial].
  - rewrite bind_run, cleanup_result. reflexivity.
  - unfold throw at 1. unfold processMedia_catch.
    assert (Htv : truthy_path (Some v) = true).
    { unfold truthy_path, truthy_string.
      destruct (String.eqb_spec v ""); [contradiction | reflexivity]. }
    assert (Hta : truthy_path (Some a) = true).
    { unfold truthy_path, truthy_string.
      destruct (String.eqb_spec a ""); [contradiction | reflexivity]. }
    rewrite Htv. cbn [orb]. unfold filter_Boolean. cbn [List.filter].
    rewrite Htv, Hta. rewrite bind_run, cleanup_result. reflexivity.
Qed.



(** ** The uploader *)

Lemma public_url_not_empty (base key_ : string) :
  String.eqb (base +:+ "/" +:+ key_) "" = false.
Proof. destruct base; reflexivity. Qed.

Lemma cleanupLocalFile_run (filePath : string) (w : world) :
  cleanupLocalFile filePath w
  = ((if bool_decide (filePath ∈ files w) && negb (bool_decide (filePath ∈ locked w))
      then set_files (files w ∖ {[filePath]}) w else w),
     Normal tt).
Proof.
  unfold cleanupLocalFile, try_catch. rewrite bind_run. unfold pathExists, remove.
  destruct (bool_decide (filePath ∈ files w)) eqn:Hin; cbn [andb]; [|reflexivity].
  rewrite Hin. cbn [andb].
  destruct (bool_decide (filePath ∈ locked w)); reflexivity.
Qed.

Lemma uploadAndCleanup_run generateKey publicBaseUrl upload_done
    filePath channelId videoId keepLocal (w : world) :
  let key_ := generateKey channelId videoId in
  let w1 := log (Uploaded filePath key_) w in
  uploadAndCleanup generateKey publicBaseUrl upload_done filePath channelId
    videoId keepLocal w
  = if upload_done filePath key_ then
      if String.eqb key_ "" then (w1, Throw "Upload validation failed")
      else
        ((if negb keepLocal && bool_decide (filePath ∈ files w)
             && negb (bool_decide (filePath ∈ locked w))
          then set_files (files w ∖ {[filePath]}) w1 else w1),
         Normal (mkUploadResult true (publicBaseUrl +:+ "/" +:+ key_) key_))
    else (w1, Throw "upload failed").
Proof.
  cbv zeta. unfold uploadAndCleanup, uploadFile.
  unfold try_catch at 1. rewrite bind_run. unfold try_catch at 1.
  destruct (upload_done _ _); [|reflexivity].
  unfold validateUpload. cbn [success url key andb].
  rewrite public_url_not_empty. cbn [negb andb].
  destruct (String.eqb (generateKey channelId videoId) ""); [reflexivity|].
  cbn [negb]. rewrite bind_run.
  destruct keepLocal; cbn [negb andb]; [reflexivity|].
  rewrite cleanupLocalFile_run. cbn [files locked log].
  destruct (bool_decide (filePath ∈ files w) && negb (bool_decide (filePath ∈ locked w)));
    reflexivity.
Qed.

(** X8. [uploadAndCleanup] asks the object store exactly once. It returns
    the result of a completed upload, with the URL made of the public base,
    a slash and the key, and then the local file is gone unless the caller
    keeps it or its removal fails, an error that is swallowed. A failed
    upload, and a completed upload whose key is the empty string, both
    throw and leave every local file in place. *)
Theorem uploadAndCleanup_outcomes
    (generateKey : Z -> Z -> string) (publicBaseUrl : string)
    (upload_done : string -> string -> bool)
    (filePath : string) (channelId videoId : Z) (keepLocal : bool) (w : world) :
  let key_ := generateKey channelId videoId in
  let r := uploadAndCleanup generateKey publicBaseUrl upload_done filePath
             channelId videoId keepLocal w in
  trace (fst r) = trace w ++ [Uploaded filePath key_]
  /\ files (fst r) ⊆ files w
  /\ (forall q, q ∈ files w -> q <> filePath -> q ∈ files (fst r))
  /\ (upload_done filePath key_ = false ->
      snd r = Throw "upload failed" /\ files (fst r) = files w)
  /\ (upload_done filePath key_ = true -> key_ = "" ->
      snd r = Throw "Upload validation failed" /\ files (fst r) = files w)
  /\ (upload_done filePath key_ = true -> key_ <> "" ->
      snd r = Normal (mkUploadResult true (publicBaseUrl +:+ "/" +:+ key_) key_)
      /\ (keepLocal = true -> files (fst r) = files w)
      /\ (keepLocal = false -> filePath ∉ locked w -> filePath ∉ files (fst r))
      /\ (keepLocal = false -> filePath ∈ files w -> filePath ∈ locked w ->
          filePath ∈ files (fst r))).
Proof.
  intros key_ r. unfold r.
  rewrite uploadAndCleanup_run. fold key_.
  destruct (upload_done filePath key_).
  - destruct (String.eqb_spec key_ "") as [Hk | Hk].
    + cbn [fst snd files trace log].
      split; [reflexivity|]. split; [done|]. split; [tauto|].
      split; [discriminate|]. split; [tauto|]. tauto.
    + destruct keepLocal; cbn [negb andb].
      * cbn [fst snd files trace log].
        split; [reflexivity|]. split; [done|]. split; [tauto|].
        split; [discriminate|]. split; [tauto|].
        intros _ _. split; [reflexivity|]. split; [reflexivity|].
        split; discriminate.
      * destruct (bool_decide (filePath ∈ files w)) eqn:Hin;
          [apply bool_decide_eq_true_1 in Hin | apply bool_decide_eq_false_1 in Hin];
          (destruct (bool_decide (filePath ∈ locked w)) eqn:Hlock;
           [apply bool_decide_eq_true_1 in Hlock
           |apply bool_decide_eq_false_1 in Hlock]);
          cbn [negb andb fst snd files trace log set_files].
        -- split; [reflexivity|]. split; [done|]. split; [tauto|].
           split; [discriminate|]. split; [tauto|].
           intros _ _. split; [reflexivity|]. split; [discriminate|].
           split; [tauto | tauto].
        -- split; [reflexivity|]. split; [apply removed_subset|].
           split.
           { intros q Hq Hne. apply elem_of_difference. split; [exact Hq|].
             now rewrite elem_of_singleton. }
           split; [discriminate|]. split; [tauto|].
           intros _ _. split; [reflexivity|]. split; [discriminate|].
           split; [intros _ _; apply removed_gone | tauto].
        -- split; [reflexivity|]. split; [done|]. split; [tauto|].
           split; [discriminate|]. split; [tauto|].
           intros _ _. split; [reflexivity|]. split; [discriminate|].
           split; [tauto | tauto].
        -- split; [reflexivity|]. split; [done|]. split; [tauto|].
           split; [discriminate|]. split; [tauto|].
           intros _ _. split; [reflexivity|]. split; [discriminate|].
           split; [tauto | tauto].
  - cbn [fst snd files trace log].
    split; [reflexivity|]. split; [done|]. split; [tauto|].
    split; [tauto|]. split; discriminate.
Qed.

(** The upload completes under an empty key: the caller gets an error, and
    the file that was sent is still on disk. *)
Lemma uploadAndCleanup_outcomes_witness :
  let w := mkWorld {[ "out.mp4" ]} ∅ [] 0 0 [] in
  let r := uploadAndCleanup (fun _ _ => "") "https://b2" (fun _ _ => true)
             "out.mp4" 3 5 false w in
  snd r = Throw "Upload validation failed" /\ files (fst r) = files w.
Proof.
  cbv zeta.
  refine (proj1 (proj2 (proj2 (proj2 (proj2
            (uploadAndCleanup_outcomes (fun _ _ => "") "https://b2"
               (fun _ _ => true) "out.mp4" 3 5 false
               (mkWorld {[ "out.mp4" ]} ∅ [] 0 0 [])))))) _ _);
    reflexivity.
Defined.

(** ** A job that never reaches the transcoder *)

Lemma request_untouched {A} db_fault interfere
    (query : list job -> list job * response A) :
  respects untouched (request db_fault interfere query).
Proof.
  intros w. unfold request, untouched.
  destruct (db_fault (db_calls w)); [destruct (query _)| |];
    cbn [fst files trace uuids locked set_db next_db_call]; auto.
Qed.

Lemma getJobById_untouched db_fault interfere jobId :
  respects untouched (getJobById db_fault interfere jobId).
Proof.
  unfold getJobById.
  apply (respects_try_catch untouched untouched_trans).
  - apply (respects_bind untouched untouched_trans); [apply request_untouched|].
    intros r. destruct (bool_decide _); apply (respects_mret untouched untouched_refl).
  - intros e. apply (respects_mret untouched untouched_refl).
Qed.

Lemma updateJobStatus_untouched db_fault interfere now jobId st extra :
  respects untouched (updateJobStatus db_fault interfere now jobId st extra).
Proof.
  unfold updateJobStatus.
  apply (respects_try_catch untouched untouched_trans).
  - apply (respects_bind untouched untouched_trans); [apply request_untouched|].
    intros r. destruct (bool_decide _); apply (respects_mret untouched untouched_refl).
  - intros e. apply (respects_mret untouched untouched_refl).
Qed.

Lemma notify_untouched jobId url_ completed :
  respects untouched (notify jobId url_ completed).
Proof.
  intros w. unfold notify, untouched. cbn [fst files trace uuids locked log].
  split; [reflexivity|]. split; [|split; reflexivity].
  rewrite List.filter_app. cbn [List.filter is_work]. now rewrite app_nil_r.
Qed.

Lemma failJob_untouched db_fault interfere now jobId :
  respects untouched (failJob db_fault interfere now jobId).
Proof.
  unfold failJob.
  apply (respects_try_catch untouched untouched_trans);
    [|intros e; apply updateJobStatus_untouched].
  apply (respects_bind untouched untouched_trans);
    [apply getJobById_untouched|]. intros found.
  apply (respects_bind untouched untouched_trans);
    [apply updateJobStatus_untouched|]. intros b.
  apply (respects_bind untouched untouched_trans);
    [|intros u; apply (respects_mret untouched untouched_refl)].
  destruct found as [j|]; [|apply (respects_mret untouched untouched_refl)].
  destruct (truthy_string _);
    [apply notify_untouched | apply (respects_mret untouched untouched_refl)].
Qed.

Lemma failJob_result db_fault interfere now jobId (w : world) :
  failJob db_fault interfere now jobId w
  = (fst (failJob db_fault interfere now jobId w),
     Normal match snd (failJob db_fault interfere now jobId w) with
            | Normal b => b
            | Throw _ => false
            end).
Proof.
  destruct (never_throws_failJob db_fault interfere now jobId w) as [b Hb].
  destruct (failJob db_fault interfere now jobId w) as [w' c].
  simpl in *. now subst c.
Qed.

(** What [renderVideo] does when the steps before the upload throw. *)
Lemma renderVideo_rejected
    ffprobe_duration ffprobe_video ffmpeg_exit uuidv4 dirname timestamp
    db_fault interfere generateKey publicBaseUrl upload_done baseDir
    isValidUrl download_ok large_enough processor job_ (w w1 : world) (e : string) :
  render_steps ffprobe_duration ffprobe_video ffmpeg_exit uuidv4 dirname
    timestamp baseDir isValidUrl download_ok large_enough processor job_ w
  = (w1, Throw e) ->
  renderVideo ffprobe_duration ffprobe_video ffmpeg_exit uuidv4 dirname
    timestamp db_fault interfere generateKey publicBaseUrl upload_done baseDir
    isValidUrl download_ok large_enough processor job_ w
  = (fst (failJob db_fault interfere timestamp (id job_) w1), Throw e).
Proof.
  intros H. unfold renderVideo, try_catch. rewrite bind_run, H.
  rewrite bind_run, failJob_result. reflexivity.
Qed.

(** X9. A job that fails validation costs nothing but the status write:
    [renderVideo] throws the validation error after [failJob] ran, and no
    file was written or removed, nothing was downloaded, and neither the
    transcoder nor the object store was asked anything. *)
Theorem invalid_job_is_failed_without_work
    (ffprobe_duration : string -> completion jsnum)
    (ffprobe_video : string -> completion videoInfo)
    (ffmpeg_exit : command -> exit) (uuidv4 : nat -> string)
    (dirname : string -> string) (timestamp : string)
    (db_fault : nat -> fault) (interfere : nat -> list job -> list job)
    (generateKey : Z -> Z -> string) (publicBaseUrl : string)
    (upload_done : string -> string -> bool) (baseDir : string)
    (isValidUrl download_ok large_enough : string -> bool)
    (processor : orchestrator) (job_ : job) (w : world) :
  validateJobData isValidUrl job_ = false ->
  let r := renderVideo ffprobe_duration ffprobe_video ffmpeg_exit uuidv4
             dirname timestamp db_fault interfere generateKey publicBaseUrl
             upload_done baseDir isValidUrl download_ok large_enough
             processor job_ w in
  r = (fst (failJob db_fault interfere timestamp (id job_) w),
       Throw "Job validation failed")
  /\ untouched w (fst r).
Proof.
  intros Hinvalid r.
  assert (Hr : r = (fst (failJob db_fault interfere timestamp (id job_) w),
                    Throw "Job validation failed")).
  { unfold r. apply renderVideo_rejected.
    unfold render_steps. rewrite bind_run, Hinvalid. reflexivity. }
  split; [exact Hr|]. rewrite Hr. apply failJob_untouched.
Qed.

(** The job has no soundtrack: it is marked failed, and the disk and the
    trace are what they were. *)
Lemma invalid_job_is_failed_without_work_witness :
  let job_ := mkJob 5 "rendering" None "2024-01-01" 3 "https://cdn/video.mp4" ""
                (of_Z 1) None in
  let r := renderVideo sample_duration sample_video sample_exit sample_uuid
             sample_dirname "T" no_fault quiet sample_key "https://b2"
             (fun _ _ => true) "temp" (fun _ => true) (fun _ => true)
             (fun _ => true) sample_processor job_ sample_world in
  untouched sample_world (fst r).
Proof.
  cbv zeta.
  refine (proj2 (invalid_job_is_failed_without_work sample_duration
                   sample_video sample_exit sample_uuid sample_dirname "T"
                   no_fault quiet sample_key "https://b2" (fun _ _ => true)
                   "temp" (fun _ => true) (fun _ => true) (fun _ => true)
                   sample_processor
                   (mkJob 5 "rendering" None "2024-01-01" 3
                      "https://cdn/video.mp4" "" (of_Z 1) None)
                   sample_world _)).
  reflexivity.
Defined.

(** ** Downloads that are too small *)

Lemma downloadFile_run uuidv4 baseDir download_ok url_ ext (w : world) :
  download_ok url_ = true ->
  let filePath := path_join baseDir (uuidv4 (uuids w) +:+ "." +:+ ext) in
  downloadFile uuidv4 baseDir download_ok url_ ext w
  = (set_files ({[filePath]} ∪ files w) (next_uuid w), Normal filePath).
Proof.
  intros H. cbv zeta. unfold downloadFile, try_catch.
  rewrite bind_run. unfold fresh_uuid. rewrite H. reflexivity.
Qed.

Lemma validateFile_run large_enough filePath (w : world) :
  validateFile large_enough filePath w
  = (w, if bool_decide (filePath ∈ files w)
        then if large_enough filePath then Normal tt
             else Throw "File too small"
        else Throw "File does not exist").
Proof.
  unfold validateFile, try_catch. rewrite bind_run. unfold pathExists.
  destruct (bool_decide _); cbn [negb]; [|reflexivity].
  destruct (large_enough filePath); reflexivity.
Qed.



(** ** Download with retry *)

Lemma downloadFile_failed uuidv4 baseDir download_ok url_ ext (w : world) :
  download_ok url_ = false ->
  downloadFile uuidv4 baseDir download_ok url_ ext w
  = (next_uuid w, Throw "download failed").
Proof.
  intros H. unfold downloadFile, try_catch.
  rewrite bind_run. unfold fresh_uuid. rewrite H. reflexivity.
Qed.

Lemma retry_loop_arrives uuidv4 baseDir arrives url_ ext (n k : nat) :
  forall w : world,
  (k < n)%nat ->
  (forall i, (i < k)%nat -> arrives (uuids w + i)%nat url_ = false) ->
  arrives (uuids w + k)%nat url_ = true ->
  let filePath := path_join baseDir (uuidv4 (uuids w + k)%nat +:+ "." +:+ ext) in
  let r := retry_loop uuidv4 baseDir arrives n url_ ext w in
  snd r = Normal (Some filePath)
  /\ uuids (fst r) = (uuids w + S k)%nat
  /\ filePath ∈ files (fst r).
Proof.
  revert k. induction n as [|n IH]; intros k w Hk Hfail Hok; [lia|].
  cbv zeta. cbn [retry_loop]. unfold try_catch. rewrite bind_run. unfold attempt.
  destruct k as [|k].
  - rewrite Nat.add_0_r in Hok. rewrite Nat.add_0_r.
    rewrite (downloadFile_run _ _ _ _ _ _ Hok).
    unfold mret, M_ret. cbn [fst snd uuids files set_files next_uuid].
    split; [reflexivity|]. split; [lia|].
    apply elem_of_union. left. now apply elem_of_singleton.
  - assert (H0 : arrives (uuids w) url_ = false).
    { rewrite <- (Nat.add_0_r (uuids w)). apply Hfail. lia. }
    rewrite (downloadFile_failed _ _ _ _ _ _ H0).
    destruct n as [|n]; [lia|]. cbn [Nat.eqb].
    destruct (IH k (next_uuid w)) as (Hr & Hu & Hf).
    + lia.
    + intros i Hi. cbn [uuids next_uuid].
      replace (S (uuids w) + i)%nat with (uuids w + S i)%nat by lia.
      apply Hfail. lia.
    + cbn [uuids next_uuid].
      replace (S (uuids w) + k)%nat with (uuids w + S k)%nat by lia. exact Hok.
    + cbn [uuids next_uuid] in Hr, Hu, Hf.
      replace (S (uuids w) + k)%nat with (uuids w + S k)%nat in Hr, Hf by lia.
      split; [exact Hr|]. split; [rewrite Hu; lia | exact Hf].
Qed.

Lemma retry_loop_exhausted uuidv4 baseDir arrives url_ ext (n : nat) :
  forall w : world,
  (0 < n)%nat ->
  (forall i, (i < n)%nat -> arrives (uuids w + i)%nat url_ = false) ->
  let r := retry_loop uuidv4 baseDir arrives n url_ ext w in
  snd r = Throw "download failed" /\ uuids (fst r) = (uuids w + n)%nat.
Proof.
  induction n as [|n IH]; intros w Hn Hfail; [lia|].
  cbv zeta. cbn [retry_loop]. unfold try_catch. rewrite bind_run. unfold attempt.
  assert (H0 : arrives (uuids w) url_ = false).
  { rewrite <- (Nat.add_0_r (uuids w)). apply Hfail. lia. }
  rewrite (downloadFile_failed _ _ _ _ _ _ H0).
  destruct n as [|n].
  - cbn [Nat.eqb fst snd throw uuids next_uuid]. split; [reflexivity | lia].
  - cbn [Nat.eqb]. destruct (IH (next_uuid w)) as (Hr & Hu).
    + lia.
    + intros i Hi. cbn [uuids next_uuid].
      replace (S (uuids w) + i)%nat with (uuids w + S i)%nat by lia.
      apply Hfail. lia.
    + cbn [uuids next_uuid] in Hu. split; [exact Hr | rewrite Hu; lia].
Qed.

(** X11. [downloadWithRetry] stops at the first attempt that arrives: it
    returns the path of that attempt, which is on disk, after exactly that
    many calls of [downloadFile]. When every attempt fails it throws the
    error of the last one after exactly [retries] calls. With a number of
    retries that is zero or negative it makes no attempt at all and
    resolves with [undefined] instead of a path. *)
Theorem downloadWithRetry_attempts
    (uuidv4 : nat -> string) (baseDir : string)
    (arrives : nat -> string -> bool) (url_ ext : string) (retries : Z)
    (w : world) :
  let r := downloadWithRetry uuidv4 baseDir arrives url_ ext retries w in
  let path_at (k : nat) :=
    path_join baseDir (uuidv4 (uuids w + k)%nat +:+ "." +:+ ext) in
  (retries <= 0 -> r = (w, Normal None))
  /\ (forall k : nat, Z.of_nat k < retries ->
        (forall i, (i < k)%nat -> arrives (uuids w + i)%nat url_ = false) ->
        arrives (uuids w + k)%nat url_ = true ->
        snd r = Normal (Some (path_at k))
        /\ uuids (fst r) = (uuids w + S k)%nat
        /\ path_at k ∈ files (fst r))
  /\ (0 < retries ->
        (forall i, Z.of_nat i < retries -> arrives (uuids w + i)%nat url_ = false) ->
        snd r = Throw "download failed"
        /\ uuids (fst r) = (uuids w + Z.to_nat retries)%nat).
Proof.
  cbv zeta. unfold downloadWithRetry. split; [|split].
  - intros H. replace (Z.to_nat retries) with 0%nat by lia. reflexivity.
  - intros k Hk Hfail Hok.
    apply (retry_loop_arrives uuidv4 baseDir arrives url_ ext
             (Z.to_nat retries) k w); [lia | exact Hfail | exact Hok].
  - intros Hpos Hfail.
    apply (retry_loop_exhausted uuidv4 baseDir arrives url_ ext
             (Z.to_nat retries) w); [lia|].
    intros i Hi. apply Hfail. lia.
Qed.

(** Three tries, and only the third download arrives. *)
Lemma downloadWithRetry_attempts_witness :
  let r := downloadWithRetry sample_uuid "temp"
             (fun n _ => Nat.eqb n 2) "https://cdn/video.mp4" "mp4" 3
             empty_world in
  snd r = Normal (Some "temp/c.mp4") /\ uuids (fst r) = 3%nat
  /\ "temp/c.mp4" ∈ files (fst r).
Proof.
  cbv zeta.
  refine (proj1 (proj2 (downloadWithRetry_attempts sample_uuid "temp"
                   (fun n _ => Nat.eqb n 2) "https://cdn/video.mp4" "mp4" 3
                   empty_world)) 2%nat _ _ _).
  - lia.
  - intros i Hi. destruct i as [|[|i]]; [reflexivity | reflexivity | lia].
  - reflexivity.
Defined.

(** X12. The delay before a retry doubles from one second and is capped at
    ten seconds: it never decreases from one attempt to the next, and from
    the fifth attempt on it is the cap. *)
Theorem backoff_is_capped (attempt_ : Z) :
  1 <= attempt_ ->
  1000 <= backoff attempt_ <= 10000
  /\ backoff attempt_ <= backoff (attempt_ + 1)
  /\ (attempt_ <= 4 -> backoff attempt_ = 1000 * 2 ^ (attempt_ - 1))
  /\ (5 <= attempt_ -> backoff attempt_ = 10000).
Proof.
  intros H. unfold backoff.
  assert (Hpow : 1 <= 2 ^ (attempt_ - 1)) by (apply Z.pow_le_mono_r with (b := 0); lia).
  assert (Hstep : 2 ^ (attempt_ + 1 - 1) = 2 * 2 ^ (attempt_ - 1)).
  { replace (attempt_ + 1 - 1) with (Z.succ (attempt_ - 1)) by lia.
    apply Z.pow_succ_r. lia. }
  rewrite Hstep.
  split; [lia|]. split; [lia|]. split.
  - intros Hle.
    assert (Hs : 2 ^ (attempt_ - 1) <= 2 ^ 3) by (apply Z.pow_le_mono_r; lia).
    change (2 ^ 3) with 8 in Hs. lia.
  - intros Hge.
    assert (Hs : 2 ^ 4 <= 2 ^ (attempt_ - 1)) by (apply Z.pow_le_mono_r; lia).
    change (2 ^ 4) with 16 in Hs. lia.
Qed.

Lemma backoff_is_capped_witness : backoff 3 = 1000 * 2 ^ (3 - 1).
Proof.
  refine (proj1 (proj2 (proj2 (backoff_is_capped 3 _))) _); lia.
Defined.

(** ** The dependency container *)

(** X13. A singleton is built at most once: once [resolve] has returned an
    instance for a name registered as a singleton, every later [resolve] of
    that name returns the same instance and builds nothing, also after the
    name is registered again as a singleton with another factory, which is
    then never called. *)
Theorem singleton_survives_registration {K : Type} (name : string)
    (c c1 : container K) (d : dependency K) (o : K * nat) (f : completion K) :
  dependencies c !! name = Some d ->
  isSingleton d = true ->
  resolve name c = (c1, Normal o) ->
  resolve name c1 = (c1, Normal o)
  /\ resolve name (register name f true c1) = (register name f true c1, Normal o)
  /\ (constructed c1 <= S (constructed c))%nat
  /\ dependencies c1 = dependencies c.
Proof.
  intros Hd Hs Hr. unfold resolve in Hr. rewrite Hd, Hs in Hr.
  assert (Hc1 : dependencies c1 = dependencies c
                /\ singletons c1 !! name = Some o
                /\ (constructed c1 <= S (constructed c))%nat).
  { destruct (singletons c !! name) as [o'|] eqn:Hcached.
    - injection Hr as <- <-. auto.
    - unfold call in Hr. destruct (factory d) as [k|e]; [|discriminate].
      injection Hr as <- <-. cbn [dependencies singletons constructed].
      split; [reflexivity|]. split; [apply lookup_insert_eq | lia]. }
  destruct Hc1 as (Hdeps & Hcached & Hcount).
  split; [|split; [|split; [exact Hcount | exact Hdeps]]].
  - unfold resolve. rewrite Hdeps, Hd, Hs, Hcached. reflexivity.
  - unfold resolve, register. cbn [dependencies singletons].
    rewrite lookup_insert_eq. cbn [isSingleton]. rewrite Hcached. reflexivity.
Qed.

(** A processor is resolved, then the name is registered again. *)
Lemma singleton_survives_registration_witness :
  let c := register "processor" (Normal "first") true new_container in
  let c1 := fst (resolve "processor" c) in
  resolve "processor" (register "processor" (Normal "second") true c1)
  = (register "processor" (Normal "second") true c1, Normal ("first", 0%nat)).
Proof.
  cbv zeta.
  refine (proj1 (proj2 (singleton_survives_registration "processor"
                   (register "processor" (Normal "first") true new_container)
                   _ (mkDependency (Normal "first") true) ("first", 0%nat)
                   (Normal "second") _ _ _)));
    reflexivity.
Defined.

(** X14. A failed [resolve] changes nothing: for a name that was never
    registered it throws, and when the factory of a singleton throws the
    error comes out and nothing is cached, so that the next [resolve] calls
    the factory that is registered then. A dependency that is not a
    singleton gives a new instance at every [resolve]. *)
Theorem failed_resolve_caches_nothing {K : Type} (name : string)
    (c : container K) :
  (dependencies c !! name = None ->
   resolve (K := K) name c = (c, Throw ("Dependency " +:+ name +:+ " not found")))
  /\ (forall d e, dependencies c !! name = Some d -> factory d = Throw e ->
      singletons c !! name = None \/ isSingleton d = false ->
      resolve name c = (c, Throw e)
      /\ forall k, isSingleton d = true ->
           snd (resolve name (register name (Normal k) true c))
           = Normal (k, constructed c))
  /\ (forall d k, dependencies c !! name = Some d -> factory d = Normal k ->
      isSingleton d = false ->
      let r1 := resolve name c in
      let r2 := resolve name (fst r1) in
      snd r1 = Normal (k, constructed c)
      /\ snd r2 = Normal (k, S (constructed c))
      /\ singletons (fst r2) = singletons c).
Proof.
  split; [|split].
  - intros Hd. unfold resolve. now rewrite Hd.
  - intros d e Hd He Hfresh. split.
    + unfold resolve. rewrite Hd. unfold call. rewrite He.
      destruct (isSingleton d); [|reflexivity].
      destruct Hfresh as [-> | Hno]; [reflexivity | discriminate].
    + intros k Hsingle. destruct Hfresh as [Hnone | Hno]; [|congruence].
      unfold resolve, register. cbn [dependencies singletons].
      rewrite lookup_insert_eq. cbn [isSingleton factory]. rewrite Hnone.
      reflexivity.
  - intros d k Hd Hk Hs. cbv zeta.
    assert (H1 : resolve name c
                 = (mkContainer (dependencies c) (singletons c)
                      (S (constructed c)),
                    Normal (k, constructed c))).
    { unfold resolve. rewrite Hd, Hs. unfold call. now rewrite Hk. }
    rewrite H1. cbn [fst snd].
    unfold resolve. cbn [dependencies]. rewrite Hd, Hs. unfold call. rewrite Hk.
    cbn [fst snd singletons constructed]. auto.
Qed.

(** The factory of the uploader throws; a second registration repairs it. *)
Lemma failed_resolve_caches_nothing_witness :
  let c := register "uploader" (Throw "B2_BUCKET configuration is required")
             true new_container in
  snd (resolve "uploader" (register "uploader" (Normal "uploader") true c))
  = Normal ("uploader", 0%nat).
Proof.
  cbv zeta.
  refine (proj2 (proj1 (proj2 (failed_resolve_caches_nothing "uploader"
                   (register "uploader"
                      (Throw "B2_BUCKET configuration is required") true
                      new_container)))
                   (mkDependency (Throw "B2_BUCKET configuration is required") true)
                   "B2_BUCKET configuration is required" _ _ _)
            "uploader" _);
    first [reflexivity | left; reflexivity].
Defined.

(** ** Accepted jobs and the loop planner *)

Lemma js_gtb_zero (n : jsnum) :
  js_gtb n (of_Z 0) = true <->
  n = PosInf \/ exists q, n = Fin q /\ (0 < q)%Q.
Proof.
  destruct n as [q| | |]; cbn [js_gtb of_Z].
  - change (inject_Z 0) with 0%Q.
    destruct (Qcompare q 0) eqn:Hc.
    + split; [discriminate|]. intros [H | (q' & E & Hq)]; [discriminate|].
      injection E as <-. apply Qeq_alt in Hc. rewrite Hc in Hq.
      now apply Qlt_irrefl in Hq.
    + split; [discriminate|]. intros [H | (q' & E & Hq)]; [discriminate|].
      injection E as <-. apply Qlt_alt in Hc.
      exfalso. exact (Qlt_irrefl _ (Qlt_trans _ _ _ Hc Hq)).
    + split; [|reflexivity]. intros _. right. exists q. split; [reflexivity|].
      now apply Qgt_alt in Hc.
  - split; [auto | reflexivity].
  - split; [discriminate|]. intros [H | (q' & E & _)]; discriminate.
  - split; [discriminate|]. intros [H | (q' & E & _)]; discriminate.
Qed.

Lemma minutes_accepted (n : jsnum) :
  negb (negb (truthy_num n)) && negb (truthy_num n && js_leb n (of_Z 0))
  = js_gtb n (of_Z 0).
Proof.
  destruct n as [q| | |]; try reflexivity.
  cbn [truthy_num js_leb js_gtb of_Z]. change (inject_Z 0) with 0%Q.
  destruct (Qeq_bool q 0) eqn:Hz; cbn [negb andb].
  - apply Qeq_bool_iff, Qeq_alt in Hz. now rewrite Hz.
  - destruct (Qcompare q 0); reflexivity.
Qed.

Lemma accepted_jobs_minutes (isValidUrl : string -> bool) (j : job) :
  validateJobData isValidUrl j = true ->
  length_minutes j = PosInf
  \/ exists q, length_minutes j = Fin q /\ (0 < q)%Q.
Proof.
  intros H. apply js_gtb_zero. rewrite <- minutes_accepted.
  unfold validateJobData in H.
  apply andb_true_iff in H as [Hmissing Hinvalid].
  apply negb_true_iff in Hmissing, Hinvalid.
  repeat (apply orb_false_iff in Hmissing as [Hmissing ?]).
  repeat (apply orb_false_iff in Hinvalid as [Hinvalid ?]).
  apply andb_true_iff. split; apply negb_true_iff; assumption.
Qed.

(** X15. [validateJobData] accepts a job exactly when both URLs are present
    and parse, the channel id is positive, and the length is a number above
    zero. A length of zero or [NaN] is rejected as a missing field; an
    infinite length is accepted. *)
Theorem accepted_jobs (isValidUrl : string -> bool) (j : job) :
  validateJobData isValidUrl j = true
  <-> input_video_url j <> "" /\ soundtrack_url j <> ""
      /\ isValidUrl (input_video_url j) = true
      /\ isValidUrl (soundtrack_url j) = true
      /\ 0 < channel_id j
      /\ (length_minutes j = PosInf
          \/ exists q, length_minutes j = Fin q /\ (0 < q)%Q).
Proof.
  rewrite <- js_gtb_zero, <- minutes_accepted. unfold validateJobData.
  destruct (String.eqb_spec (input_video_url j) "") as [Hv | Hv];
    [cbn; split; [discriminate | tauto]|].
  destruct (String.eqb_spec (soundtrack_url j) "") as [Ha | Ha];
    [cbn; split; [discriminate | tauto]|].
  destruct (Z.eqb_spec (channel_id j) 0) as [Hc | Hc].
  { rewrite ?orb_true_r. cbn. split; [discriminate | lia]. }
  destruct (Z.leb_spec (channel_id j) 0) as [Hle | Hgt].
  { cbn [negb andb orb]. rewrite ?orb_true_r, ?andb_false_r.
    cbn. rewrite ?orb_true_r, ?andb_false_r. split; [discriminate | lia]. }
  cbn [negb andb orb].
  destruct (isValidUrl (input_video_url j));
    [|cbn; rewrite ?orb_true_r, ?andb_false_r; split; [discriminate | tauto]].
  destruct (isValidUrl (soundtrack_url j));
    [|cbn; rewrite ?orb_true_r, ?andb_false_r; split; [discriminate | tauto]].
  cbn [negb andb orb]. rewrite ?orb_false_r.
  destruct (truthy_num (length_minutes j)); cbn [negb andb orb].
  - destruct (js_leb (length_minutes j) (of_Z 0)); cbn;
      [split; [discriminate | tauto] | split; [intros _|]; auto 10].
  - split; [discriminate | tauto].
Qed.



Lemma accepted_jobs_witness :
  validateJobData (fun _ => true) (sample_job 5 "waiting_render" None) = true.
Proof.
  refine (proj2 (accepted_jobs (fun _ => true)
                   (sample_job 5 "waiting_render" None)) _).
  split; [discriminate|]. split; [discriminate|].
  split; [reflexivity|]. split; [reflexivity|]. split; [reflexivity|].
  right. exists 1%Q. split; reflexivity.
Defined.

(** X17. A source whose probe gives no duration splits the two planners:
    the video planner throws a [RangeError] and builds no command, while
    the audio planner builds its command and asks the transcoder for
    [-stream_loop NaN]. A source of duration zero makes both ask for an
    infinite loop, whatever the positive length of the job. *)
Theorem degenerate_durations (cs : settings) (p : string) (m : jsnum)
    (info : videoInfo) (out : string) :
  video_ready cs ->
  loopVideo_command cs p m NaN info out
  = Throw "RangeError: Invalid array length"
  /\ (exists opts,
       AudioProcessor_loopAudio_command (AudioProcessor_settings cs) p m NaN out
       = Normal (mkCommand [p] [stream_loop NaN] [] opts out))
  /\ (js_gtb m (of_Z 0) = true ->
      (exists opts,
         loopVideo_command cs p m (of_Z 0) info out
         = Normal (mkCommand [p] [stream_loop PosInf] [] opts out))
      /\ (exists opts,
           AudioProcessor_loopAudio_command (AudioProcessor_settings cs) p m
             (of_Z 0) out
           = Normal (mkCommand [p] [stream_loop PosInf] [] opts out))).
Proof.
  intros Hready.
  assert (Hnan : loops m NaN = NaN)
    by (unfold loops, targetDuration; destruct m; reflexivity).
  split; [|split].
  - pose proof (loopVideo_command_shape cs p m NaN info out Hready) as Hshape.
    cbv zeta in Hshape. rewrite Hnan in Hshape. exact Hshape.
  - destruct (AudioProcessor_command_shape cs p m NaN out) as (ar & ac & ->).
    rewrite Hnan. eexists. reflexivity.
  - intros Hpos.
    assert (Hinf : loops m (of_Z 0) = PosInf).
    { apply js_gtb_zero in Hpos as [-> | (q & -> & Hq)]; [reflexivity|].
      unfold loops, targetDuration, js_mul, js_div, of_Z.
      change (inject_Z 0) with 0%Q. change (Qcompare 0 0) with Eq.
      rewrite Qcompare_pos; [reflexivity|].
      change (inject_Z 60) with 60%Q. revert Hq. generalize q. clear.
      intros q Hq. lra. }
    split.
    + pose proof (loopVideo_command_shape cs p m (of_Z 0) info out Hready)
        as Hshape.
      cbv zeta in Hshape. rewrite Hinf in Hshape. cbn [js_gtb of_Z] in Hshape.
      destruct Hshape as (opts & -> & _). eexists. reflexivity.
    + destruct (AudioProcessor_command_shape cs p m (of_Z 0) out)
        as (ar & ac & ->).
      rewrite Hinf. eexists. reflexivity.
Qed.

(** The registered default profile and a probe without a duration. *)
Lemma degenerate_durations_witness :
  loopVideo_command (VideoProcessor_settings no_settings) "in.mp4" (of_Z 1)
    NaN (mkVideoInfo 1920 1080 NaN) "out.mp4"
  = Throw "RangeError: Invalid array length".
Proof.
  refine (proj1 (degenerate_durations (VideoProcessor_settings no_settings)
                   "in.mp4" (of_Z 1) (mkVideoInfo 1920 1080 NaN) "out.mp4" _)).
  apply VideoProcessor_settings_ready.
Defined.

(** ** The logger *)

Lemma LOG_LEVELS_lookup (level_ : string) (n : Z) :
  LOG_LEVELS !! level_ = Some n ->
  (level_ = "error" /\ n = 0) \/ (level_ = "warn" /\ n = 1)
  \/ (level_ = "info" /\ n = 2) \/ (level_ = "debug" /\ n = 3).
Proof.
  intros H. unfold LOG_LEVELS in H.
  apply elem_of_list_to_map_2 in H.
  repeat (apply elem_of_cons in H as [H | H]; [injection H as -> ->; tauto|]).
  now apply elem_of_nil in H.
Qed.

(** X18. The logger can never be set to errors only: a configured level of
    ['error'] gives the threshold of ['info'], as does any name that is not
    a level. Under every configuration that is not a name plain objects
    inherit, errors and warnings are printed, informations are printed
    unless the level is ['warn'], and debug lines only under ['debug']. A
    configured name that plain objects inherit, such as ['constructor'],
    silences every line, errors included. *)
Theorem Logger_thresholds (configured : string) :
  (forall level_, Logger_prints "error" level_ = Logger_prints "info" level_)
  /\ (configured ∉ objectPrototype ->
      Logger_prints configured "error" = true
      /\ Logger_prints configured "warn" = true
      /\ (configured <> "warn" -> Logger_prints configured "info" = true)
      /\ (Logger_prints configured "debug" = true <-> configured = "debug"))
  /\ (configured ∈ objectPrototype ->
      forall level_, Logger_prints configured level_ = false).
Proof.
  split; [reflexivity|]. split.
  - intros Hown. unfold Logger_prints, Logger_level.
    destruct (LOG_LEVELS !! configured) as [n|] eqn:Hn.
    + apply LOG_LEVELS_lookup in Hn
        as [[-> ->] | [[-> ->] | [[-> ->] | [-> ->]]]];
        (split; [reflexivity|]); (split; [reflexivity|]);
        (split; [first [reflexivity | congruence]|]);
        (split; [first [discriminate | reflexivity] | first [discriminate | reflexivity]]).
    + rewrite bool_decide_eq_false_2 by exact Hown.
      split; [reflexivity|]. split; [reflexivity|]. split; [reflexivity|].
      split; [discriminate|]. intros ->. discriminate Hn.
  - intros Hin level_. unfold Logger_prints, Logger_level.
    destruct (LOG_LEVELS !! configured) as [n|] eqn:Hn.
    + exfalso. revert Hin.
      apply LOG_LEVELS_lookup in Hn
        as [[-> ->] | [[-> ->] | [[-> ->] | [-> ->]]]];
        apply (bool_decide_unpack _); vm_compute; exact I.
    + rewrite bool_decide_eq_true_2 by exact Hin.
      now destruct (LOG_LEVELS !! level_).
Qed.

Lemma Logger_thresholds_witness :
  Logger_prints "constructor" "error" = false.
Proof.
  refine (proj2 (proj2 (Logger_thresholds "constructor")) _ "error").
  apply (bool_decide_unpack _). vm_compute. exact I.
Defined.

(** ** What a render leaves in the job table *)

Lemma same_db_mret {A} (a : A) : respects same_db (mret a).
Proof. exact (respects_mret same_db same_db_refl a). Qed.

Lemma same_db_throw {A} (e : string) : respects same_db (throw (A := A) e).
Proof. exact (respects_throw same_db same_db_refl e). Qed.

Lemma same_db_lift {A} (c : completion A) : respects same_db (lift c).
Proof. exact (respects_lift same_db same_db_refl c). Qed.

Lemma same_db_bind {A B} (m : M A) (k : A -> M B) :
  respects same_db m -> (forall a, respects same_db (k a)) ->
  respects same_db (m ≫= k).
Proof. exact (respects_bind same_db same_db_trans m k). Qed.

Lemma same_db_try_catch {A} (m : M A) (h : string -> M A) :
  respects same_db m -> (forall e, respects same_db (h e)) ->
  respects same_db (try_catch m h).
Proof. exact (respects_try_catch same_db same_db_trans m h). Qed.

Lemma same_db_all2 {A B} (p : M A) (q : M B) :
  respects same_db p -> respects same_db q ->
  respects same_db (Promise_all2 p q).
Proof. exact (respects_all2 same_db same_db_trans p q). Qed.

Lemma same_db_if {A} (b : bool) (m1 m2 : M A) :
  respects same_db m1 -> respects same_db m2 ->
  respects same_db (if b then m1 else m2).
Proof. now destruct b. Qed.

Lemma same_db_pathExists p : respects same_db (pathExists p).
Proof. intros w. reflexivity. Qed.

Lemma same_db_remove p : respects same_db (remove p).
Proof. intros w. unfold remove. now destruct (_ && _). Qed.

Lemma same_db_create_file p : respects same_db (create_file p).
Proof. intros w. reflexivity. Qed.

Lemma same_db_fresh_uuid uuidv4 : respects same_db (fresh_uuid uuidv4).
Proof. intros w. reflexivity. Qed.

Lemma same_db_run ffmpeg_exit s c : respects same_db (run ffmpeg_exit s c).
Proof.
  intros w. unfold run. destruct (ffmpeg_exit c) as [|[|]]; reflexivity.
Qed.

Lemma same_db_notify jobId url_ completed :
  respects same_db (notify jobId url_ completed).
Proof. intros w. reflexivity. Qed.

Create HintDb store.

#[local] Hint Resolve same_db_mret same_db_throw same_db_lift same_db_bind
  same_db_try_catch same_db_all2 same_db_if same_db_pathExists same_db_remove
  same_db_create_file same_db_fresh_uuid same_db_run same_db_notify : store.

Lemma same_db_cleanup l : respects same_db (cleanup l).
Proof.
  intros w. rewrite cleanup_result. cbn [fst].
  destruct (cleanup_loop_world l w) as (F & -> & _). reflexivity.
Qed.

Lemma same_db_base_cleanup l : respects same_db (base_cleanup l).
Proof. intros w. apply (base_cleanup_world l w). Qed.

Lemma same_db_default_path outputPath gen :
  respects same_db gen -> respects same_db (default_path outputPath gen).
Proof.
  intros H. unfold default_path. destruct outputPath as [p|]; [|exact H].
  destruct (String.eqb p ""); auto with store.
Qed.

#[local] Hint Resolve same_db_cleanup same_db_base_cleanup
  same_db_default_path : store.

Lemma same_db_loopVideo ffprobe_duration ffprobe_video ffmpeg_exit uuidv4
    dirname cs inputPath m outputPath :
  respects same_db
    (VideoProcessor_loopVideo ffprobe_duration ffprobe_video ffmpeg_exit
       uuidv4 dirname cs inputPath m outputPath).
Proof.
  unfold VideoProcessor_loopVideo, getMediaDuration, getVideoInfo,
    generateUniqueFilePath.
  auto 12 with store.
Qed.

Lemma same_db_loopAudio ffprobe_duration ffmpeg_exit uuidv4 dirname cs
    inputPath m outputPath :
  respects same_db
    (AudioProcessor_loopAudio ffprobe_duration ffmpeg_exit uuidv4 dirname cs
       inputPath m outputPath).
Proof.
  unfold AudioProcessor_loopAudio, getMediaDuration, generateUniqueFilePath.
  auto 12 with store.
Qed.

Lemma same_db_mergeVideoAudio ffmpeg_exit dirname timestamp cs v a outputPath :
  respects same_db
    (MediaMerger_mergeVideoAudio ffmpeg_exit dirname timestamp cs v a outputPath).
Proof. unfold MediaMerger_mergeVideoAudio. auto 12 with store. Qed.

Lemma same_db_processMedia ffprobe_duration ffprobe_video ffmpeg_exit uuidv4
    dirname timestamp o v a m out :
  respects same_db
    (MediaOrchestrator_processMedia ffprobe_duration ffprobe_video ffmpeg_exit
       uuidv4 dirname timestamp o v a m out).
Proof.
  unfold MediaOrchestrator_processMedia, processMedia_body.
  apply same_db_bind.
  - apply same_db_try_catch.
    + apply same_db_all2; [apply same_db_loopVideo | apply same_db_loopAudio].
    + intros e. unfold processMedia_catch. auto 12 with store.
  - intros [lv la]. apply same_db_try_catch.
    + apply same_db_bind; [apply same_db_mergeVideoAudio|].
      intros p. auto 12 with store.
    + intros e. unfold processMedia_catch. auto 12 with store.
Qed.

Lemma same_db_downloadFile uuidv4 baseDir download_ok url_ ext :
  respects same_db (downloadFile uuidv4 baseDir download_ok url_ ext).
Proof. unfold downloadFile. auto 12 with store. Qed.

Lemma same_db_validateFile large_enough p :
  respects same_db (validateFile large_enough p).
Proof. unfold validateFile. auto 12 with store. Qed.

Lemma same_db_render_steps ffprobe_duration ffprobe_video ffmpeg_exit uuidv4
    dirname timestamp baseDir isValidUrl download_ok large_enough processor
    job_ :
  respects same_db
    (render_steps ffprobe_duration ffprobe_video ffmpeg_exit uuidv4 dirname
       timestamp baseDir isValidUrl download_ok large_enough processor job_).
Proof.
  unfold render_steps, downloadMediaFiles.
  apply same_db_bind; [auto with store|]. intros _.
  apply same_db_bind.
  { apply same_db_try_catch; [|auto with store].
    apply same_db_all2; apply same_db_downloadFile. }
  intros [videoPath audioPath].
  apply same_db_bind; [apply same_db_validateFile|]. intros _.
  apply same_db_bind; [apply same_db_validateFile|]. intros _.
  apply same_db_bind; [apply same_db_processMedia|]. intros p.
  apply same_db_mret.
Qed.

Lemma same_db_uploadAndCleanup generateKey publicBaseUrl upload_done
    filePath channelId videoId keepLocal :
  respects same_db
    (uploadAndCleanup generateKey publicBaseUrl upload_done filePath channelId
       videoId keepLocal).
Proof.
  intros w. rewrite uploadAndCleanup_run.
  destruct (upload_done _ _); [|reflexivity].
  destruct (String.eqb _ ""); [reflexivity|].
  now destruct (_ && _).
Qed.

(** Writes to the table, when no other writer is there. *)

Lemma no_revival_refl w : no_revival w w.
Proof. apply Forall2_same_length_lookup_2; [reflexivity|]. intros i x y Hx Hy.
  assert (x = y) by congruence. subst. auto.
Qed.

Lemma no_revival_trans a b c :
  no_revival a b -> no_revival b c -> no_revival a c.
Proof.
  unfold no_revival. generalize (db a) (db b) (db c).
  intros l1 l2 l3 Hab. revert l3.
  induction Hab as [|x y l1 l2 [E1 C1] _ IH]; intros l3 Hbc;
    inversion Hbc as [|y' z l2' l3' [E2 C2] Hrest]; subst; constructor.
  - split; [congruence | auto].
  - now apply IH.
Qed.

Lemma same_db_no_revival {A} (m : M A) :
  respects same_db m -> respects no_revival m.
Proof.
  intros H w. specialize (H w). unfold same_db in H. unfold no_revival.
  rewrite H. apply (no_revival_refl w).
Qed.

Lemma no_revival_update (keeps : job -> bool) (change : job -> job)
    (rows : list job) :
  (forall j, id (change j) = id j) ->
  (forall j, is_candidate (change j) = false) ->
  Forall2 (fun j j' => id j' = id j
                       /\ (is_candidate j = false -> is_candidate j' = false))
    rows (map (fun j => if keeps j then change j else j) rows).
Proof.
  intros Hid Hclosed. induction rows as [|j rows IH]; [constructor|].
  cbn [map]. constructor; [|exact IH].
  destruct (keeps j); [split; [apply Hid | intros _; apply Hclosed] | auto].
Qed.

Lemma no_revival_settles w w' : no_revival w w' -> settles w w'.
Proof.
  unfold no_revival, settles, waiting. generalize (db w) (db w').
  induction 1 as [|j j' rows rows' [Hid Hc] _ [IHid IHw]]; [split; reflexivity|].
  cbn [map List.filter]. split; [congruence|].
  destruct (is_candidate j) eqn:Hj.
  - destruct (is_candidate j'); cbn [length]; lia.
  - rewrite (Hc eq_refl). exact IHw.
Qed.

Lemma no_revival_closed w w' (i : Z) :
  no_revival w w' -> closed i (db w) -> closed i (db w').
Proof.
  unfold no_revival, closed. generalize (db w) (db w').
  induction 1 as [|j j' rows rows' [Hid Hc] _ IH]; intros Hclosed k Hk Hi;
    [destruct Hk|].
  destruct Hk as [<- | Hk].
  - apply Hc, Hclosed; [now left | congruence].
  - apply IH; [|exact Hk|exact Hi]. intros k' Hk'. apply Hclosed. now right.
Qed.

Lemma no_revival_origin w w' (j' : job) :
  no_revival w w' -> In j' (db w') -> is_candidate j' = true ->
  exists j, In j (db w) /\ id j = id j' /\ is_candidate j = true.
Proof.
  unfold no_revival. generalize (db w) (db w').
  induction 1 as [|j k rows rows' [Hid Hc] _ IH]; intros Hin Hcand;
    [destruct Hin|].
  destruct Hin as [<- | Hin].
  - exists j. split; [now left|]. split; [congruence|].
    destruct (is_candidate j); [reflexivity|].
    rewrite (Hc eq_refl) in Hcand. discriminate.
  - destruct (IH Hin Hcand) as (j0 & H0 & E & C).
    exists j0. split; [now right | auto].
Qed.

Lemma no_revival_request_update db_fault interfere jobId from st now extra :
  quiet_store interfere ->
  st <> "waiting_render" ->
  (forall j, id (extra j) = id j) ->
  respects no_revival
    (request db_fault interfere
       (update_rows jobId from (set_status st now extra))).
Proof.
  intros Hq Hst Hid w. rewrite (request_quiet_run _ _ _ _ Hq).
  destruct (db_fault (db_calls w)); cbn [fst];
    [|exact (no_revival_refl w) ..].
  unfold no_revival, update_rows. cbn [fst db set_db].
  apply no_revival_update.
  - intros j. now apply set_status_id.
  - intros j. now apply set_status_not_candidate.
Qed.

Lemma no_revival_updateJobStatus db_fault interfere now jobId st extra :
  quiet_store interfere ->
  st <> "waiting_render" ->
  (forall j, id (extra j) = id j) ->
  respects no_revival (updateJobStatus db_fault interfere now jobId st extra).
Proof.
  intros Hq Hst Hid. unfold updateJobStatus.
  apply (respects_try_catch no_revival no_revival_trans).
  - apply (respects_bind no_revival no_revival_trans);
      [now apply no_revival_request_update|].
    intros r. destruct (bool_decide _);
      apply (respects_mret no_revival no_revival_refl).
  - intros e. apply (respects_mret no_revival no_revival_refl).
Qed.

Lemma same_db_getJobById db_fault interfere jobId :
  quiet_store interfere ->
  respects same_db (getJobById db_fault interfere jobId).
Proof. intros Hq w. now rewrite (getJobById_run _ _ _ _ Hq). Qed.

Lemma no_revival_completeJob db_fault interfere now jobId outputUrl :
  quiet_store interfere ->
  respects no_revival (completeJob db_fault interfere now jobId outputUrl).
Proof.
  intros Hq. unfold completeJob.
  apply (respects_try_catch no_revival no_revival_trans);
    [|intros e; apply (respects_mret no_revival no_revival_refl)].
  apply (respects_bind no_revival no_revival_trans);
    [now apply same_db_no_revival, same_db_getJobById|].
  intros [job_|]; [|apply (respects_mret no_revival no_revival_refl)].
  apply (respects_bind no_revival no_revival_trans).
  { apply no_revival_updateJobStatus; [exact Hq | discriminate | reflexivity]. }
  intros b. destruct (negb b); [apply (respects_mret no_revival no_revival_refl)|].
  apply same_db_no_revival. auto 6 with store.
Qed.

Lemma no_revival_failJob db_fault interfere now jobId :
  quiet_store interfere ->
  respects no_revival (failJob db_fault interfere now jobId).
Proof.
  intros Hq. unfold failJob.
  assert (Hupdate : respects no_revival
            (updateJobStatus db_fault interfere now jobId "failed" (fun j => j)))
    by (apply no_revival_updateJobStatus; [exact Hq | discriminate | reflexivity]).
  apply (respects_try_catch no_revival no_revival_trans); [|intros e; exact Hupdate].
  apply (respects_bind no_revival no_revival_trans);
    [now apply same_db_no_revival, same_db_getJobById|].
  intros found.
  apply (respects_bind no_revival no_revival_trans); [exact Hupdate|].
  intros b. apply same_db_no_revival.
  apply same_db_bind; [|auto with store].
  destruct found as [job_|]; auto with store.
Qed.

Lemma no_revival_renderVideo
    ffprobe_duration ffprobe_video ffmpeg_exit uuidv4 dirname timestamp
    db_fault interfere generateKey publicBaseUrl upload_done baseDir
    isValidUrl download_ok large_enough processor job_ :
  quiet_store interfere ->
  respects no_revival
    (renderVideo ffprobe_duration ffprobe_video ffmpeg_exit uuidv4 dirname
       timestamp db_fault interfere generateKey publicBaseUrl upload_done
       baseDir isValidUrl download_ok large_enough processor job_).
Proof.
  intros Hq. unfold renderVideo.
  apply (respects_try_catch no_revival no_revival_trans).
  - apply (respects_bind no_revival no_revival_trans);
      [apply same_db_no_revival, same_db_render_steps|].
    intros [[videoPath audioPath] outputPath]. unfold publish_steps.
    apply (respects_bind no_revival no_revival_trans);
      [apply same_db_no_revival, same_db_uploadAndCleanup|].
    intros u.
    apply (respects_bind no_revival no_revival_trans);
      [now apply no_revival_completeJob|].
    intros b. apply same_db_no_revival. auto with store.
  - intros e.
    apply (respects_bind no_revival no_revival_trans);
      [now apply no_revival_failJob|].
    intros b. apply (respects_throw no_revival no_revival_refl).
Qed.

(** ** The batch loop *)

(** A poll that hands out a job has closed its id. *)
Lemma getAndClaimJob_claims db_fault interfere now (w : world) :
  quiet_store interfere ->
  let r := getAndClaimJob db_fault interfere now w in
  no_revival w (fst r)
  /\ (snd r = Normal None
      \/ exists u selected,
           snd r = Normal (Some u)
           /\ In selected (db w) /\ is_candidate selected = true
           /\ id u = id selected
           /\ closed (id selected) (db (fst r))
           /\ (waiting (db (fst r)) < waiting (db w))%nat).
Proof.
  intros Hq r.
  destruct (getAndClaimJob_settles db_fault interfere now w Hq) as (_ & Hlt & _).
  fold r in Hlt.
  pose proof (getAndClaimJob_quiet_run db_fault interfere now w Hq) as Hrun.
  cbv zeta in Hrun. fold r in Hrun.
  pose proof (selected_is_lowest_candidate (db w)) as Hsel.
  destruct (db_fault (db_calls w));
    [| rewrite Hrun; split; [exact (no_revival_refl w) | now left] ..].
  destruct (firstn 1 (order_by_id (List.filter is_candidate (db w))))
    as [|selected rest];
    [rewrite Hrun; split; [exact (no_revival_refl w) | now left]|].
  destruct Hsel as (Hin & Hcand & _).
  destruct (db_fault (S (db_calls w)));
    [| rewrite Hrun; split; [exact (no_revival_refl w) | now left] ..].
  set (keeps := fun j : job =>
                  (id j =? id selected) && String.eqb (status j) "waiting_render")
    in Hrun.
  set (claimed := set_status "rendering" now (fun j => j)) in Hrun.
  assert (Hdb : db (fst r) = map (fun j => if keeps j then claimed j else j) (db w))
    by now rewrite Hrun.
  assert (Hres : snd r = Normal match map claimed (List.filter keeps (db w)) with
                                | [u] => Some u
                                | _ => None
                                end) by now rewrite Hrun.
  split.
  - unfold no_revival. rewrite Hdb. apply no_revival_update.
    + intros j. now apply set_status_id.
    + intros j. now apply set_status_not_candidate.
  - destruct (map claimed (List.filter keeps (db w))) as [|u [|u' t]] eqn:Hmap;
      [now left | | now left].
    right. exists u, selected. split; [exact Hres|].
    split; [exact Hin|]. split; [exact Hcand|].
    assert (Hu : In u (map claimed (List.filter keeps (db w))))
      by (rewrite Hmap; now left).
    apply in_map_iff in Hu as (x & <- & Hx). apply filter_In in Hx as [_ Hx].
    apply andb_true_iff in Hx as [Hx _]. apply Z.eqb_eq in Hx.
    split; [exact Hx|]. split; [|exact (Hlt _ Hres)].
    rewrite Hdb. intros j' Hj' Hid.
    apply in_map_iff in Hj' as (j & <- & Hj).
    destruct (keeps j) eqn:Hk.
    + now apply set_status_not_candidate.
    + unfold keeps in Hk. rewrite Hid, Z.eqb_refl in Hk. cbn [andb] in Hk.
      unfold is_candidate. now rewrite Hk.
Qed.

(** One turn of the loop, by the outcome of the poll and of the render. *)
Lemma processAllJobs_turn_run
    ffprobe_duration ffprobe_video ffmpeg_exit uuidv4 dirname timestamp
    db_fault interfere generateKey publicBaseUrl upload_done baseDir
    isValidUrl download_ok large_enough processor
    (processed failed : nat) (jobResults : list jobResult) (w : world) :
  processAllJobs_turn ffprobe_duration ffprobe_video ffmpeg_exit
    uuidv4 dirname timestamp db_fault interfere generateKey
    publicBaseUrl upload_done baseDir isValidUrl download_ok
    large_enough processor processed failed jobResults w
  = match getAndClaimJob db_fault interfere timestamp w with
    | (w1, Normal None) => (w1, Normal None)
    | (w1, Normal (Some job_)) =>
        match renderVideo ffprobe_duration ffprobe_video
                ffmpeg_exit uuidv4 dirname timestamp db_fault
                interfere generateKey publicBaseUrl upload_done
                baseDir isValidUrl download_ok large_enough
                processor job_ w1 with
        | (w2, Normal _) =>
            (w2, Normal (Some (S processed, failed,
                   jobResults ++ [mkJobResult (Some (id job_)) true])))
        | (w2, Throw _) =>
            (w2, Normal (Some (processed, S failed,
                   jobResults ++ [mkJobResult (Some (id job_)) false])))
        end
    | (w1, Throw _) =>
        (w1, Normal (Some (processed, S failed,
               jobResults ++ [mkJobResult None false])))
    end.
Proof.
  unfold processAllJobs_turn, try_catch. rewrite bind_run.
  destruct (getAndClaimJob db_fault interfere timestamp w) as [w1 [[u|]|e]];
    try reflexivity.
  rewrite bind_run.
  destruct (renderVideo _ _ _ _ _ _ _ _ _ _ _ _ _ _ _ _ u w1) as [w2 [a|e]];
    reflexivity.
Qed.

(** One turn of the loop: it breaks, or it has closed one more id. *)
Lemma processAllJobs_turn_quiet
    ffprobe_duration ffprobe_video ffmpeg_exit uuidv4 dirname timestamp
    db_fault interfere generateKey publicBaseUrl upload_done baseDir
    isValidUrl download_ok large_enough processor
    (processed failed : nat) (jobResults : list jobResult) (w : world) :
  quiet_store interfere ->
  let r := processAllJobs_turn ffprobe_duration ffprobe_video ffmpeg_exit
             uuidv4 dirname timestamp db_fault interfere generateKey
             publicBaseUrl upload_done baseDir isValidUrl download_ok
             large_enough processor processed failed jobResults w in
  no_revival w (fst r)
  /\ (snd r = Normal None
      \/ exists (i : Z) (b : bool),
           snd r = Normal (Some ((if b then S processed else processed),
                                 (if b then failed else S failed),
                                 jobResults ++ [mkJobResult (Some i) b]))
           /\ (exists selected, In selected (db w)
                                /\ is_candidate selected = true
                                /\ id selected = i)
           /\ closed i (db (fst r))
           /\ (waiting (db (fst r)) < waiting (db w))%nat).
Proof.
  intros Hq r.
  pose proof (processAllJobs_turn_run ffprobe_duration ffprobe_video
                ffmpeg_exit uuidv4 dirname timestamp db_fault interfere
                generateKey publicBaseUrl upload_done baseDir isValidUrl
                download_ok large_enough processor processed failed jobResults w)
    as Hr.
  fold r in Hr.
  clearbody r. subst r.
  destruct (getAndClaimJob_claims db_fault interfere timestamp w Hq)
    as (Hpoll & Houtcome).
  destruct (getAndClaimJob db_fault interfere timestamp w) as [w1 c].
  cbn [fst snd] in Hpoll, Houtcome.
  destruct Houtcome as [-> | (u & selected & -> & Hin & Hcand & Hid & Hclosed & Hlt)].
  { split; [exact Hpoll | now left]. }
  pose proof (no_revival_renderVideo ffprobe_duration ffprobe_video ffmpeg_exit
                uuidv4 dirname timestamp db_fault interfere generateKey
                publicBaseUrl upload_done baseDir isValidUrl download_ok
                large_enough processor u Hq w1) as Hrender.
  destruct (renderVideo _ _ _ _ _ _ _ _ _ _ _ _ _ _ _ _ u w1) as [w2 res].
  cbn [fst] in Hrender.
  assert (Hw2 : no_revival w w2 /\ closed (id u) (db w2)
                /\ (waiting (db w2) < waiting (db w))%nat).
  { split; [exact (no_revival_trans _ _ _ Hpoll Hrender)|]. split.
    - rewrite Hid. exact (no_revival_closed _ _ _ Hrender Hclosed).
    - destruct (no_revival_settles _ _ Hrender) as [_ Hle]. lia. }
  destruct Hw2 as (Hrel & Hcl & Hless).
  destruct res as [a|e]; cbn [fst snd].
  - split; [exact Hrel|]. right. exists (id u), true.
    split; [reflexivity|]. split; [exists selected; auto|]. auto.
  - split; [exact Hrel|]. right. exists (id u), false.
    split; [reflexivity|]. split; [exists selected; auto|]. auto.
Qed.

Section BatchLoop.

Variable ffprobe_duration : string -> completion jsnum.
Variable ffprobe_video : string -> completion videoInfo.
Variable ffmpeg_exit : command -> exit.
Variable uuidv4 : nat -> string.
Variable dirname : string -> string.
Variable timestamp : string.
Variable db_fault : nat -> fault.
Variable interfere : nat -> list job -> list job.
Variable generateKey : Z -> Z -> string.
Variable publicBaseUrl : string.
Variable upload_done : string -> string -> bool.
Variable baseDir : string.
Variable isValidUrl download_ok large_enough : string -> bool.
Variable processor : orchestrator.
Hypothesis no_other_writer : quiet_store interfere.

(** The table the batch starts from. *)
Variable w0 : world.

Lemma processAllJobs_loop_ends (fuel : nat) :
  forall (processed failed : nat) (jobResults : list jobResult) (w : world),
  no_revival w0 w ->
  length jobResults = (processed + failed)%nat ->
  processed = length (List.filter result_success jobResults) ->
  (length jobResults + waiting (db w) <= waiting (db w0))%nat ->
  NoDup (map result_jobId jobResults) ->
  Forall (fun r => exists i, result_jobId r = Some i /\ closed i (db w)
                             /\ exists j, In j (db w0) /\ id j = i
                                          /\ is_candidate j = true)
    jobResults ->
  (waiting (db w) < fuel)%nat ->
  let r := processAllJobs_loop ffprobe_duration ffprobe_video ffmpeg_exit
             uuidv4 dirname timestamp db_fault interfere generateKey
             publicBaseUrl upload_done baseDir isValidUrl download_ok
             large_enough processor fuel processed failed jobResults w in
  exists s,
    snd r = Normal (Some s)
    /\ no_revival w0 (fst r)
    /\ total s = (totalProcessed s + totalFailed s)%nat
    /\ length (results s) = total s
    /\ totalProcessed s = length (List.filter result_success (results s))
    /\ (total s + waiting (db (fst r)) <= waiting (db w0))%nat
    /\ NoDup (map result_jobId (results s))
    /\ Forall (fun r' => exists i, result_jobId r' = Some i
                                   /\ closed i (db (fst r))
                                   /\ exists j, In j (db w0) /\ id j = i
                                                /\ is_candidate j = true)
         (results s).
Proof.
  induction fuel as [|fuel IH];
    intros processed failed jobResults w Hrel Hlen Hok Hcount Hnd Hall Hfuel;
    [lia|].
  cbv zeta. cbn [processAllJobs_loop]. rewrite bind_run.
  destruct (processAllJobs_turn_quiet ffprobe_duration ffprobe_video
              ffmpeg_exit uuidv4 dirname timestamp db_fault interfere
              generateKey publicBaseUrl upload_done baseDir isValidUrl
              download_ok large_enough processor processed failed jobResults w
              no_other_writer) as (Hturn & Houtcome).
  destruct (processAllJobs_turn _ _ _ _ _ _ _ _ _ _ _ _ _ _ _ _ _ _ _ w)
    as [w1 c].
  cbn [fst snd] in Hturn, Houtcome.
  assert (Hold : Forall (fun r => exists i, result_jobId r = Some i
                                   /\ closed i (db w1)
                                   /\ exists j, In j (db w0) /\ id j = i
                                                /\ is_candidate j = true)
                   jobResults).
  { eapply Forall_impl; [exact Hall|].
    intros r (i & Hi & Hcl & Horigin). exists i. split; [exact Hi|].
    split; [exact (no_revival_closed _ _ _ Hturn Hcl) | exact Horigin]. }
  destruct (no_revival_settles _ _ Hturn) as [_ Hle].
  destruct Houtcome as [-> | (i & b & -> & (selected & Hin & Hcand & Hid) & Hcl & Hless)].
  - exists (mkStats processed failed (processed + failed) jobResults).
    cbn [fst snd mret M_ret total totalProcessed totalFailed results].
    split; [reflexivity|].
    split; [exact (no_revival_trans _ _ _ Hrel Hturn)|].
    split; [reflexivity|]. split; [exact Hlen|]. split; [exact Hok|].
    split; [lia|]. split; [exact Hnd | exact Hold].
  - apply IH.
    + exact (no_revival_trans _ _ _ Hrel Hturn).
    + rewrite length_app. cbn [length]. destruct b; lia.
    + rewrite List.filter_app, length_app. cbn [List.filter result_success].
      destruct b; cbn [length]; lia.
    + rewrite length_app. cbn [length]. lia.
    + rewrite map_app. cbn [map result_jobId]. apply NoDup_app.
      split; [exact Hnd|]. split; [|apply NoDup_singleton].
      intros x Hx Hnew. apply list_elem_of_singleton in Hnew. subst x.
      apply list_elem_of_In, in_map_iff in Hx as (r & Hr & Hrin).
      rewrite Forall_forall in Hall.
      destruct (Hall r (proj2 (list_elem_of_In _ _) Hrin))
        as (i' & Hi' & Hclosed & _).
      assert (i' = i) by congruence. subst i'.
      rewrite (Hclosed selected Hin Hid) in Hcand. discriminate.
    + apply Forall_app. split; [exact Hold|].
      apply Forall_singleton. exists i. split; [reflexivity|].
      split; [exact Hcl|].
      destruct (no_revival_origin _ _ selected Hrel Hin Hcand)
        as (j & Hj & Hjid & Hjc).
      exists j. split; [exact Hj|]. split; [congruence | exact Hjc].
    + lia.
Qed.

End BatchLoop.

(** X19. With no other writer at the table, [processAllJobs] ends after at
    most one turn per waiting job plus one, whatever fails on the way. Its
    counters add up to the number of results, every result carries the id
    of a job that was waiting when the batch started, no id occurs twice,
    the entry ['unknown'] is never produced, and when the batch ends no row
    with a handled id is waiting any more. The table keeps its ids. *)
Theorem batch_handles_each_job_once
    (ffprobe_duration : string -> completion jsnum)
    (ffprobe_video : string -> completion videoInfo)
    (ffmpeg_exit : command -> exit) (uuidv4 : nat -> string)
    (dirname : string -> string) (timestamp : string)
    (db_fault : nat -> fault) (interfere : nat -> list job -> list job)
    (generateKey : Z -> Z -> string) (publicBaseUrl : string)
    (upload_done : string -> string -> bool) (baseDir : string)
    (isValidUrl download_ok large_enough : string -> bool)
    (processor : orchestrator) (fuel : nat) (w : world) :
  quiet_store interfere ->
  (waiting (db w) < fuel)%nat ->
  let r := processAllJobs ffprobe_duration ffprobe_video ffmpeg_exit uuidv4
             dirname timestamp db_fault interfere generateKey publicBaseUrl
             upload_done baseDir isValidUrl download_ok large_enough
             processor fuel w in
  exists s,
    snd r = Normal (Some s)
    /\ total s = (totalProcessed s + totalFailed s)%nat
    /\ length (results s) = total s
    /\ totalProcessed s = length (List.filter result_success (results s))
    /\ (total s + waiting (db (fst r)) <= waiting (db w))%nat
    /\ NoDup (map result_jobId (results s))
    /\ Forall (fun r' => exists i, result_jobId r' = Some i
                                   /\ closed i (db (fst r))
                                   /\ exists j, In j (db w) /\ id j = i
                                                /\ is_candidate j = true)
         (results s)
    /\ map id (db (fst r)) = map id (db w).
Proof.
  intros Hq Hfuel r.
  destruct (processAllJobs_loop_ends ffprobe_duration ffprobe_video
              ffmpeg_exit uuidv4 dirname timestamp db_fault interfere
              generateKey publicBaseUrl upload_done baseDir isValidUrl
              download_ok large_enough processor Hq w fuel 0%nat 0%nat [] w)
    as (s & Hs & Hrel & Htotal & Hlen & Hok & Hcount & Hnd & Hall).
  - exact (no_revival_refl w).
  - reflexivity.
  - reflexivity.
  - cbn [length]. lia.
  - apply NoDup_nil_2.
  - constructor.
  - exact Hfuel.
  - exists s. fold r in Hs, Hrel, Hcount, Hall.
    split; [exact Hs|]. split; [exact Htotal|]. split; [exact Hlen|].
    split; [exact Hok|]. split; [exact Hcount|]. split; [exact Hnd|].
    split; [exact Hall|].
    exact (proj1 (no_revival_settles _ _ Hrel)).
Qed.

(** The sample table has two waiting jobs; three turns are enough, and both
    jobs are handled. *)
Lemma batch_handles_each_job_once_witness :
  exists s,
    snd (processAllJobs sample_duration sample_video sample_exit sample_uuid
           sample_dirname "T" no_fault quiet sample_key "https://b2"
           (fun _ _ => true) "temp" (fun _ => true) (fun _ => true)
           (fun _ => true) sample_processor 3 sample_world)
    = Normal (Some s)
    /\ total s = (totalProcessed s + totalFailed s)%nat.
Proof.
  destruct (batch_handles_each_job_once sample_duration sample_video
              sample_exit sample_uuid sample_dirname "T" no_fault quiet
              sample_key "https://b2" (fun _ _ => true) "temp" (fun _ => true)
              (fun _ => true) (fun _ => true) sample_processor 3 sample_world)
    as (s & Hs & Htotal & _).
  - intros n rows. reflexivity.
  - vm_compute. lia.
  - exists s. split; [exact Hs | exact Htotal].
Defined.

(** ** A batch on a healthy store *)

Lemma only_id_refl i w : only_id i w w.
Proof.
  unfold only_id. induction (db w) as [|j rows IH]; constructor; auto.
Qed.

Lemma only_id_trans i a b c : only_id i a b -> only_id i b c -> only_id i a c.
Proof.
  unfold only_id. generalize (db a) (db b) (db c).
  intros l1 l2 l3 Hab. revert l3.
  induction Hab as [|x y l1 l2 [E1 C1] _ IH]; intros l3 Hbc;
    inversion Hbc as [|y' z l2' l3' [E2 C2] Hrest]; subst; constructor.
  - split; [congruence|]. intros Hne. rewrite C2, C1; congruence.
  - now apply IH.
Qed.

Lemma same_db_only_id {A} i (m : M A) :
  respects same_db m -> respects (only_id i) m.
Proof.
  intros H w. specialize (H w). unfold same_db in H. unfold only_id.
  rewrite H. apply (only_id_refl i w).
Qed.

Lemma only_id_update (i : Z) (keeps : job -> bool) (change : job -> job)
    (rows : list job) :
  (forall j, id (change j) = id j) ->
  (forall j, keeps j = true -> id j = i) ->
  Forall2 (fun j j' => id j' = id j /\ (id j <> i -> j' = j))
    rows (map (fun j => if keeps j then change j else j) rows).
Proof.
  intros Hid Hkeeps. induction rows as [|j rows IH]; [constructor|].
  cbn [map]. constructor; [|exact IH].
  destruct (keeps j) eqn:Hk; [|auto].
  split; [apply Hid|]. intros Hne. now apply Hkeeps in Hk.
Qed.

Lemma only_id_updateJobStatus db_fault interfere now jobId st extra :
  quiet_store interfere ->
  (forall j, id (extra j) = id j) ->
  respects (only_id jobId)
    (updateJobStatus db_fault interfere now jobId st extra).
Proof.
  intros Hq Hid w. rewrite (updateJobStatus_run _ _ _ _ _ _ _ Hq).
  destruct (db_fault (db_calls w)); cbn [fst];
    [|exact (only_id_refl jobId w) ..].
  unfold only_id. cbn [db set_db next_db_call].
  apply (only_id_update jobId (fun j => id j =? jobId)).
  - intros j. now apply set_status_id.
  - intros j Hj. now apply Z.eqb_eq.
Qed.

Lemma only_id_completeJob db_fault interfere now jobId outputUrl :
  quiet_store interfere ->
  respects (only_id jobId) (completeJob db_fault interfere now jobId outputUrl).
Proof.
  intros Hq. unfold completeJob.
  apply (respects_try_catch _ (only_id_trans jobId));
    [|intros e; apply (respects_mret _ (only_id_refl jobId))].
  apply (respects_bind _ (only_id_trans jobId));
    [now apply same_db_only_id, same_db_getJobById|].
  intros [job_|]; [|apply (respects_mret _ (only_id_refl jobId))].
  apply (respects_bind _ (only_id_trans jobId)).
  { apply only_id_updateJobStatus; [exact Hq | reflexivity]. }
  intros b. destruct (negb b); [apply (respects_mret _ (only_id_refl jobId))|].
  apply same_db_only_id. auto 6 with store.
Qed.

Lemma only_id_failJob db_fault interfere now jobId :
  quiet_store interfere ->
  respects (only_id jobId) (failJob db_fault interfere now jobId).
Proof.
  intros Hq. unfold failJob.
  assert (Hupdate : respects (only_id jobId)
            (updateJobStatus db_fault interfere now jobId "failed" (fun j => j)))
    by (apply only_id_updateJobStatus; [exact Hq | reflexivity]).
  apply (respects_try_catch _ (only_id_trans jobId));
    [|intros e; exact Hupdate].
  apply (respects_bind _ (only_id_trans jobId));
    [now apply same_db_only_id, same_db_getJobById|].
  intros found.
  apply (respects_bind _ (only_id_trans jobId));
    [exact Hupdate|].
  intros b. apply same_db_only_id.
  apply same_db_bind; [|auto with store].
  destruct found as [job_|]; auto with store.
Qed.

Lemma only_id_renderVideo
    ffprobe_duration ffprobe_video ffmpeg_exit uuidv4 dirname timestamp
    db_fault interfere generateKey publicBaseUrl upload_done baseDir
    isValidUrl download_ok large_enough processor job_ :
  quiet_store interfere ->
  respects (only_id (id job_))
    (renderVideo ffprobe_duration ffprobe_video ffmpeg_exit uuidv4 dirname
       timestamp db_fault interfere generateKey publicBaseUrl upload_done
       baseDir isValidUrl download_ok large_enough processor job_).
Proof.
  intros Hq. unfold renderVideo.
  set (i := id job_).
  apply (respects_try_catch _ (only_id_trans i)).
  - apply (respects_bind _ (only_id_trans i));
      [apply same_db_only_id, same_db_render_steps|].
    intros [[videoPath audioPath] outputPath]. unfold publish_steps.
    apply (respects_bind _ (only_id_trans i));
      [apply same_db_only_id, same_db_uploadAndCleanup|].
    intros u.
    apply (respects_bind _ (only_id_trans i));
      [now apply only_id_completeJob|].
    intros b. apply same_db_only_id. auto with store.
  - intros e.
    apply (respects_bind _ (only_id_trans i));
      [now apply only_id_failJob|].
    intros b. apply (respects_throw _ (only_id_refl i)).
Qed.

(** Closing the one row of an id takes one candidate off the table. *)
Lemma closing_one_row (i : Z) (rows rows' : list job) (selected : job) :
  Forall2 (fun j j' => id j' = id j /\ (id j <> i -> j' = j)) rows rows' ->
  NoDup (map id rows) ->
  In selected rows -> id selected = i -> is_candidate selected = true ->
  closed i rows' ->
  S (waiting rows') = waiting rows.
Proof.
  intros H. induction H as [|j j' rows rows' [Hid Hsame] Hrest IH];
    intros Hnd Hin Hi Hcand Hclosed; [destruct Hin|].
  apply NoDup_cons in Hnd as [Hfresh Hnd]. unfold waiting. cbn [List.filter].
  destruct Hin as [-> | Hin].
  - rewrite Hcand. rewrite (Hclosed j' (or_introl eq_refl)) by congruence.
    cbn [length]. f_equal.
    assert (Hrows : rows' = rows).
    { clear IH Hclosed. induction Hrest as [|k k' rows rows' [_ Hk] _ IHr];
        [reflexivity|].
      cbn [map] in Hfresh, Hnd. apply NoDup_cons in Hnd as [_ Hnd].
      rewrite Hk.
      - f_equal. apply IHr; [|exact Hnd].
        intros Habs. apply Hfresh. now right.
      - intros E. apply Hfresh. rewrite Hi, <- E. now left. }
    now rewrite Hrows.
  - assert (Hne : id j <> i).
    { intros E. apply Hfresh. apply list_elem_of_In, in_map_iff.
      exists selected. split; [congruence | exact Hin]. }
    rewrite (Hsame Hne).
    assert (Hrec : S (waiting rows') = waiting rows).
    { apply IH; auto. intros k Hk. apply Hclosed. now right. }
    unfold waiting in Hrec. destruct (is_candidate j); cbn [length]; lia.
Qed.

Lemma nothing_selected (rows : list job) :
  firstn 1 (order_by_id (List.filter is_candidate rows)) = [] ->
  waiting rows = 0%nat.
Proof.
  intros H. unfold waiting.
  pose proof (Permutation_length (order_by_id_perm (List.filter is_candidate rows)))
    as Hlen.
  destruct (order_by_id (List.filter is_candidate rows)); [|discriminate H].
  cbn [length] in Hlen. lia.
Qed.

(** One turn on a healthy store: the loop breaks on an empty queue, and
    otherwise the turn takes exactly one job off it. *)
Lemma processAllJobs_turn_healthy
    ffprobe_duration ffprobe_video ffmpeg_exit uuidv4 dirname timestamp
    db_fault interfere generateKey publicBaseUrl upload_done baseDir
    isValidUrl download_ok large_enough processor
    (processed failed : nat) (jobResults : list jobResult) (w : world) :
  quiet_store interfere ->
  healthy_store db_fault ->
  NoDup (map id (db w)) ->
  let r := processAllJobs_turn ffprobe_duration ffprobe_video ffmpeg_exit
             uuidv4 dirname timestamp db_fault interfere generateKey
             publicBaseUrl upload_done baseDir isValidUrl download_ok
             large_enough processor processed failed jobResults w in
  map id (db (fst r)) = map id (db w)
  /\ ((snd r = Normal None /\ waiting (db w) = 0%nat)
      \/ exists p' f' R',
           snd r = Normal (Some (p', f', R'))
           /\ (p' + f' = S (processed + failed))%nat
           /\ S (waiting (db (fst r))) = waiting (db w)).
Proof.
  intros Hq Hhealthy Hnd r.
  destruct (processAllJobs_turn_quiet ffprobe_duration ffprobe_video
              ffmpeg_exit uuidv4 dirname timestamp db_fault interfere
              generateKey publicBaseUrl upload_done baseDir isValidUrl
              download_ok large_enough processor processed failed jobResults w
              Hq) as (Hrel & _).
  fold r in Hrel. split; [exact (proj1 (no_revival_settles _ _ Hrel))|].
  pose proof (processAllJobs_turn_run ffprobe_duration ffprobe_video
                ffmpeg_exit uuidv4 dirname timestamp db_fault interfere
                generateKey publicBaseUrl upload_done baseDir isValidUrl
                download_ok large_enough processor processed failed jobResults w)
    as Hr.
  fold r in Hr.
  clearbody r. subst r. clear Hrel.
  pose proof (getAndClaimJob_quiet_run db_fault interfere timestamp w Hq) as Hrun.
  cbv zeta in Hrun. rewrite !Hhealthy in Hrun.
  pose proof (selected_is_lowest_candidate (db w)) as Hsel.
  pose proof (nothing_selected (db w)) as Hnone.
  destruct (firstn 1 (order_by_id (List.filter is_candidate (db w))))
    as [|selected rest].
  { rewrite Hrun. left. split; [reflexivity | now apply Hnone]. }
  clear Hnone. destruct Hsel as (Hin & Hcand & _).
  assert (Hst : String.eqb (status selected) "waiting_render" = true).
  { unfold is_candidate in Hcand. now apply andb_true_iff in Hcand as [Hst _]. }
  rewrite (filter_single _ (db w) selected Hnd Hin) in Hrun;
    [| now rewrite Z.eqb_refl, Hst
     | intros k _ Hk; apply andb_true_iff in Hk as [Hk _]; now apply Z.eqb_eq in Hk].
  cbn [map] in Hrun. rewrite Hrun. right.
  set (u := set_status "rendering" timestamp (fun j => j) selected).
  set (w1 := set_db _ _).
  assert (Hclaim : only_id (id selected) w w1 /\ closed (id selected) (db w1)).
  { split.
    - unfold only_id, w1. cbn [db set_db].
      apply (only_id_update (id selected)
               (fun j => (id j =? id selected)
                         && String.eqb (status j) "waiting_render")).
      + intros j. now apply set_status_id.
      + intros j Hj. apply andb_true_iff in Hj as [Hj _]. now apply Z.eqb_eq.
    - unfold w1. cbn [db set_db]. intros j' Hj' Hid.
      apply in_map_iff in Hj' as (j & <- & Hj).
      destruct ((id j =? id selected) && String.eqb (status j) "waiting_render")
        eqn:Hk.
      + now apply set_status_not_candidate.
      + rewrite Hid, Z.eqb_refl in Hk. cbn [andb] in Hk.
        unfold is_candidate. now rewrite Hk. }
  destruct Hclaim as (Honly1 & Hclosed1).
  assert (Hu : id u = id selected) by reflexivity.
  pose proof (only_id_renderVideo ffprobe_duration ffprobe_video ffmpeg_exit
                uuidv4 dirname timestamp db_fault interfere generateKey
                publicBaseUrl upload_done baseDir isValidUrl download_ok
                large_enough processor u Hq w1) as Honly2.
  pose proof (no_revival_renderVideo ffprobe_duration ffprobe_video ffmpeg_exit
                uuidv4 dirname timestamp db_fault interfere generateKey
                publicBaseUrl upload_done baseDir isValidUrl download_ok
                large_enough processor u Hq w1) as Hrel2.
  destruct (renderVideo _ _ _ _ _ _ _ _ _ _ _ _ _ _ _ _ u w1) as [w2 res].
  cbn [fst] in Honly2, Hrel2. rewrite Hu in Honly2.
  assert (Hcount : S (waiting (db w2)) = waiting (db w)).
  { apply (closing_one_row (id selected) (db w) (db w2) selected); auto.
    - exact (only_id_trans _ _ _ _ Honly1 Honly2).
    - exact (no_revival_closed _ _ _ Hrel2 Hclosed1). }
  destruct res as [a|e]; cbn [fst snd].
  - eexists _, _, _. split; [reflexivity|]. split; [lia | exact Hcount].
  - eexists _, _, _. split; [reflexivity|]. split; [lia | exact Hcount].
Qed.

Section HealthyBatch.

Variable ffprobe_duration : string -> completion jsnum.
Variable ffprobe_video : string -> completion videoInfo.
Variable ffmpeg_exit : command -> exit.
Variable uuidv4 : nat -> string.
Variable dirname : string -> string.
Variable timestamp : string.
Variable db_fault : nat -> fault.
Variable interfere : nat -> list job -> list job.
Variable generateKey : Z -> Z -> string.
Variable publicBaseUrl : string.
Variable upload_done : string -> string -> bool.
Variable baseDir : string.
Variable isValidUrl download_ok large_enough : string -> bool.
Variable processor : orchestrator.
Hypothesis no_other_writer : quiet_store interfere.
Hypothesis no_store_fault : healthy_store db_fault.

Lemma processAllJobs_loop_drains (fuel : nat) :
  forall (processed failed : nat) (jobResults : list jobResult) (w : world),
  NoDup (map id (db w)) ->
  (waiting (db w) < fuel)%nat ->
  let r := processAllJobs_loop ffprobe_duration ffprobe_video ffmpeg_exit
             uuidv4 dirname timestamp db_fault interfere generateKey
             publicBaseUrl upload_done baseDir isValidUrl download_ok
             large_enough processor fuel processed failed jobResults w in
  exists s,
    snd r = Normal (Some s)
    /\ waiting (db (fst r)) = 0%nat
    /\ (totalProcessed s + totalFailed s
        = processed + failed + waiting (db w))%nat.
Proof.
  induction fuel as [|fuel IH]; intros processed failed jobResults w Hnd Hfuel;
    [lia|].
  cbv zeta. cbn [processAllJobs_loop]. rewrite bind_run.
  destruct (processAllJobs_turn_healthy ffprobe_duration ffprobe_video
              ffmpeg_exit uuidv4 dirname timestamp db_fault interfere
              generateKey publicBaseUrl upload_done baseDir isValidUrl
              download_ok large_enough processor processed failed jobResults w
              no_other_writer no_store_fault Hnd) as (Hids & Houtcome).
  destruct (processAllJobs_turn_quiet ffprobe_duration ffprobe_video
              ffmpeg_exit uuidv4 dirname timestamp db_fault interfere
              generateKey publicBaseUrl upload_done baseDir isValidUrl
              download_ok large_enough processor processed failed jobResults w
              no_other_writer) as (Hrel & _).
  destruct (processAllJobs_turn _ _ _ _ _ _ _ _ _ _ _ _ _ _ _ _ _ _ _ w)
    as [w1 c].
  cbn [fst snd] in Hids, Houtcome, Hrel.
  destruct Houtcome as [[-> Hzero] | (p' & f' & R' & -> & Hsum & Hless)].
  - exists (mkStats processed failed (processed + failed) jobResults).
    cbn [fst snd mret M_ret totalProcessed totalFailed].
    split; [reflexivity|].
    destruct (no_revival_settles _ _ Hrel) as [_ Hle]. split; lia.
  - destruct (IH p' f' R' w1) as (s & Hs & Hdone & Htotal).
    + now rewrite Hids.
    + lia.
    + exists s. split; [exact Hs|]. split; [exact Hdone | lia].
Qed.

End HealthyBatch.

(** X20. On a store that answers every request, with unique ids and no other
    writer, [processAllJobs] empties the queue: when it returns no job is
    waiting any more, and the number of jobs it counted, rendered or
    failed, is the number of jobs that were waiting when it started,
    whatever the downloads, the transcoder and the uploads did. *)
Theorem batch_drains_the_queue
    (ffprobe_duration : string -> completion jsnum)
    (ffprobe_video : string -> completion videoInfo)
    (ffmpeg_exit : command -> exit) (uuidv4 : nat -> string)
    (dirname : string -> string) (timestamp : string)
    (db_fault : nat -> fault) (interfere : nat -> list job -> list job)
    (generateKey : Z -> Z -> string) (publicBaseUrl : string)
    (upload_done : string -> string -> bool) (baseDir : string)
    (isValidUrl download_ok large_enough : string -> bool)
    (processor : orchestrator) (fuel : nat) (w : world) :
  quiet_store interfere ->
  healthy_store db_fault ->
  NoDup (map id (db w)) ->
  (waiting (db w) < fuel)%nat ->
  let r := processAllJobs ffprobe_duration ffprobe_video ffmpeg_exit uuidv4
             dirname timestamp db_fault interfere generateKey publicBaseUrl
             upload_done baseDir isValidUrl download_ok large_enough
             processor fuel w in
  exists s,
    snd r = Normal (Some s)
    /\ waiting (db (fst r)) = 0%nat
    /\ total s = waiting (db w)
    /\ (totalProcessed s + totalFailed s)%nat = waiting (db w).
Proof.
  intros Hq Hhealthy Hnd Hfuel r.
  destruct (processAllJobs_loop_drains ffprobe_duration ffprobe_video
              ffmpeg_exit uuidv4 dirname timestamp db_fault interfere
              generateKey publicBaseUrl upload_done baseDir isValidUrl
              download_ok large_enough processor Hq Hhealthy fuel 0%nat 0%nat
              [] w Hnd Hfuel) as (s & Hs & Hdone & Htotal).
  destruct (processAllJobs_loop_ends ffprobe_duration ffprobe_video
              ffmpeg_exit uuidv4 dirname timestamp db_fault interfere
              generateKey publicBaseUrl upload_done baseDir isValidUrl
              download_ok large_enough processor Hq w fuel 0%nat 0%nat [] w)
    as (s' & Hs' & _ & Hsum & _);
    [exact (no_revival_refl w) | reflexivity | reflexivity | cbn [length]; lia
    | apply NoDup_nil_2 | constructor | exact Hfuel |].
  subst r. unfold processAllJobs.
  assert (s' = s) by congruence. subst s'.
  exists s. split; [exact Hs|]. split; [exact Hdone|]. split; lia.
Qed.

(** The two waiting jobs of the sample table are both counted. *)
Lemma batch_drains_the_queue_witness :
  exists s,
    snd (processAllJobs sample_duration sample_video sample_exit sample_uuid
           sample_dirname "T" no_fault quiet sample_key "https://b2"
           (fun _ _ => true) "temp" (fun _ => true) (fun _ => true)
           (fun _ => true) sample_processor 3 sample_world)
    = Normal (Some s)
    /\ total s = 2%nat.
Proof.
  destruct (batch_drains_the_queue sample_duration sample_video
              sample_exit sample_uuid sample_dirname "T" no_fault quiet
              sample_key "https://b2" (fun _ _ => true) "temp" (fun _ => true)
              (fun _ => true) (fun _ => true) sample_processor 3 sample_world)
    as (s & Hs & _ & Htotal & _).
  - intros n rows. reflexivity.
  - intros n. reflexivity.
  - apply (bool_decide_unpack _). vm_compute. exact I.
  - vm_compute. lia.
  - exists s. split; [exact Hs | exact Htotal].
Defined.

(** ** Publishing a rendered job *)

Lemma completeJob_untouched db_fault interfere now jobId outputUrl :
  respects untouched (completeJob db_fault interfere now jobId outputUrl).
Proof.
  unfold completeJob.
  apply (respects_try_catch untouched untouched_trans);
    [|intros e; apply (respects_mret untouched untouched_refl)].
  apply (respects_bind untouched untouched_trans);
    [apply getJobById_untouched|].
  intros [job_|]; [|apply (respects_mret untouched untouched_refl)].
  apply (respects_bind untouched untouched_trans);
    [apply updateJobStatus_untouched|].
  intros b. destruct (negb b); [apply (respects_mret untouched untouched_refl)|].
  apply (respects_bind untouched untouched_trans);
    [|intros u; apply (respects_mret untouched untouched_refl)].
  destruct (truthy_string _);
    [apply notify_untouched | apply (respects_mret untouched untouched_refl)].
Qed.

Lemma completeJob_result db_fault interfere now jobId outputUrl (w : world) :
  exists b,
    completeJob db_fault interfere now jobId outputUrl w
    = (fst (completeJob db_fault interfere now jobId outputUrl w), Normal b).
Proof.
  unfold completeJob.
  match goal with |- context [try_catch ?m _] => set (body := m) end.
  unfold try_catch.
  destruct (body w) as [w' [b|e]]; [exists b | exists false]; reflexivity.
Qed.

(** What [completeJob] leaves in the table when no other writer is there. *)
Lemma completeJob_table db_fault interfere now jobId outputUrl (w : world) :
  quiet_store interfere ->
  db (fst (completeJob db_fault interfere now jobId outputUrl w))
  = match db_fault (db_calls w), db_fault (S (db_calls w)),
          List.filter (fun j => id j =? jobId) (db w) with
    | NoFault, NoFault, [_] =>
        map (fun j => if id j =? jobId
                      then set_status "rendered" now
                             (set_final_video_url outputUrl) j
                      else j) (db w)
    | _, _, _ => db w
    end.
Proof.
  intros Hq. unfold completeJob, try_catch.
  rewrite bind_run, (getJobById_run _ _ _ _ Hq).
  destruct (db_fault (db_calls w)); [|reflexivity..].
  destruct (List.filter (fun j => id j =? jobId) (db w)) as [|row [|row' rest]];
    [now destruct (db_fault (S (db_calls w))) |
    |now destruct (db_fault (S (db_calls w)))].
  rewrite bind_run, (updateJobStatus_run _ _ _ _ _ _ _ Hq).
  cbn [db_calls next_db_call db].
  destruct (db_fault (S (db_calls w))); [|reflexivity..].
  destruct (List.filter _ _) as [|x [|y t]]; cbn [negb];
    try reflexivity.
  rewrite bind_run. now destruct (truthy_string _).
Qed.



(** ** Object keys *)

Lemma decimal_pretty_N_go (x : N) :
  forall s, decimal s = true -> decimal (pretty_N_go x s) = true.
Proof.
  induction (N.lt_wf_0 x) as [x _ IH]. intros s Hs.
  assert (x = 0 \/ 0 < x)%N as [-> | Hpos] by lia.
  - now rewrite pretty_N_go_0.
  - rewrite pretty_N_go_step by exact Hpos. apply IH.
    + now apply N.div_lt.
    + cbn [decimal]. rewrite Hs, andb_true_r.
      unfold pretty_N_char. now repeat case_match.
Qed.

Lemma decimal_pretty (z : Z) : decimal (pretty z) = true.
Proof.
  assert (HN : forall n : N, decimal (pretty n) = true).
  { intros n. unfold pretty, pretty_N. destruct (decide (n = 0%N)); [reflexivity|].
    now apply decimal_pretty_N_go. }
  destruct z as [|p|p]; [reflexivity | apply (HN (Npos p)) |].
  unfold pretty, pretty_Z. cbn [decimal append is_decimal andb].
  apply (HN (Npos p)).
Qed.

Lemma append_inv_head (a x y : string) : a +:+ x = a +:+ y -> x = y.
Proof.
  induction a as [|c a IH]; cbn [append]; [auto|].
  intros H. injection H as H. auto.
Qed.

(** Two printed integers followed by a character that no integer has. *)
Lemma decimal_split (sep : ascii) (r1 r2 t1 t2 : string) :
  is_decimal sep = false ->
  decimal r1 = true -> decimal r2 = true ->
  r1 +:+ String sep t1 = r2 +:+ String sep t2 ->
  r1 = r2 /\ t1 = t2.
Proof.
  intros Hsep. revert r2.
  induction r1 as [|c r1 IH]; intros [|c' r2] H1 H2 E; cbn [append] in E.
  - injection E as E. auto.
  - injection E as Ec _. subst c'. cbn [decimal] in H2.
    rewrite Hsep in H2. discriminate.
  - injection E as Ec _. subst c. cbn [decimal] in H1.
    rewrite Hsep in H1. discriminate.
  - injection E as Ec E. subst c'.
    cbn [decimal] in H1, H2.
    apply andb_true_iff in H1 as [_ H1]. apply andb_true_iff in H2 as [_ H2].
    destruct (IH r2 H1 H2 E) as [-> ->]. auto.
Qed.

(** A placeholder starts with a brace, which no printed integer has. *)
Lemma js_replace_skips (r rest pattern replacement : string) (c : ascii) :
  is_decimal c = false ->
  decimal r = true ->
  js_replace (r +:+ rest) (String c pattern) replacement
  = r +:+ js_replace rest (String c pattern) replacement.
Proof.
  intros Hc. induction r as [|d r IH]; intros Hr; [reflexivity|].
  cbn [decimal] in Hr. apply andb_true_iff in Hr as [Hd Hr].
  change (String d r +:+ rest) with (String d (r +:+ rest)).
  cbn [js_replace String.prefix].
  destruct (ascii_dec c d) as [-> | _]; [congruence|].
  rewrite IH by exact Hr. reflexivity.
Qed.

Lemma generateKey_shape (channelId videoId : Z) :
  BackblazeUploader_generateKey keyPattern channelId videoId
  = "dark_channel_sounds/channel_" +:+ pretty channelId
    +:+ "/finals/rendered_version_" +:+ pretty videoId +:+ ".mp4".
Proof.
  unfold BackblazeUploader_generateKey.
  assert (H1 : js_replace keyPattern "{channelId}" (pretty channelId)
               = "dark_channel_sounds/channel_"
                 +:+ (pretty channelId
                      +:+ "/finals/rendered_version_{videoId}.mp4"))
    by reflexivity.
  rewrite H1.
  assert (H2 : forall t,
            js_replace ("dark_channel_sounds/channel_" +:+ t) "{videoId}"
              (pretty videoId)
            = "dark_channel_sounds/channel_"
              +:+ js_replace t "{videoId}" (pretty videoId))
    by reflexivity.
  rewrite H2.
  rewrite (js_replace_skips (pretty channelId) _ "videoId}" _ "{"%char
             eq_refl (decimal_pretty channelId)).
  reflexivity.
Qed.


